(** * MacMemory: the typed scan/refine engine of [macmemory.cpp]

    A shallow embedding of the [MemoryScanner] class (value codec, initial
    scan, refine scan, watch loop, result persistence) and of the two shell
    commands that call the scans, followed by the properties of the
    specification that concern them.

    Conventions.
    - [size_t], [mach_vm_address_t] and [mach_vm_size_t] are 64-bit unsigned:
      they are values of [Z] and every operation that can leave the range is
      wrapped with [wrap64].
    - A [std::vector<uint8_t>] is a [list byte]; a [std::string] is a
      [string]; integers are stored little-endian, as on every macOS target.
    - Reading through a pointer outside the vector it points into is
      undefined behaviour; it is the outcome [OutOfBounds].
    - The target process is not part of the program: the answers of
      [mach_vm_read_overwrite] are a parameter, indexed by the number of
      reads issued so far, so that the target's memory may change over time.
    - [std::stof], [std::stod] and the stream insertion of [float] and
      [double] belong to the C++ library; they are the parameter [FloatLib].
    - Memory is assumed sufficient: no allocation throws for want of
      memory.  A [std::vector<uint8_t>] of more than [max_size] bytes
      cannot be built at all (its constructor throws [std::length_error]);
      the scan loop is modelled for regions within that size, and the
      theorems that depend on the buffer of a region being built say so
      ([allocatable]).
    - [std::cout] keeps its floating-point notation from one insertion to
      the next: it is read off the console ([cout_fixed]).
*)

From Stdlib Require Import ZArith List String Ascii Bool Lia.
From Stdlib Require Import DecimalString HexadecimalString Sorted.
From Stdlib.Strings Require Import Byte.
Import ListNotations.
Local Open Scope string_scope.
Local Open Scope list_scope.
Local Open Scope Z_scope.

Infix "+++" := String.append (right associativity, at level 60).

(** ** Machine integers and bytes *)

Definition wrap64 (z : Z) : Z := z mod 2 ^ 64.

Definition INT_MIN : Z := - 2 ^ 31.
Definition INT_MAX : Z := 2 ^ 31 - 1.
Definition LLONG_MIN : Z := - 2 ^ 63.
Definition LLONG_MAX : Z := 2 ^ 63 - 1.

Definition byte_of_Z (z : Z) : byte :=
  match Byte.of_N (Z.to_N (z mod 256)) with
  | Some b => b
  | None => x00
  end.

Definition Z_of_byte (b : byte) : Z := Z.of_N (Byte.to_N b).

(** [memcpy(dst, &val, n)] of an integer: its [n] low bytes, lowest first. *)
Fixpoint le_bytes (n : nat) (z : Z) : list byte :=
  match n with
  | O => []
  | S k => byte_of_Z z :: le_bytes k (z / 256)
  end.

(** The unsigned integer stored in a byte sequence, lowest byte first. *)
Fixpoint le_value (bs : list byte) : Z :=
  match bs with
  | [] => 0
  | b :: rest => Z_of_byte b + 256 * le_value rest
  end.

(** Two's complement reading of an unsigned [bits]-bit integer. *)
Definition signed (bits : Z) (u : Z) : Z :=
  if u <? 2 ^ (bits - 1) then u else u - 2 ^ bits.

Fixpoint bytes_eqb (a b : list byte) : bool :=
  match a, b with
  | [], [] => true
  | x :: a', y :: b' => Byte.eqb x y && bytes_eqb a' b'
  | _, _ => false
  end.

(** ** Pointers into vectors

    [deref v off n] is the [n] bytes at [v.data() + off]; there is none when
    the range leaves the vector. *)
Definition deref (v : list byte) (off : Z) (n : nat) : option (list byte) :=
  if (0 <=? off) && (off + Z.of_nat n <=? Z.of_nat (List.length v))
  then Some (firstn n (skipn (Z.to_nat off) v))
  else None.

(** [*reinterpret_cast<T*>(v.data() + off)] for an [n]-byte integer [T],
    as an unsigned number. *)
Definition load (v : list byte) (off : Z) (n : nat) : option Z :=
  option_map le_value (deref v off n).

(** [memcmp(a.data() + aoff, b.data() + boff, n) == 0]. *)
Definition memcmp_eq (a : list byte) (aoff : Z) (b : list byte) (boff : Z)
    (n : nat) : option bool :=
  match deref a aoff n, deref b boff n with
  | Some x, Some y => Some (bytes_eqb x y)
  | _, _ => None
  end.

(** ** Text *)

Definition newline : string := String (ascii_of_nat 10) EmptyString.
Definition dquote : string := String (ascii_of_nat 34) EmptyString.

(** [os << n] for an integer in base ten. *)
Definition show_dec (z : Z) : string :=
  DecimalString.NilZero.string_of_int (Z.to_int z).

(** [os << std::hex << n] for a non-negative integer. *)
Definition show_hex (z : Z) : string :=
  HexadecimalString.NilZero.string_of_uint (N.to_hex_uint (Z.to_N z)).

Definition isspace (c : ascii) : bool :=
  let n := nat_of_ascii c in
  (n =? 32)%nat || ((9 <=? n)%nat && (n <=? 13)%nat).

Definition digit_of (c : ascii) : option Z :=
  let n := Z.of_nat (nat_of_ascii c) in
  if (48 <=? n) && (n <=? 57) then Some (n - 48) else None.

Definition tolower (c : ascii) : ascii :=
  let n := nat_of_ascii c in
  if (65 <=? n)%nat && (n <=? 90)%nat then ascii_of_nat (n + 32) else c.

Fixpoint lowercase (s : string) : string :=
  match s with
  | EmptyString => EmptyString
  | String c rest => String (tolower c) (lowercase rest)
  end.

Fixpoint skip_space (s : string) : string :=
  match s with
  | String c rest => if isspace c then skip_space rest else s
  | EmptyString => s
  end.

(** The longest run of decimal digits at the head of [s], as a number;
    [seen] tells whether a digit was consumed already. *)
Fixpoint digits (s : string) (acc : Z) (seen : bool) : option Z :=
  match s with
  | String c rest =>
      match digit_of c with
      | Some d => digits rest (10 * acc + d) true
      | None => if seen then Some acc else None
      end
  | EmptyString => if seen then Some acc else None
  end.

(** The integer that [strtol(s, &end, 10)] recognises at the head of [s]
    (blanks, an optional sign, digits), before any range check. *)
Definition parse_decimal (s : string) : option Z :=
  match skip_space s with
  | String "-" rest => option_map Z.opp (digits rest 0 false)
  | String "+" rest => digits rest 0 false
  | t => digits t 0 false
  end.

(** The two exceptions of the [std::sto*] family. *)
Inductive exception : Type :=
| invalid_argument
| out_of_range.

Definition sto_range (lo hi : Z) (s : string) : exception + Z :=
  match parse_decimal s with
  | None => inl invalid_argument
  | Some v => if (lo <=? v) && (v <=? hi) then inr v else inl out_of_range
  end.

Definition stoi : string -> exception + Z := sto_range INT_MIN INT_MAX.
Definition stoll : string -> exception + Z := sto_range LLONG_MIN LLONG_MAX.

(** ** Floating point, from the C++ library

    A [float] or [double] is handled through its IEEE 754 bit image.
    Parsing and printing are the library's: [show_float] and [show_double]
    are [std::to_string]; [put_float] and [put_double] are the insertion
    into a stream, [os << x], in fixed notation with one decimal when the
    flag is set ([std::fixed], [std::setprecision(1)]) and in the default
    notation otherwise. *)
Record FloatLib : Type := {
  stof : string -> exception + Z;
  stod : string -> exception + Z;
  show_float : Z -> string;
  show_double : Z -> string;
  put_float : bool -> Z -> string;
  put_double : bool -> Z -> string
}.

(** IEEE 754 ordering on bit images with [ebits] exponent bits and [mbits]
    fraction bits: a NaN compares false with everything, the two zeros are
    equal, otherwise sign and magnitude decide. *)
Definition fp_nan (ebits mbits x : Z) : bool :=
  ((x / 2 ^ mbits) mod 2 ^ ebits =? 2 ^ ebits - 1)
  && negb (x mod 2 ^ mbits =? 0).

Definition fp_key (ebits mbits x : Z) : Z :=
  let mag := x mod 2 ^ (ebits + mbits) in
  if Z.testbit x (ebits + mbits) then - mag else mag.

Definition fp_ltb (ebits mbits a b : Z) : bool :=
  negb (fp_nan ebits mbits a) && negb (fp_nan ebits mbits b)
  && (fp_key ebits mbits a <? fp_key ebits mbits b).

(** ** Data model *)

Inductive ValueType : Type :=
| BYTE | INT16 | INT32 | INT64 | FLOAT | DOUBLE | STRING | UNKNOWN.

(** [static_cast<int>(type)]. *)
Definition ordinal (t : ValueType) : Z :=
  match t with
  | BYTE => 0 | INT16 => 1 | INT32 => 2 | INT64 => 3
  | FLOAT => 4 | DOUBLE => 5 | STRING => 6 | UNKNOWN => 7
  end.

Record MemoryRegion : Type := {
  start : Z;
  size : Z;
  protection : Z;
  name : string;
  readable : bool;
  writable : bool;
  executable : bool
}.

Record ScanResult : Type := {
  address : Z;
  type : ValueType;
  value : list byte;
  description : string
}.

Record MemoryScanner : Type := {
  targetTask : Z;
  targetPid : Z;
  targetName : string;
  memoryRegions : list MemoryRegion;
  scanResults : list ScanResult;
  previousScanResults : list ScanResult;
  isAttached : bool
}.

(** The scanner as its constructor leaves it ([MACH_PORT_NULL] is 0). *)
Definition new_scanner : MemoryScanner :=
  {| targetTask := 0; targetPid := 0; targetName := EmptyString;
     memoryRegions := []; scanResults := []; previousScanResults := [];
     isAttached := false |}.

Definition set_scanResults (l : list ScanResult) (s : MemoryScanner) :=
  {| targetTask := targetTask s; targetPid := targetPid s;
     targetName := targetName s; memoryRegions := memoryRegions s;
     scanResults := l; previousScanResults := previousScanResults s;
     isAttached := isAttached s |}.

Definition set_previousScanResults (l : list ScanResult) (s : MemoryScanner) :=
  {| targetTask := targetTask s; targetPid := targetPid s;
     targetName := targetName s; memoryRegions := memoryRegions s;
     scanResults := scanResults s; previousScanResults := l;
     isAttached := isAttached s |}.

(** ** Value codec: the [switch (type)] that opens both scans

    The same switch stands at lines 265-317 ([firstScan]) and 512-564
    ([nextScan]).  It yields the width and the bytes of the search value,
    lets the exception of the parser escape, or reports an unsupported
    kind. *)
Inductive Encoded : Type :=
| EncOk (valueSize : nat) (targetValue : list byte)
| EncThrow (e : exception)
| EncUnsupported.

Definition encode_with (parse : string -> exception + Z) (n : nat)
    (s : string) : Encoded :=
  match parse s with
  | inl e => EncThrow e
  | inr v => EncOk n (le_bytes n v)
  end.

Definition encodeValue (lib : FloatLib) (t : ValueType) (s : string)
    : Encoded :=
  match t with
  | BYTE => encode_with stoi 1 s
  | INT16 => encode_with stoi 2 s
  | INT32 => encode_with stoi 4 s
  | INT64 => encode_with stoll 8 s
  | FLOAT => encode_with (stof lib) 4 s
  | DOUBLE => encode_with (stod lib) 8 s
  | STRING => EncOk (String.length s) (list_byte_of_string s)
  | UNKNOWN => EncUnsupported
  end.

(** The description [switch] (lines 446-473 and 684-711). *)
Definition describe (lib : FloatLib) (t : ValueType) (v : list byte)
    : option string :=
  match t with
  | BYTE => option_map show_dec (load v 0 1)
  | INT16 => option_map (fun u => show_dec (signed 16 u)) (load v 0 2)
  | INT32 => option_map (fun u => show_dec (signed 32 u)) (load v 0 4)
  | INT64 => option_map (fun u => show_dec (signed 64 u)) (load v 0 8)
  | FLOAT => option_map (show_float lib) (load v 0 4)
  | DOUBLE => option_map (show_double lib) (load v 0 8)
  | STRING => Some (dquote +++ string_of_list_byte v +++ dquote)
  | UNKNOWN => Some "Unknown"
  end.

(** ** Predicates

    [typed_compare gt t v off target] is the [switch (type)] under
    [comparison == "greater"] ([gt = true]: [val > target]) and under
    [comparison == "less"] ([gt = false]: [val < target]); [val] is read at
    [v.data() + off] and [target] at [targetValue.data()].  The [default]
    branch, taken by [STRING], reads nothing and leaves [found] false. *)
Definition ordered (gt : bool) (lt : Z -> Z -> bool) (val target : Z) : bool :=
  if gt then lt target val else lt val target.

Definition typed_compare (gt : bool) (t : ValueType) (v : list byte)
    (off : Z) (target : list byte) : option bool :=
  let cmp (n : nat) (view : Z -> Z) (lt : Z -> Z -> bool) :=
    match load v off n, load target 0 n with
    | Some a, Some b => Some (ordered gt lt (view a) (view b))
    | _, _ => None
    end in
  match t with
  | BYTE => cmp 1%nat (fun u => u) Z.ltb
  | INT16 => cmp 2%nat (signed 16) Z.ltb
  | INT32 => cmp 4%nat (signed 32) Z.ltb
  | INT64 => cmp 8%nat (signed 64) Z.ltb
  | FLOAT => cmp 4%nat (fun u => u) (fp_ltb 8 23)
  | DOUBLE => cmp 8%nat (fun u => u) (fp_ltb 11 52)
  | STRING | UNKNOWN => Some false
  end.

(** The value of [found] in the initial scan (lines 347-435). *)
Definition firstScan_found (t : ValueType) (comparison : string)
    (buffer : list byte) (offset : Z) (targetValue : list byte)
    (valueSize : nat) : option bool :=
  if String.eqb comparison "exact" then
    memcmp_eq buffer offset targetValue 0 valueSize
  else if String.eqb comparison "greater" then
    typed_compare true t buffer offset targetValue
  else if String.eqb comparison "less" then
    typed_compare false t buffer offset targetValue
  else Some false.

(** The value of [found] in the refine scan (lines 586-676). *)
Definition nextScan_found (t : ValueType) (comparison : string)
    (currentValue targetValue : list byte) (valueSize : nat)
    (prevResult : ScanResult) : option bool :=
  if String.eqb comparison "exact" then
    memcmp_eq currentValue 0 targetValue 0 valueSize
  else if String.eqb comparison "greater" then
    typed_compare true t currentValue 0 targetValue
  else if String.eqb comparison "less" then
    typed_compare false t currentValue 0 targetValue
  else if String.eqb comparison "changed" then
    option_map negb (memcmp_eq currentValue 0 (value prevResult) 0 valueSize)
  else if String.eqb comparison "unchanged" then
    memcmp_eq currentValue 0 (value prevResult) 0 valueSize
  else Some false.

(** ** The world around the scanner *)

(** What the program writes to [std::cout], one constructor per message. *)
Inductive Event : Type :=
| StartingFirstScan
| UnsupportedValueType
| ScanProgress (regionsScanned totalRegions : Z)
| TooManyResults
| ScanComplete (matches : Z)
| NoPreviousResults
| StartingNextScan (addresses : Z)
| FilterProgress (addressesChecked totalAddresses : Z)
| FilterComplete (matches : Z)
| NotAttached
| FailedInitialRead (addr : Z)
| Watching (addr : Z) (t : ValueType) (initial : string)
| ChangeDetected (updateCount : Z) (old new : string)
| FailedToReadValue
| NoResultsToSave
| FailedToOpenFile (filename : string)
| SavedResults (n : Z) (filename : string)
| AttachFailed
| Attached (pname : string) (pid : Z)
| FoundRegions (n : Z)
| Detached
| ScanUsage
| NextUsage
| ErrorNotAttachedUseAttach
| ErrorNotAttached
| ErrorUnknownType (typeStr : string)
| ErrorUnknownComparison (comparison : string)
| ErrorNoPreviousResults
| ErrorExecutingCommand (e : exception).

(** The scanner object, the reads issued to the target so far (address and
    length), the console, the pauses taken ([usleep], in microseconds) and
    the files written. *)
Record World : Type := {
  scanner : MemoryScanner;
  reads : list (Z * Z);
  console : list Event;
  sleeps : list Z;
  files : list (string * string)
}.

Definition with_scanner (s : MemoryScanner) (w : World) : World :=
  {| scanner := s; reads := reads w; console := console w;
     sleeps := sleeps w; files := files w |}.

Inductive Outcome (A : Type) : Type :=
| Returned (a : A) (w : World)
| Thrown (e : exception) (w : World)
| OutOfBounds
| OutOfFuel.
Arguments Returned {A} a w.
Arguments Thrown {A} e w.
Arguments OutOfBounds {A}.
Arguments OutOfFuel {A}.

(** Computations: state passing over [World], C++ exceptions, undefined
    behaviour and exhaustion of the loop budget. *)
Definition M (A : Type) : Type := World -> Outcome A.

Definition ret {A} (a : A) : M A := fun w => Returned a w.

Definition bind {A B} (m : M A) (k : A -> M B) : M B :=
  fun w =>
    match m w with
    | Returned a w' => k a w'
    | Thrown e w' => Thrown e w'
    | OutOfBounds => OutOfBounds
    | OutOfFuel => OutOfFuel
    end.

Notation "x <- m ;; k" := (bind m (fun x => k))
  (at level 61, m at next level, right associativity).
Notation "m ;;; k" := (bind m (fun _ => k))
  (at level 61, right associativity).

Definition throw {A} (e : exception) : M A := fun w => Thrown e w.
Definition out_of_fuel {A} : M A := fun _ => OutOfFuel.

(** A read through a pointer: undefined when out of bounds. *)
Definition defined {A} (o : option A) : M A :=
  fun w => match o with Some a => Returned a w | None => OutOfBounds end.

Definition this : M MemoryScanner := fun w => Returned (scanner w) w.

Definition update (f : MemoryScanner -> MemoryScanner) : M unit :=
  fun w => Returned tt (with_scanner (f (scanner w)) w).

Definition print (e : Event) : M unit :=
  fun w => Returned tt
    {| scanner := scanner w; reads := reads w; console := console w ++ [e];
       sleeps := sleeps w; files := files w |}.

Definition usleep (usec : Z) : M unit :=
  fun w => Returned tt
    {| scanner := scanner w; reads := reads w; console := console w;
       sleeps := sleeps w ++ [usec mod 2 ^ 32]; files := files w |}.

Definition write_file (filename content : string) : M unit :=
  fun w => Returned tt
    {| scanner := scanner w; reads := reads w; console := console w;
       sleeps := sleeps w; files := files w ++ [(filename, content)] |}.

(** The floating-point notation of [std::cout].  The progress lines of the
    two scans (lines 336 and 577) insert [std::fixed] and
    [std::setprecision(1)], which stay in force; nothing else in the
    program touches the notation, so it is the fixed one exactly when a
    progress line has been printed. *)
Definition sets_fixed (e : Event) : bool :=
  match e with
  | ScanProgress _ _ | FilterProgress _ _ => true
  | _ => false
  end.

Definition cout_fixed (w : World) : bool := existsb sets_fixed (console w).

Definition floatfield : M bool := fun w => Returned (cout_fixed w) w.

(** [n++] on an [int]: overflow is undefined behaviour. *)
Definition int_increment (n : Z) : option Z :=
  if n <? INT_MAX then Some (n + 1) else None.

Definition MAX_RESULTS : Z := 10000.

(** [std::vector<uint8_t>::max_size()] with libc++ on a 64-bit target: the
    constructor of a longer vector throws [std::length_error]. *)
Definition max_size : Z := 2 ^ 63 - 1.

Section Scanner.

(** The C++ library's floating point. *)
Variable lib : FloatLib.

(** The target process: [mach_vm_read_overwrite k addr n] is what the
    kernel copies out on the [k]-th read (counted from 0) when asked for
    [n] bytes at [addr], or [None] when it does not return [KERN_SUCCESS]. *)
Variable mach_vm_read_overwrite : nat -> Z -> Z -> option (list byte).

(** [readMemoryBlock]: the bytes read, or [None] for [false]
    ([kr != KERN_SUCCESS] or [data_size != size]). *)
Definition readMemoryBlock (addr : Z) (sz : Z) : M (option (list byte)) :=
  fun w =>
    let w' := {| scanner := scanner w; reads := reads w ++ [(addr, sz)];
                 console := console w; sleeps := sleeps w;
                 files := files w |} in
    match mach_vm_read_overwrite (List.length (reads w)) addr sz with
    | Some data =>
        if Z.of_nat (List.length data) =? sz
        then Returned (Some data) w'
        else Returned None w'
    | None => Returned None w'
    end.

(** *** Initial scan *)

(** [scanResults.push_back(result)]. *)
Definition push_back (r : ScanResult) : M unit :=
  update (fun s => set_scanResults (scanResults s ++ [r]) s).

(** The offset loop of one region (lines 346-485), entered at [offset]
    with [totalHits] matches so far; it returns the new [totalHits]. *)
Fixpoint scan_offsets (fuel : nat) (t : ValueType) (comparison : string)
    (targetValue : list byte) (valueSize : nat) (region : MemoryRegion)
    (buffer : list byte) (offset totalHits : Z) : M Z :=
  match fuel with
  | O => out_of_fuel
  | S fuel' =>
      if offset <=? wrap64 (Z.of_nat (List.length buffer) - Z.of_nat valueSize)
      then
        found <- defined (firstScan_found t comparison buffer offset
                            targetValue valueSize) ;;
        if (found : bool) then
          v <- defined (deref buffer offset valueSize) ;;
          d <- defined (describe lib t v) ;;
          push_back {| address := wrap64 (start region + offset);
                       type := t; value := v; description := d |} ;;;
          let totalHits' := wrap64 (totalHits + 1) in
          if totalHits' >=? MAX_RESULTS then
            print TooManyResults ;;; ret totalHits'
          else
            scan_offsets fuel' t comparison targetValue valueSize region
              buffer (wrap64 (offset + 1)) totalHits'
        else
          scan_offsets fuel' t comparison targetValue valueSize region
            buffer (wrap64 (offset + 1)) totalHits
      else ret totalHits
  end.

(** The region loop (lines 324-490) over the regions not visited yet.  The
    buffer of line 340 is taken to be built: that is so for a region of at
    most [max_size] bytes. *)
Fixpoint scan_regions (fuel : nat) (t : ValueType) (comparison : string)
    (targetValue : list byte) (valueSize : nat) (totalRegions : Z)
    (regions : list MemoryRegion) (regionsScanned totalHits : Z) : M Z :=
  match regions with
  | [] => ret totalHits
  | region :: rest =>
      let regionsScanned' := wrap64 (regionsScanned + 1) in
      let continue :=
        scan_regions fuel t comparison targetValue valueSize totalRegions
          rest regionsScanned' in
      if negb (readable region) then continue totalHits
      else
        (if regionsScanned' mod 100 =? 0
         then print (ScanProgress regionsScanned' totalRegions)
         else ret tt) ;;;
        r <- readMemoryBlock (start region) (size region) ;;
        match r with
        | None => continue totalHits
        | Some buffer =>
            totalHits' <- scan_offsets fuel t comparison targetValue
                            valueSize region buffer 0 totalHits ;;
            if totalHits' >=? MAX_RESULTS then ret totalHits'
            else continue totalHits'
        end
  end.

Definition vector_size {A} (l : list A) : Z := Z.of_nat (List.length l).

(** [MemoryScanner::firstScan]; [fuel] bounds the iterations of each
    offset loop. *)
Definition firstScan (fuel : nat) (t : ValueType) (val comparison : string)
    : M unit :=
  update (set_scanResults []) ;;;
  update (set_previousScanResults []) ;;;
  print StartingFirstScan ;;;
  match encodeValue lib t val with
  | EncThrow e => throw e
  | EncUnsupported => print UnsupportedValueType
  | EncOk valueSize targetValue =>
      s <- this ;;
      scan_regions fuel t comparison targetValue valueSize
        (vector_size (memoryRegions s)) (memoryRegions s) 0 0 ;;;
      s' <- this ;;
      print (ScanComplete (vector_size (scanResults s')))
  end.

(** *** Refine scan *)

(** The loop over [previousScanResults] (lines 570-716). *)
Fixpoint filter_previous (t : ValueType) (comparison : string)
    (targetValue : list byte) (valueSize : nat) (totalAddresses : Z)
    (previous : list ScanResult) (addressesChecked : Z) : M unit :=
  match previous with
  | [] => ret tt
  | prevResult :: rest =>
      let addressesChecked' := wrap64 (addressesChecked + 1) in
      let continue :=
        filter_previous t comparison targetValue valueSize totalAddresses
          rest addressesChecked' in
      (if addressesChecked' mod 1000 =? 0
       then print (FilterProgress addressesChecked' totalAddresses)
       else ret tt) ;;;
      r <- readMemoryBlock (address prevResult) (Z.of_nat valueSize) ;;
      match r with
      | None => continue
      | Some currentValue =>
          found <- defined (nextScan_found t comparison currentValue
                              targetValue valueSize prevResult) ;;
          if (found : bool) then
            d <- defined (describe lib t currentValue) ;;
            push_back {| address := address prevResult;
                         type := type prevResult;
                         value := currentValue; description := d |} ;;;
            continue
          else continue
      end
  end.

(** [MemoryScanner::nextScan]. *)
Definition nextScan (t : ValueType) (val comparison : string) : M unit :=
  s <- this ;;
  match scanResults s with
  | [] => print NoPreviousResults
  | _ :: _ =>
      update (fun s => set_previousScanResults (scanResults s) s) ;;;
      update (set_scanResults []) ;;;
      s1 <- this ;;
      print (StartingNextScan (vector_size (previousScanResults s1))) ;;;
      match encodeValue lib t val with
      | EncThrow e => throw e
      | EncUnsupported => print UnsupportedValueType
      | EncOk valueSize targetValue =>
          filter_previous t comparison targetValue valueSize
            (vector_size (previousScanResults s1))
            (previousScanResults s1) 0 ;;;
          s' <- this ;;
          print (FilterComplete (vector_size (scanResults s')))
      end
  end.

(** *** Watch loop *)

(** The bytes of the C string at [v.data()]: those before the first NUL.
    Without a NUL inside [v] the read runs past the vector. *)
Fixpoint c_str (v : list byte) : option (list byte) :=
  match v with
  | [] => None
  | b :: rest =>
      if Byte.eqb b x00 then Some []
      else option_map (cons b) (c_str rest)
  end.

(** [printValue(data, type)]: the text it sends to [std::cout], whose
    floating-point notation is the fixed one when [fixed] is set. *)
Definition printValue (fixed : bool) (t : ValueType) (data : list byte)
    : option string :=
  match t with
  | BYTE => option_map show_dec (load data 0 1)
  | INT16 => option_map (fun u => show_dec (signed 16 u)) (load data 0 2)
  | INT32 => option_map (fun u => show_dec (signed 32 u)) (load data 0 4)
  | INT64 => option_map (fun u => show_dec (signed 64 u)) (load data 0 8)
  | FLOAT => option_map (put_float lib fixed) (load data 0 4)
  | DOUBLE => option_map (put_double lib fixed) (load data 0 8)
  | STRING =>
      option_map (fun b => dquote +++ string_of_list_byte b +++ dquote)
        (c_str data)
  | UNKNOWN => Some "Unknown"
  end.

Definition watch_width (t : ValueType) : nat :=
  match t with
  | BYTE => 1 | INT16 => 2 | INT32 => 4 | INT64 => 8
  | FLOAT => 4 | DOUBLE => 8 | STRING => 32 | UNKNOWN => 4
  end.

(** The [while (true)] of [watchAddress] (lines 801-824); it is left only
    through the [break] on a failed read.  [updateCount] is an [int]. *)
Fixpoint watch_loop (fuel : nat) (addr : Z) (t : ValueType)
    (valueSize : nat) (updateInterval : Z) (lastValue : list byte)
    (updateCount : Z) : M unit :=
  match fuel with
  | O => out_of_fuel
  | S fuel' =>
      r <- readMemoryBlock addr (Z.of_nat valueSize) ;;
      match r with
      | None => print FailedToReadValue
      | Some currentValue =>
          same <- defined (memcmp_eq lastValue 0 currentValue 0 valueSize) ;;
          if negb same then
            updateCount' <- defined (int_increment updateCount) ;;
            fixed <- floatfield ;;
            old <- defined (printValue fixed t lastValue) ;;
            new <- defined (printValue fixed t currentValue) ;;
            print (ChangeDetected updateCount' old new) ;;;
            usleep (wrap64 (updateInterval * 1000)) ;;;
            watch_loop fuel' addr t valueSize updateInterval currentValue
              updateCount'
          else
            usleep (wrap64 (updateInterval * 1000)) ;;;
            watch_loop fuel' addr t valueSize updateInterval lastValue
              updateCount
      end
  end.

(** [MemoryScanner::watchAddress]; [fuel] bounds the number of polls. *)
Definition watchAddress (fuel : nat) (addr : Z) (t : ValueType)
    (updateInterval : Z) : M unit :=
  s <- this ;;
  if negb (isAttached s) then print NotAttached
  else
    let valueSize := watch_width t in
    r <- readMemoryBlock addr (Z.of_nat valueSize) ;;
    match r with
    | None => print (FailedInitialRead addr)
    | Some lastValue =>
        fixed <- floatfield ;;
        initial <- defined (printValue fixed t lastValue) ;;
        print (Watching addr t initial) ;;;
        watch_loop fuel addr t valueSize updateInterval lastValue 0
    end.

End Scanner.

(** ** Persistence *)

(** The [std::ofstream]: the text written and the sticky base flag. *)
Record ofstream : Type := {
  text : string;
  hexmode : bool
}.

Definition put (s : string) (f : ofstream) : ofstream :=
  {| text := text f +++ s; hexmode := hexmode f |}.

(** [file << n] for an integer, in the base the stream is in. *)
Definition put_int (n : Z) (f : ofstream) : ofstream :=
  put (if hexmode f then show_hex n else show_dec n) f.

Definition set_base (hex : bool) (f : ofstream) : ofstream :=
  {| text := text f; hexmode := hex |}.

(** [file << std::hex << std::setw(2) << std::setfill('0') << int(b)]. *)
Definition put_byte (b : byte) (f : ofstream) : ofstream :=
  let d := show_hex (Z_of_byte b) in
  put (if (String.length d <? 2)%nat then "0" +++ d else d)
    (set_base true f).

(** One turn of the loop of [saveResults] (lines 886-900). *)
Definition save_one (i : Z) (result : ScanResult) (f : ofstream) : ofstream :=
  let f := put_int i f in
  let f := put "," f in
  let f := put "0x" f in
  let f := put_int (address result) (set_base true f) in
  let f := put "," (set_base false f) in
  let f := put_int (ordinal (type result)) f in
  let f := put "," f in
  let f := fold_left (fun f b => put_byte b f) (value result) f in
  let f := put "," f in
  let f := put (description result) f in
  put newline f.

Fixpoint save_loop (i : Z) (results : list ScanResult) (f : ofstream)
    : ofstream :=
  match results with
  | [] => f
  | result :: rest => save_loop (wrap64 (i + 1)) rest (save_one i result f)
  end.

(** What [saveResults] writes before the loop (lines 880-884). *)
Definition save_header (s : MemoryScanner) (now : Z) (f : ofstream)
    : ofstream :=
  let f := put newline (put "# MacMemory Scan Results" f) in
  let f := put "# Process: " f in
  let f := put (targetName s) f in
  let f := put " (PID: " f in
  let f := put_int (targetPid s) f in
  let f := put newline (put ")" f) in
  let f := put "# Timestamp: " f in
  let f := put newline (put_int now f) in
  let f := put "# Results: " f in
  let f := put newline (put_int (vector_size (scanResults s)) f) in
  put newline (put "# Format: ID,Address,Type,Value,Description" f).

(** [MemoryScanner::saveResults]; [opens] tells whether the file could be
    opened and [now] is [std::time(nullptr)]. *)
Definition saveResults (opens : bool) (now : Z) (filename : string)
    : M unit :=
  s <- this ;;
  match scanResults s with
  | [] => print NoResultsToSave
  | _ :: _ =>
      if negb opens then print (FailedToOpenFile filename)
      else
        let f := {| text := EmptyString; hexmode := false |} in
        let f := save_loop 0 (scanResults s) (save_header s now f) in
        write_file filename (text f) ;;;
        print (SavedResults (vector_size (scanResults s)) filename)
  end.

(** ** Attachment *)

(** [refreshMemoryRegions]; [found] is what [mach_vm_region] enumerates. *)
Definition refreshMemoryRegions (found : list MemoryRegion) : M unit :=
  update (fun s =>
    {| targetTask := targetTask s; targetPid := targetPid s;
       targetName := targetName s; memoryRegions := found;
       scanResults := scanResults s;
       previousScanResults := previousScanResults s;
       isAttached := isAttached s |}) ;;;
  print (FoundRegions (vector_size found)).

(** [attachProcess]; [task] is the port [task_for_pid] returns (if any),
    [pname] the answer of [proc_name]. *)
Definition attachProcess (pid : Z) (task : option Z) (pname : option string)
    (found : list MemoryRegion) : M bool :=
  match task with
  | None => print AttachFailed ;;; ret false
  | Some port =>
      let nm := match pname with Some n => n | None => "Unknown" end in
      update (fun _ =>
        {| targetTask := port; targetPid := pid; targetName := nm;
           memoryRegions := []; scanResults := [];
           previousScanResults := []; isAttached := true |}) ;;;
      print (Attached nm pid) ;;;
      refreshMemoryRegions found ;;;
      ret true
  end.

Definition detachProcess : M unit :=
  s <- this ;;
  if isAttached s then
    update (fun _ => new_scanner) ;;;
    print Detached
  else ret tt.

(** ** The shell commands that start the scans *)

Definition parse_type (typeStr : string) : ValueType :=
  if String.eqb typeStr "byte" then BYTE
  else if String.eqb typeStr "short" then INT16
  else if String.eqb typeStr "int" then INT32
  else if String.eqb typeStr "long" then INT64
  else if String.eqb typeStr "float" then FLOAT
  else if String.eqb typeStr "double" then DOUBLE
  else if String.eqb typeStr "string" then STRING
  else UNKNOWN.

Definition one_of (names : list string) (s : string) : bool :=
  existsb (String.eqb s) names.

Section Shell.

Variable lib : FloatLib.
Variable mach_vm_read_overwrite : nat -> Z -> Z -> option (list byte).

(** [CLI::scanMemory] (lines 1121-1165). *)
Definition scanMemory (fuel : nat) (args : list string) : M unit :=
  match args with
  | a0 :: a1 :: more =>
      s <- this ;;
      if negb (isAttached s) then print ErrorNotAttachedUseAttach
      else
        let typeStr := lowercase a0 in
        match parse_type typeStr with
        | UNKNOWN => print (ErrorUnknownType typeStr)
        | t =>
            let comparison :=
              match more with
              | a2 :: _ => lowercase a2
              | [] => "exact"
              end in
            if negb (one_of ["exact"; "greater"; "less"] comparison)
            then print (ErrorUnknownComparison comparison)
            else firstScan lib mach_vm_read_overwrite fuel t a1 comparison
        end
  | _ => print ScanUsage
  end.

(** [CLI::nextScan] (lines 1167-1217). *)
Definition cli_nextScan (args : list string) : M unit :=
  match args with
  | a0 :: a1 :: more =>
      s <- this ;;
      if negb (isAttached s) then print ErrorNotAttached
      else if vector_size (scanResults s) =? 0
      then print ErrorNoPreviousResults
      else
        let typeStr := lowercase a0 in
        match parse_type typeStr with
        | UNKNOWN => print (ErrorUnknownType typeStr)
        | t =>
            let comparison :=
              match more with
              | a2 :: _ => lowercase a2
              | [] => "exact"
              end in
            if negb (one_of ["exact"; "greater"; "less"; "changed";
                             "unchanged"] comparison)
            then print (ErrorUnknownComparison comparison)
            else nextScan lib mach_vm_read_overwrite t a1 comparison
        end
  | _ => print NextUsage
  end.

(** The [try]/[catch] around a command in [CLI::run] (lines 1014-1018). *)
Definition run_command (command : M unit) : M unit :=
  fun w =>
    match command w with
    | Thrown e w' => print (ErrorExecutingCommand e) w'
    | other => other
    end.

End Shell.

(** ** Reasoning about computations *)

(** The world a computation ends in, when it ends in one: after a normal
    return, or after an exception (which [CLI::run] catches, so the shell
    goes on with that world). *)
Definition final_world {A} (o : Outcome A) : option World :=
  match o with
  | Returned _ w => Some w
  | Thrown _ w => Some w
  | OutOfBounds | OutOfFuel => None
  end.

(** [ensures m w Q]: when [m], started in [w], returns, [Q] holds of the
    result and the new world; and [m] lets no exception escape. *)
Definition ensures {A} (m : M A) (w : World) (Q : A -> World -> Prop)
    : Prop :=
  match m w with
  | Returned a w' => Q a w'
  | Thrown _ _ => False
  | OutOfBounds | OutOfFuel => True
  end.

(** Everything of the scanner but its two result sets. *)
Definition attachment (s : MemoryScanner)
    : Z * Z * string * list MemoryRegion * bool :=
  (targetTask s, targetPid s, targetName s, memoryRegions s, isAttached s).

(** ** Sessions

    The public operations of the scanner, with the answers the operating
    system gives them, the two scan commands as the shell runs them, and
    the worlds a session can be in. *)
Inductive Call : Type :=
| CallAttach (pid : Z) (task : option Z) (pname : option string)
    (found : list MemoryRegion)
| CallDetach
| CallFirstScan (fuel : nat) (t : ValueType) (val comparison : string)
| CallNextScan (t : ValueType) (val comparison : string)
| CallWatch (fuel : nat) (addr : Z) (t : ValueType) (updateInterval : Z)
| CallSave (opens : bool) (now : Z) (filename : string)
| CallScanCommand (fuel : nat) (args : list string)
| CallNextCommand (args : list string).

Definition exec (lib : FloatLib)
    (mach_vm_read_overwrite : nat -> Z -> Z -> option (list byte))
    (c : Call) : M unit :=
  match c with
  | CallAttach pid task pname found =>
      attachProcess pid task pname found ;;; ret tt
  | CallDetach => detachProcess
  | CallFirstScan fuel t val comparison =>
      firstScan lib mach_vm_read_overwrite fuel t val comparison
  | CallNextScan t val comparison =>
      nextScan lib mach_vm_read_overwrite t val comparison
  | CallWatch fuel addr t updateInterval =>
      watchAddress lib mach_vm_read_overwrite fuel addr t updateInterval
  | CallSave opens now filename => saveResults opens now filename
  | CallScanCommand fuel args =>
      run_command (scanMemory lib mach_vm_read_overwrite fuel args)
  | CallNextCommand args =>
      run_command (cli_nextScan lib mach_vm_read_overwrite args)
  end.

Inductive reachable (lib : FloatLib)
    (mach_vm_read_overwrite : nat -> Z -> Z -> option (list byte))
    : World -> Prop :=
| reachable_new : forall w,
    scanner w = new_scanner -> reachable lib mach_vm_read_overwrite w
| reachable_call : forall w c w',
    reachable lib mach_vm_read_overwrite w ->
    final_world (exec lib mach_vm_read_overwrite c w) = Some w' ->
    reachable lib mach_vm_read_overwrite w'.

(** ** The save file, as a layout

    The text of the file described line by line, to be compared with what
    the stream operations of [saveResults] produce. *)
Definition header_lines (s : MemoryScanner) (now : Z) : list string :=
  [ "# MacMemory Scan Results";
    "# Process: " +++ targetName s +++ " (PID: " +++ show_dec (targetPid s)
      +++ ")";
    "# Timestamp: " +++ show_dec now;
    "# Results: " +++ show_dec (vector_size (scanResults s));
    "# Format: ID,Address,Type,Value,Description" ].

Definition hex_byte (b : byte) : string :=
  let d := show_hex (Z_of_byte b) in
  if (String.length d <? 2)%nat then "0" +++ d else d.

Fixpoint hex_bytes (v : list byte) : string :=
  match v with
  | [] => EmptyString
  | b :: rest => hex_byte b +++ hex_bytes rest
  end.

(** The record of one match: [id,0xADDRESS,kindOrdinal,hexbytes,description]
    and a newline; [hex_id] tells whether the id is in base sixteen. *)
Definition record_line (hex_id : bool) (i : Z) (r : ScanResult) : string :=
  (if hex_id then show_hex i else show_dec i) +++ "," +++ "0x"
  +++ show_hex (address r) +++ "," +++ show_dec (ordinal (type r)) +++ ","
  +++ hex_bytes (value r) +++ "," +++ description r +++ newline.

Definition has_bytes (r : ScanResult) : bool :=
  match value r with [] => false | _ :: _ => true end.

(** The records of the matches from index [i] on.  The id of a record is
    in base sixteen exactly when the record before it had bytes. *)
Fixpoint record_lines (hex_id : bool) (i : Z) (rs : list ScanResult)
    : string :=
  match rs with
  | [] => EmptyString
  | r :: rest =>
      record_line hex_id i r
      +++ record_lines (has_bytes r) (wrap64 (i + 1)) rest
  end.

Fixpoint unlines (ls : list string) : string :=
  match ls with
  | [] => EmptyString
  | l :: rest => l +++ newline +++ unlines rest
  end.

Definition save_file_layout (s : MemoryScanner) (now : Z) : string :=
  unlines (header_lines s now) +++ record_lines false 0 (scanResults s).

Definition starts_with_hash (l : string) : bool :=
  match l with
  | String c _ => Ascii.eqb c "#"
  | EmptyString => false
  end.

(** The lines of a text, each without its newline. *)
Fixpoint lines_from (current : string) (s : string) : list string :=
  match s with
  | EmptyString =>
      match current with
      | EmptyString => []
      | _ => [current]
      end
  | String c rest =>
      if Ascii.eqb c (ascii_of_nat 10)
      then current :: lines_from EmptyString rest
      else lines_from (current +++ String c EmptyString) rest
  end.

Definition lines (s : string) : list string := lines_from EmptyString s.

Fixpoint count_leading (p : string -> bool) (ls : list string) : nat :=
  match ls with
  | l :: rest => if p l then S (count_leading p rest) else O
  | [] => O
  end.

(** How many lines at the head of a file start with [#]. *)
Definition leading_hash_lines (content : string) : nat :=
  count_leading starts_with_hash (lines content).

(** ** Sample targets *)

(** A C++ library that parses no floating-point literal; it serves the
    examples, none of which uses a floating kind. *)
Definition no_float_lib : FloatLib :=
  {| stof := fun _ => inl invalid_argument;
     stod := fun _ => inl invalid_argument;
     show_float := fun _ => EmptyString;
     show_double := fun _ => EmptyString;
     put_float := fun _ _ => EmptyString;
     put_double := fun _ _ => EmptyString |}.

(** A target whose readable memory is one block at [base] that never
    changes. *)
Definition block (base : Z) (content : list byte)
    : nat -> Z -> Z -> option (list byte) :=
  fun _ addr n => deref content (addr - base) (Z.to_nat n).

Definition rw_region (base sz : Z) : MemoryRegion :=
  {| start := base; size := sz; protection := 3; name := "RW-";
     readable := true; writable := true; executable := false |}.

(** A session attached to process 42, before any scan. *)
Definition attached (regions : list MemoryRegion) : World :=
  {| scanner := {| targetTask := 1; targetPid := 42; targetName := "game";
                   memoryRegions := regions; scanResults := [];
                   previousScanResults := []; isAttached := true |};
     reads := []; console := []; sleeps := []; files := [] |}.

Definition with_results (rs : list ScanResult) (w : World) : World :=
  with_scanner (set_scanResults rs (scanner w)) w.

(** The world [w] with other result sets. *)
Definition with_generations (current previous : list ScanResult) (w : World)
    : World :=
  with_scanner
    (set_previousScanResults previous (set_scanResults current (scanner w)))
    w.

Definition byte_match (addr : Z) (b : byte) : ScanResult :=
  {| address := addr; type := BYTE; value := [b];
     description := show_dec (Z_of_byte b) |}.

(** The width a kind fixes; none for [STRING]. *)
Definition fits (t : ValueType) (n : nat) : Prop :=
  match t with
  | BYTE => n = 1%nat
  | INT16 => n = 2%nat
  | INT32 | FLOAT => n = 4%nat
  | INT64 | DOUBLE => n = 8%nat
  | STRING => True
  | UNKNOWN => False
  end.

(** ** Invariants of the scans *)

(** The world right after the entry of [firstScan] (lines 257-260): both
    result sets cleared, the start message printed, nothing read. *)
Definition firstScan_entry (w : World) : World :=
  {| scanner := set_previousScanResults [] (set_scanResults [] (scanner w));
     reads := reads w; console := console w ++ [StartingFirstScan];
     sleeps := sleeps w; files := files w |}.

(** The world of [nextScan] once it has handed the results over (lines
    503-506): the current set has become the previous one. *)
Definition nextScan_entry (w : World) : World :=
  {| scanner := set_scanResults []
                  (set_previousScanResults (scanResults (scanner w))
                     (scanner w));
     reads := reads w;
     console := console w
                ++ [StartingNextScan (vector_size (scanResults (scanner w)))];
     sleeps := sleeps w; files := files w |}.

(** A scan loop only appends to [scanResults]; when it starts with
    [hits] counting the results and below the ceiling, it ends with
    [hits'] counting them and at most at the ceiling. *)
Definition grows (hits : Z) (w : World) (hits' : Z) (w' : World) : Prop :=
  attachment (scanner w') = attachment (scanner w) /\
  previousScanResults (scanner w') = previousScanResults (scanner w) /\
  files w' = files w /\
  (exists new, scanResults (scanner w') = scanResults (scanner w) ++ new) /\
  (vector_size (scanResults (scanner w)) = hits -> hits < MAX_RESULTS ->
   vector_size (scanResults (scanner w')) = hits' /\ hits' <= MAX_RESULTS).

(** What the refine loop does to the world: it appends [new] to
    [scanResults], and the addresses of [new] are picked, in order, among
    those of the matches it went through. *)
Inductive picked : list ScanResult -> list ScanResult -> Prop :=
| picked_nil : picked [] []
| picked_skip : forall p previous new,
    picked previous new -> picked (p :: previous) new
| picked_keep : forall p r previous new,
    address r = address p -> type r = type p ->
    picked previous new -> picked (p :: previous) (r :: new).

Definition refined (previous : list ScanResult) (w w' : World) : Prop :=
  attachment (scanner w') = attachment (scanner w) /\
  previousScanResults (scanner w') = previousScanResults (scanner w) /\
  files w' = files w /\
  exists new, scanResults (scanner w') = scanResults (scanner w) ++ new /\
              picked previous new.

(** Both generations within the ceiling of 10,000 entries. *)
Definition within_ceiling (w : World) : Prop :=
  vector_size (scanResults (scanner w)) <= MAX_RESULTS /\
  vector_size (previousScanResults (scanner w)) <= MAX_RESULTS.

(** [returns m w]: started in [w], the computation [m] returns normally. *)
Definition returns {A} (m : M A) (w : World) : Prop :=
  exists a w', m w = Returned a w'.

(** A region the offset loop can walk with the budget [fuel] when the
    search value is [n] bytes wide. *)
Definition scannable (fuel n : nat) (r : MemoryRegion) : Prop :=
  Z.of_nat n <= size r < 2 ^ 64 - 1 /\
  size r - Z.of_nat n + 1 < Z.of_nat fuel.

(** A region whose buffer can be built (line 340): it is no longer than a
    vector can be. *)
Definition allocatable (r : MemoryRegion) : Prop := size r <= max_size.

(** A region the initial scan gets through when the search value is [n]
    bytes wide: it is skipped, or its buffer can be built and its offsets
    walked. *)
Definition walkable (fuel n : nat) (r : MemoryRegion) : Prop :=
  readable r = true -> scannable fuel n r /\ allocatable r.

(** A stored match that [changed] and [unchanged] can be compared with at
    width [n]: its bytes cover the width. *)
Definition comparable (comparison : string) (n : nat) (p : ScanResult)
    : Prop :=
  comparison = "changed" \/ comparison = "unchanged" ->
  (n <= List.length (value p))%nat.

(** What [readMemoryBlock] hands back when the kernel is asked, at its
    [k]-th read, for [sz] bytes at [addr]. *)
Definition read_result
    (mach_vm_read_overwrite : nat -> Z -> Z -> option (list byte))
    (k : nat) (addr sz : Z) : option (list byte) :=
  match mach_vm_read_overwrite k addr sz with
  | Some data => if Z.of_nat (List.length data) =? sz then Some data else None
  | None => None
  end.

(** The read request the initial scan issues for a region. *)
Definition region_read (r : MemoryRegion) : Z * Z := (start r, size r).

(** The read request the refine scan issues for a stored match. *)
Definition match_read (n : nat) (p : ScanResult) : Z * Z :=
  (address p, Z.of_nat n).

(** The range the integer parser of a kind accepts: that of [int] for the
    kinds parsed with [std::stoi], that of [long long] for [INT64]. *)
Definition parser_range (t : ValueType) : option (Z * Z) :=
  match t with
  | BYTE | INT16 | INT32 => Some (INT_MIN, INT_MAX)
  | INT64 => Some (LLONG_MIN, LLONG_MAX)
  | FLOAT | DOUBLE | STRING | UNKNOWN => None
  end.

(** ** Sample sessions *)

Definition fresh : World :=
  {| scanner := new_scanner; reads := []; console := []; sleeps := [];
     files := [] |}.

Definition world_after (o : Outcome unit) : World :=
  match final_world o with
  | Some w => w
  | None => fresh
  end.

(** Two 32-bit integers, 50 and 150, at addresses 4096 and 4100. *)
Definition two_ints : list byte := le_bytes 4 50 ++ le_bytes 4 150.

Definition two_ints_attached : World :=
  world_after
    (exec no_float_lib (block 4096 two_ints)
       (CallAttach 42 (Some 1) (Some "game") [rw_region 4096 8]) fresh).

(** After [scan int 0 greater], which finds both integers (and the two
    windows that overlap them). *)
Definition two_ints_scanned : World :=
  world_after
    (exec no_float_lib (block 4096 two_ints)
       (CallFirstScan 100 INT32 "0" "greater") two_ints_attached).

(** Sixteen bytes with [HELLO] at offset 8. *)
Definition hello_memory : list byte :=
  repeat x00 8 ++ list_byte_of_string "HELLO" ++ repeat x00 3.

(** A result set of [n] matches, all at the byte 7 of address 4096. *)
Definition many_matches (n : nat) : World :=
  with_results (repeat (byte_match 4096 x07) n)
    (attached [rw_region 4096 1]).

(** A session whose last refine pass kept nothing. *)
Definition refined_to_nothing : World :=
  with_scanner
    (set_previousScanResults [byte_match 4096 x07]
       (scanner (attached [rw_region 4096 1])))
    (attached [rw_region 4096 1]).

(** A target whose integer at any address reads 5 twice, then 6, and is
    unmapped afterwards. *)
Definition changing_target : nat -> Z -> Z -> option (list byte) :=
  fun k _ _ =>
    match k with
    | 0%nat | 1%nat => Some (le_bytes 4 5)
    | 2%nat => Some (le_bytes 4 6)
    | _ => None
    end.

Fixpoint replicate (n : nat) (c : ascii) : string :=
  match n with
  | O => EmptyString
  | S k => String c (replicate k c)
  end.

(** One page of zeros, and a search text one byte longer than a page. *)
Definition page : list byte := repeat x00 (Z.to_nat 4096).
Definition long_literal : string := replicate (Z.to_nat 4097) "A".

(** A session with one match, the byte 7 found at address 4096. *)
Definition one_match : World :=
  with_results [byte_match 4096 x07] (attached [rw_region 4096 1]).

(** ** Kinds as numbers *)

(** The numbers a kind can hold: [uint8_t] for [BYTE], the signed types
    for the other integer kinds. *)
Definition kind_range (t : ValueType) : option (Z * Z) :=
  match t with
  | BYTE => Some (0, 255)
  | INT16 => Some (- 2 ^ 15, 2 ^ 15 - 1)
  | INT32 => Some (INT_MIN, INT_MAX)
  | INT64 => Some (LLONG_MIN, LLONG_MAX)
  | FLOAT | DOUBLE | STRING | UNKNOWN => None
  end.

(** [sizeof] of the C++ type behind a numeric kind. *)
Definition kind_width (t : ValueType) : nat :=
  match t with
  | BYTE => 1
  | INT16 => 2
  | INT32 | FLOAT => 4
  | INT64 | DOUBLE => 8
  | STRING | UNKNOWN => 0
  end.

(** ** What a scan may report *)

(** [found_at ...] holds of a match that the initial scan can rightly
    report for [region]: its bytes are a window, at an offset the loop
    visits, of the copy the kernel returned for the region at some read,
    the predicate succeeds there, and address, kind and description are
    derived from that window. *)
Definition found_at (lib : FloatLib)
    (rd : nat -> Z -> Z -> option (list byte)) (t : ValueType)
    (comparison : string) (target : list byte) (n : nat)
    (region : MemoryRegion) (r : ScanResult) : Prop :=
  exists k buffer offset,
    readable region = true /\
    read_result rd k (start region) (size region) = Some buffer /\
    0 <= offset <= wrap64 (Z.of_nat (List.length buffer) - Z.of_nat n) /\
    firstScan_found t comparison buffer offset target n = Some true /\
    address r = wrap64 (start region + offset) /\
    type r = t /\
    deref buffer offset n = Some (value r) /\
    describe lib t (value r) = Some (description r).

Definition found_in (lib : FloatLib)
    (rd : nat -> Z -> Z -> option (list byte)) (t : ValueType)
    (comparison : string) (target : list byte) (n : nat)
    (regions : list MemoryRegion) (r : ScanResult) : Prop :=
  exists region,
    In region regions /\ found_at lib rd t comparison target n region r.

(** What the region loop has done when it returns [hits']: it has read
    the readable regions of a prefix [visited] of the catalog, each once
    and whole, in catalog order; the matches it appended are rightly
    reported; and it left regions unvisited only at the ceiling. *)
Definition scanned (lib : FloatLib)
    (rd : nat -> Z -> Z -> option (list byte)) (t : ValueType)
    (comparison : string) (target : list byte) (n : nat)
    (all regions : list MemoryRegion) (w : World) (hits' : Z) (w' : World)
    : Prop :=
  exists new visited rest,
    regions = visited ++ rest /\
    scanResults (scanner w') = scanResults (scanner w) ++ new /\
    Forall (found_in lib rd t comparison target n all) new /\
    reads w' = reads w ++ map region_read (filter readable visited) /\
    (hits' < MAX_RESULTS -> rest = []).

(** [refreshed ...] relates the matches a refine pass went through to
    those it kept, in order: a kept match has the address and the kind tag
    of the stored match it comes from, [n] bytes that the kernel returned
    for that address, on which the predicate succeeded, and the
    description of those bytes in the kind of the pass. *)
Inductive refreshed (lib : FloatLib)
    (rd : nat -> Z -> Z -> option (list byte)) (t : ValueType)
    (comparison : string) (target : list byte) (n : nat)
    : list ScanResult -> list ScanResult -> Prop :=
| refreshed_nil : refreshed lib rd t comparison target n [] []
| refreshed_drop : forall p previous new,
    refreshed lib rd t comparison target n previous new ->
    refreshed lib rd t comparison target n (p :: previous) new
| refreshed_keep : forall p r k previous new,
    address r = address p -> type r = type p ->
    read_result rd k (address p) (Z.of_nat n) = Some (value r) ->
    nextScan_found t comparison (value r) target n p = Some true ->
    describe lib t (value r) = Some (description r) ->
    refreshed lib rd t comparison target n previous new ->
    refreshed lib rd t comparison target n (p :: previous) (r :: new).

(** ** A target that does not change *)

(** [steady rd]: the target's memory is the same at every read, and the
    bytes of a range are the bytes of any range around it. *)
Definition steady (rd : nat -> Z -> Z -> option (list byte)) : Prop :=
  forall k k' a s buf off n,
    read_result rd k a s = Some buf ->
    0 <= off -> off + Z.of_nat n <= s ->
    read_result rd k' (a + off) (Z.of_nat n)
    = Some (firstn n (skipn (Z.to_nat off) buf)).

(** A region that lies within the 64-bit address space. *)
Definition addressable (r : MemoryRegion) : Prop :=
  0 <= start r /\ start r + size r < 2 ^ 64.

(** A stored match that still holds what the scan recorded, whenever it
    is read at width [n]. *)
Definition still_there (lib : FloatLib)
    (rd : nat -> Z -> Z -> option (list byte)) (t : ValueType) (n : nat)
    (p : ScanResult) : Prop :=
  (forall k, read_result rd k (address p) (Z.of_nat n) = Some (value p)) /\
  type p = t /\
  describe lib t (value p) = Some (description p).

(** After [scan string HELLO] over [hello_memory]. *)
Definition hello_scanned : World :=
  world_after
    (exec no_float_lib (block 4096 hello_memory)
       (CallFirstScan 100 STRING "HELLO" "exact")
       (attached [rw_region 4096 16])).

(** ** The watch loop, as a list of changes *)

(** [answers rd k addr sz polls]: from its [k]-th read on, the target
    answers the reads of [sz] bytes at [addr] with the byte sequences
    [polls], one after the other, and then fails. *)
Fixpoint answers (rd : nat -> Z -> Z -> option (list byte)) (k : nat)
    (addr sz : Z) (polls : list (list byte)) : Prop :=
  match polls with
  | [] => read_result rd k addr sz = None
  | p :: rest =>
      read_result rd k addr sz = Some p /\ answers rd (S k) addr sz rest
  end.

(** The text [printValue] prints, where it is defined. *)
Definition shown (lib : FloatLib) (fixed : bool) (t : ValueType)
    (v : list byte) : string :=
  match printValue lib fixed t v with
  | Some s => s
  | None => EmptyString
  end.

(** The changes among successive polls, numbered from [count + 1]: a poll
    is reported when it differs from the last value known, which it then
    replaces. *)
Fixpoint watch_events (lib : FloatLib) (fixed : bool) (t : ValueType)
    (last : list byte) (count : Z) (polls : list (list byte)) : list Event :=
  match polls with
  | [] => []
  | cur :: rest =>
      if bytes_eqb last cur then watch_events lib fixed t last count rest
      else ChangeDetected (count + 1) (shown lib fixed t last)
             (shown lib fixed t cur)
           :: watch_events lib fixed t cur (count + 1) rest
  end.

(** ** Reading the hexadecimal bytes back *)

Definition hex_digit_value (c : ascii) : option Z :=
  let n := Z.of_nat (nat_of_ascii c) in
  if (48 <=? n) && (n <=? 57) then Some (n - 48)
  else if (97 <=? n) && (n <=? 102) then Some (n - 87)
  else None.

(** The byte written as the two hexadecimal digits [h] and [l]. *)
Definition unhex_pair (h l : ascii) : option byte :=
  match hex_digit_value h, hex_digit_value l with
  | Some a, Some b => Some (byte_of_Z (16 * a + b))
  | _, _ => None
  end.

(** The bytes written as pairs of hexadecimal digits in [s]. *)
Fixpoint unhex_bytes (s : string) : option (list byte) :=
  match s with
  | EmptyString => Some []
  | String h (String l rest) =>
      match unhex_pair h l, unhex_bytes rest with
      | Some b, Some v => Some (b :: v)
      | _, _ => None
      end
  | String _ EmptyString => None
  end.

(** After [scan byte 7] over one byte: a result set of one-byte matches. *)
Definition byte_scanned : World := many_matches 1.

(** A text that does not go on with a decimal digit. *)
Definition stops_number (tail : string) : Prop :=
  match tail with
  | EmptyString => True
  | String c _ => digit_of c = None
  end.

(** The comparison a scan command runs with: its third argument in lower
    case, [exact] when there is none. *)
Definition comparison_of (more : list string) : string :=
  match more with
  | a2 :: _ => lowercase a2
  | [] => "exact"
  end.

(** A catalog whose regions follow one another without overlap. *)
Definition disjoint_ascending (regions : list MemoryRegion) : Prop :=
  StronglySorted (fun r1 r2 => start r1 + size r1 <= start r2) regions.

(** Addresses in strictly ascending order, none below [lo]. *)
Definition ascending_from (lo : Z) (addresses : list Z) : Prop :=
  StronglySorted Z.lt addresses /\ Forall (fun a => lo <= a) addresses.

(** ** The catalog, as [refreshMemoryRegions] builds it

    One answer of [mach_vm_region]: the address and the size it writes
    back, the protection, and whether [info.reserved] is set. *)
Record RegionInfo : Type := {
  region_address : Z;
  region_size : Z;
  info_protection : Z;
  info_reserved : bool
}.

(** The record built from one answer (lines 198-218); [VM_PROT_READ],
    [VM_PROT_WRITE] and [VM_PROT_EXECUTE] are the bits 1, 2 and 4. *)
Definition region_record (i : RegionInfo) : MemoryRegion :=
  let r := negb (Z.land (info_protection i) 1 =? 0) in
  let w := negb (Z.land (info_protection i) 2 =? 0) in
  let x := negb (Z.land (info_protection i) 4 =? 0) in
  {| start := region_address i;
     size := region_size i;
     protection := info_protection i;
     name := if info_reserved i then "Reserved"
             else if info_protection i =? 0 then "No access"
             else (if r then "R" else "-") +++ (if w then "W" else "-")
                  +++ (if x then "X" else "-");
     readable := r; writable := w; executable := x |}.

(** The [while (true)] loop of [refreshMemoryRegions] (lines 188-221):
    [mach_vm_region calls address] is the answer to the call number
    [calls], asked at [address]; a failure ends the loop, and after a
    success the next call asks at [address + size], in 64 bits. *)
Fixpoint region_loop (mach_vm_region : nat -> Z -> option RegionInfo)
    (fuel calls : nat) (address : Z) : option (list MemoryRegion) :=
  match fuel with
  | O => None
  | S fuel' =>
      match mach_vm_region calls address with
      | None => Some []
      | Some i =>
          option_map (cons (region_record i))
            (region_loop mach_vm_region fuel' (S calls)
               (wrap64 (region_address i + region_size i)))
      end
  end.

(** What the kernel promises of [mach_vm_region]: the region it answers
    with is the first one at or after the address asked, and it ends
    inside the 64-bit address space. *)
Definition first_at_or_after (mach_vm_region : nat -> Z -> option RegionInfo)
    : Prop :=
  forall calls address i,
    mach_vm_region calls address = Some i ->
    address <= region_address i /\ 0 <= region_size i /\
    region_address i + region_size i < 2 ^ 64.

(** A target with one region of eight bytes at 4096, readable and
    writable. *)
Definition one_region_map : nat -> Z -> option RegionInfo :=
  fun _ address =>
    if address <=? 4096
    then Some {| region_address := 4096; region_size := 8;
                 info_protection := 3; info_reserved := false |}
    else None.

(** ** The command line

    [iss >> token] (line 1004): blanks are skipped, then the characters up
    to the next blank are the token; [read_token] gives the token and what
    is left of the stream. *)
Fixpoint read_token (s : string) : string * string :=
  match s with
  | EmptyString => (EmptyString, EmptyString)
  | String c rest =>
      if isspace c then (EmptyString, s)
      else let (token, after) := read_token rest in (String c token, after)
  end.

(** [while (iss >> token) args.push_back(token)] (lines 1001-1006); the
    extraction fails, and the loop ends, when only blanks are left. *)
Fixpoint extract_tokens (fuel : nat) (iss : string) : list string :=
  match fuel with
  | O => []
  | S fuel' =>
      match skip_space iss with
      | EmptyString => []
      | String c rest =>
          let (token, after) := read_token (String c rest) in
          token :: extract_tokens fuel' after
      end
  end.

Definition tokenize (input : string) : list string :=
  extract_tokens (S (String.length input)) input.

(** The command and its arguments (lines 1008-1010); there is none on a
    line without a token. *)
Definition command_line (input : string) : option (string * list string) :=
  match tokenize input with
  | [] => None
  | cmd :: args => Some (cmd, args)
  end.

(** The entries of the command table (lines 955-972) that reach the result
    sets without asking the operating system: [scan], [next] and
    [detach]. *)
Definition shell_call (fuel : nat) (input : string) : option Call :=
  match command_line input with
  | Some (cmd, args) =>
      if String.eqb cmd "scan" then Some (CallScanCommand fuel args)
      else if String.eqb cmd "next" then Some (CallNextCommand args)
      else if String.eqb cmd "detach" then Some CallDetach
      else None
  | None => None
  end.

Fixpoint all_chars (p : ascii -> bool) (s : string) : bool :=
  match s with
  | EmptyString => true
  | String c rest => p c && all_chars p rest
  end.

Fixpoint keep_chars (p : ascii -> bool) (s : string) : string :=
  match s with
  | EmptyString => EmptyString
  | String c rest =>
      if p c then String c (keep_chars p rest) else keep_chars p rest
  end.

Definition blank (s : string) : bool := all_chars isspace s.

(** A token: at least one character, none of them a blank. *)
Definition is_token (s : string) : Prop :=
  s <> EmptyString /\ all_chars (fun c => negb (isspace c)) s = true.

(** A line written as tokens, each with the blanks that follow it: every
    token but the last is followed by at least one blank. *)
Fixpoint spaced (parts : list (string * string)) : Prop :=
  match parts with
  | [] => True
  | (token, blanks) :: rest =>
      is_token token /\ blank blanks = true /\
      (rest <> [] -> blanks <> EmptyString) /\ spaced rest
  end.

Fixpoint typed (parts : list (string * string)) : string :=
  match parts with
  | [] => EmptyString
  | (token, blanks) :: rest => token +++ blanks +++ typed rest
  end.

(** ** Shell sessions

    The worlds the shell can be in when every catalog comes from
    [refreshMemoryRegions] under the kernel's promise, and the scans are
    started from typed lines. *)
Inductive shell_session (lib : FloatLib)
    (mach_vm_read_overwrite : nat -> Z -> Z -> option (list byte))
    : World -> Prop :=
| session_start : forall w,
    scanner w = new_scanner -> shell_session lib mach_vm_read_overwrite w
| session_attach : forall w mach_vm_region fuel pid task pname found w',
    shell_session lib mach_vm_read_overwrite w ->
    first_at_or_after mach_vm_region ->
    region_loop mach_vm_region fuel 0 0 = Some found ->
    final_world (exec lib mach_vm_read_overwrite
                   (CallAttach pid task pname found) w) = Some w' ->
    shell_session lib mach_vm_read_overwrite w'
| session_line : forall w fuel input c w',
    shell_session lib mach_vm_read_overwrite w ->
    shell_call fuel input = Some c ->
    final_world (exec lib mach_vm_read_overwrite c w) = Some w' ->
    shell_session lib mach_vm_read_overwrite w'
| session_save : forall w opens now filename w',
    shell_session lib mach_vm_read_overwrite w ->
    final_world (exec lib mach_vm_read_overwrite
                   (CallSave opens now filename) w) = Some w' ->
    shell_session lib mach_vm_read_overwrite w'.

(** The catalog lies in the address space in ascending order, and both
    generations of results are in strictly ascending address order. *)
Definition in_address_order (w : World) : Prop :=
  Forall addressable (memoryRegions (scanner w)) /\
  disjoint_ascending (memoryRegions (scanner w)) /\
  StronglySorted Z.lt (map address (scanResults (scanner w))) /\
  StronglySorted Z.lt (map address (previousScanResults (scanner w))).

(** What a stream begins with: a blank (or nothing), a character of a
    token (or nothing). *)
Definition starts_blank (s : string) : Prop :=
  match s with
  | EmptyString => True
  | String c _ => isspace c = true
  end.

Definition starts_token (s : string) : Prop :=
  match s with
  | EmptyString => True
  | String c _ => isspace c = false
  end.

(** ** Showing the results

    What [displayResults] writes, line by line; a row carries its text. *)
Inductive DisplayLine : Type :=
| NoResultsToDisplay
| ResultsHeading (total : Z)
| Rule
| ColumnTitles
| Row (text : string)
| MoreResults (n : Z)
| InvalidLimit.

Definition valueTypeNames (t : ValueType) : string :=
  match t with
  | BYTE => "Byte (1 byte)"
  | INT16 => "Short (2 bytes)"
  | INT32 => "Int (4 bytes)"
  | INT64 => "Long (8 bytes)"
  | FLOAT => "Float (4 bytes)"
  | DOUBLE => "Double (8 bytes)"
  | STRING => "String"
  | UNKNOWN => "Unknown"
  end.

(** [std::left << std::setw(width) << s], and [std::setw(width) <<
    std::setfill(fill) << s] with the default adjustment to the right. *)
Definition pad_right (width : nat) (s : string) : string :=
  s +++ replicate (width - String.length s) " ".

Definition pad_left (width : nat) (fill : ascii) (s : string) : string :=
  replicate (width - String.length s) fill +++ s.

(** One row of the table (lines 739-746). *)
Definition display_row (i : Z) (result : ScanResult) : string :=
  pad_right 5 (show_dec i)
  +++ pad_right 18 ("0x" +++ pad_left 16 "0" (show_hex (address result)))
  +++ pad_right 12 (valueTypeNames (type result))
  +++ description result.

(** The loop of [displayResults] (lines 736-748) over the results from
    index [i] on. *)
Fixpoint display_rows (results : list ScanResult) (i count limit : Z)
    : list DisplayLine :=
  match results with
  | [] => []
  | result :: rest =>
      if count <? limit
      then Row (display_row i result)
           :: display_rows rest (wrap64 (i + 1)) (wrap64 (count + 1)) limit
      else []
  end.

(** [MemoryScanner::displayResults]; [limit] is a [size_t]. *)
Definition displayResults (limit : Z) (s : MemoryScanner)
    : list DisplayLine :=
  match scanResults s with
  | [] => [NoResultsToDisplay]
  | _ :: _ =>
      [ResultsHeading (vector_size (scanResults s)); Rule; ColumnTitles;
       Rule]
      ++ display_rows (scanResults s) 0 0 limit
      ++ (if vector_size (scanResults s) >? limit
          then [MoreResults (wrap64 (vector_size (scanResults s) - limit))]
          else [])
      ++ [Rule]
  end.

(** [CLI::showResults] (lines 1219-1231): the [int] that [std::stoi]
    returns is converted to [size_t]. *)
Definition showResults (args : list string) (s : MemoryScanner)
    : list DisplayLine :=
  match args with
  | [] => displayResults 20 s
  | a0 :: _ =>
      match stoi a0 with
      | inl _ => [InvalidLimit]
      | inr v => displayResults (wrap64 v) s
      end
  end.

(** The rows of [results], numbered from [i]. *)
Fixpoint numbered (i : Z) (results : list ScanResult) : list DisplayLine :=
  match results with
  | [] => []
  | result :: rest => Row (display_row i result) :: numbered (i + 1) rest
  end.

(** The number of rows a limit typed as [v] lets through, of [total]. *)
Definition rows_shown (v total : Z) : Z :=
  if (0 <=? v) && (v <? total) then v else total.

(** ** What a refine pass by change has to keep

    [reread rd n k previous]: the matches of [previous] whose address is
    re-read successfully, each with the [n] bytes read, when the reads are
    the reads number [k], [k + 1], ... of the session. *)
Fixpoint reread (rd : nat -> Z -> Z -> option (list byte)) (n k : nat)
    (previous : list ScanResult) : list (ScanResult * list byte) :=
  match previous with
  | [] => []
  | p :: rest =>
      match read_result rd k (address p) (Z.of_nat n) with
      | Some cur => (p, cur) :: reread rd n (S k) rest
      | None => reread rd n (S k) rest
      end
  end.

(** The bytes just read differ from the first [n] bytes stored in the
    match. *)
Definition differs (n : nat) (pc : ScanResult * list byte) : bool :=
  negb (bytes_eqb (snd pc) (firstn n (value (fst pc)))).

Definition change_comparison (changed : bool) : string :=
  if changed then "changed" else "unchanged".

(** Address, kind tag and bytes of a match. *)
Definition match_key (r : ScanResult) : Z * ValueType * list byte :=
  (address r, type r, value r).

Definition refreshed_key (pc : ScanResult * list byte)
    : Z * ValueType * list byte :=
  (address (fst pc), type (fst pc), snd pc).

(** The text [HELLO] of [hello_memory] overwritten with [HEXXX], and a
    target that holds the former at its first read and the latter from
    then on. *)
Definition hexxx_memory : list byte :=
  repeat x00 8 ++ list_byte_of_string "HEXXX" ++ repeat x00 3.

Definition hello_rewritten : nat -> Z -> Z -> option (list byte) :=
  fun k addr n =>
    match k with
    | O => block 4096 hello_memory k addr n
    | S _ => block 4096 hexxx_memory k addr n
    end.

(** The session that attaches to that target and runs [scan string
    HELLO]. *)
Definition hello_attached : World :=
  world_after
    (exec no_float_lib hello_rewritten
       (CallAttach 42 (Some 1) (Some "game") [rw_region 4096 16]) fresh).

Definition hello_found : World :=
  world_after
    (exec no_float_lib hello_rewritten
       (CallFirstScan 100 STRING "HELLO" "exact") hello_attached).

(** * Properties *)

(** ** Bytes, pointers and the codec *)

Lemma le_bytes_length (n : nat) (z : Z) : List.length (le_bytes n z) = n.
Proof.
  revert z; induction n as [|n IH]; intro z; simpl; [reflexivity|].
  now rewrite IH.
Qed.

Lemma list_byte_of_string_length (s : string) :
  List.length (list_byte_of_string s) = String.length s.
Proof.
  induction s as [|c s IH]; simpl; [reflexivity|].
  f_equal; exact IH.
Qed.

Lemma bytes_eqb_eq (a b : list byte) : bytes_eqb a b = true <-> a = b.
Proof.
  revert b; induction a as [|x a IH]; intros [|y b]; simpl;
    try (split; [discriminate|discriminate]); [tauto|].
  rewrite andb_true_iff, IH; split.
  - intros [Hxy ->]; f_equal; now apply Byte.byte_dec_bl.
  - intros [= -> ->]; split; [now apply Byte.byte_dec_lb|reflexivity].
Qed.

Lemma deref_some (v : list byte) (off : Z) (n : nat) :
  0 <= off -> off + Z.of_nat n <= Z.of_nat (List.length v) ->
  deref v off n = Some (firstn n (skipn (Z.to_nat off) v)).
Proof.
  intros H0 H1; unfold deref.
  destruct (0 <=? off) eqn:E0; [|lia].
  destruct (off + Z.of_nat n <=? Z.of_nat (List.length v)) eqn:E1; [|lia].
  reflexivity.
Qed.

Lemma deref_none (v : list byte) (off : Z) (n : nat) :
  Z.of_nat (List.length v) < off + Z.of_nat n -> deref v off n = None.
Proof.
  intros H; unfold deref.
  destruct (off + Z.of_nat n <=? Z.of_nat (List.length v)) eqn:E1; [lia|].
  now rewrite andb_false_r.
Qed.

Lemma deref_whole (v : list byte) : deref v 0 (List.length v) = Some v.
Proof.
  rewrite deref_some by lia; simpl; now rewrite firstn_all.
Qed.

Lemma deref_length (v x : list byte) (off : Z) (n : nat) :
  deref v off n = Some x -> List.length x = n.
Proof.
  unfold deref.
  destruct (0 <=? off) eqn:E0; [|discriminate].
  destruct (off + Z.of_nat n <=? Z.of_nat (List.length v)) eqn:E1;
    [|discriminate].
  simpl; intros [= <-].
  rewrite firstn_length_le; [reflexivity|].
  rewrite length_skipn; lia.
Qed.

Lemma encode_with_ok parse n s m target :
  encode_with parse n s = EncOk m target ->
  m = n /\ List.length target = n.
Proof.
  unfold encode_with; destruct (parse s); [discriminate|].
  intros [= <- <-]; split; [reflexivity|apply le_bytes_length].
Qed.

Lemma encodeValue_ok lib t s n target :
  encodeValue lib t s = EncOk n target ->
  List.length target = n /\ fits t n.
Proof.
  destruct t; simpl; intros H;
    try (apply encode_with_ok in H; destruct H as [-> H];
         split; [exact H|reflexivity]).
  - injection H as <- <-; split; [apply list_byte_of_string_length|exact I].
  - discriminate.
Qed.

Lemma load_some (v : list byte) (n : nat) :
  (n <= List.length v)%nat -> exists u, load v 0 n = Some u.
Proof.
  intros H; unfold load; rewrite deref_some by lia; simpl; eauto.
Qed.

Lemma describe_defined lib t v :
  fits t (List.length v) -> exists d, describe lib t v = Some d.
Proof.
  destruct t; simpl; intros H; try contradiction; try (eexists; reflexivity);
    match goal with
    | |- context [load v 0 ?n] =>
        destruct (load_some v n) as [u ->]; [lia|simpl; eauto]
    end.
Qed.

Lemma typed_compare_defined gt t v off target :
  fits t (List.length target) ->
  0 <= off -> off + Z.of_nat (List.length target) <= Z.of_nat (List.length v) ->
  exists b, typed_compare gt t v off target = Some b.
Proof.
  intros Hf H0 H1.
  destruct t; simpl in *; try contradiction; try (eexists; reflexivity);
    unfold load; rewrite (deref_some v) by lia;
    rewrite (deref_some target) by lia; simpl; eauto.
Qed.

(** ** Rules for [ensures] *)

Lemma ensures_weaken {A} (m : M A) (w : World) (P Q : A -> World -> Prop) :
  ensures m w P -> (forall a w', P a w' -> Q a w') -> ensures m w Q.
Proof.
  unfold ensures; destruct (m w); auto.
Qed.

Lemma ensures_ret {A} (a : A) (w : World) (Q : A -> World -> Prop) :
  Q a w -> ensures (ret a) w Q.
Proof. exact (fun H => H). Qed.

Lemma ensures_bind {A B} (m : M A) (k : A -> M B) (w : World)
    (Q : B -> World -> Prop) :
  ensures m w (fun a w' => ensures (k a) w' Q) -> ensures (bind m k) w Q.
Proof.
  unfold ensures, bind; destruct (m w); auto.
Qed.

Lemma ensures_defined {A} (o : option A) (w : World)
    (Q : A -> World -> Prop) :
  (forall a, o = Some a -> Q a w) -> ensures (defined o) w Q.
Proof.
  unfold ensures, defined; destruct o; auto.
Qed.

Lemma ensures_out_of_fuel {A} (w : World) (Q : A -> World -> Prop) :
  ensures out_of_fuel w Q.
Proof. exact I. Qed.

Lemma ensures_this (w : World) (Q : MemoryScanner -> World -> Prop) :
  Q (scanner w) w -> ensures this w Q.
Proof. exact (fun H => H). Qed.

Lemma ensures_print (e : Event) (w : World) (Q : unit -> World -> Prop) :
  (forall w', scanner w' = scanner w -> reads w' = reads w ->
              files w' = files w -> Q tt w') ->
  ensures (print e) w Q.
Proof.
  intros H; unfold ensures, print; apply H; reflexivity.
Qed.

Lemma ensures_usleep (usec : Z) (w : World) (Q : unit -> World -> Prop) :
  (forall w', scanner w' = scanner w -> reads w' = reads w ->
              files w' = files w -> Q tt w') ->
  ensures (usleep usec) w Q.
Proof.
  intros H; unfold ensures, usleep; apply H; reflexivity.
Qed.

Lemma ensures_update (f : MemoryScanner -> MemoryScanner) (w : World)
    (Q : unit -> World -> Prop) :
  (forall w', scanner w' = f (scanner w) -> reads w' = reads w ->
              files w' = files w -> Q tt w') ->
  ensures (update f) w Q.
Proof.
  intros H; unfold ensures, update; apply H; reflexivity.
Qed.

Lemma ensures_readMemoryBlock rd (addr sz : Z) (w : World)
    (Q : option (list byte) -> World -> Prop) :
  (forall r w', scanner w' = scanner w -> files w' = files w ->
                reads w' = reads w ++ [(addr, sz)] ->
                (forall data, r = Some data ->
                              Z.of_nat (List.length data) = sz) ->
                Q r w') ->
  ensures (readMemoryBlock rd addr sz) w Q.
Proof.
  intros H; unfold ensures, readMemoryBlock.
  destruct (rd (List.length (reads w)) addr sz) as [data|].
  - destruct (Z.of_nat (List.length data) =? sz) eqn:E.
    + apply H; try reflexivity. intros d [= <-]; lia.
    + apply H; try reflexivity; discriminate.
  - apply H; try reflexivity; discriminate.
Qed.

(** ** The loops of the initial scan *)

Lemma grows_refl (hits : Z) (w : World) :
  hits <= MAX_RESULTS -> grows hits w hits w.
Proof.
  intros Hle; unfold grows.
  split; [reflexivity|]. split; [reflexivity|]. split; [reflexivity|].
  split; [exists []; now rewrite app_nil_r|auto].
Qed.

Lemma grows_pre (hits : Z) (w w1 : World) (hits' : Z) (w' : World) :
  scanner w1 = scanner w -> files w1 = files w ->
  grows hits w1 hits' w' -> grows hits w hits' w'.
Proof.
  unfold grows; intros <- <- H; exact H.
Qed.

Lemma grows_post (hits : Z) (w : World) (hits' : Z) (w1 w' : World) :
  scanner w' = scanner w1 -> files w' = files w1 ->
  grows hits w hits' w1 -> grows hits w hits' w'.
Proof.
  unfold grows; intros -> -> H; exact H.
Qed.

Lemma vector_size_app {A} (l : list A) (x : A) :
  vector_size (l ++ [x]) = vector_size l + 1.
Proof.
  unfold vector_size; rewrite length_app; simpl; lia.
Qed.

Lemma vector_size_nonneg {A} (l : list A) : 0 <= vector_size l.
Proof. unfold vector_size; lia. Qed.

Lemma grows_push (hits : Z) (w w1 : World) (r : ScanResult) :
  scanner w1 = set_scanResults (scanResults (scanner w) ++ [r]) (scanner w) ->
  files w1 = files w ->
  grows hits w (wrap64 (hits + 1)) w1.
Proof.
  intros Hs Hf; unfold grows; rewrite Hs, Hf; simpl.
  split; [reflexivity|]. split; [reflexivity|]. split; [reflexivity|].
  split; [eauto|].
  rewrite vector_size_app. intros <- Hlt.
  pose proof (vector_size_nonneg (scanResults (scanner w))).
  unfold wrap64, MAX_RESULTS in *. rewrite Z.mod_small; lia.
Qed.

Lemma grows_trans (h0 h1 h2 : Z) (w0 w1 w2 : World) :
  grows h0 w0 h1 w1 -> h1 < MAX_RESULTS -> grows h1 w1 h2 w2 ->
  grows h0 w0 h2 w2.
Proof.
  intros (Ha & Hp & Hf & [n1 Hn1] & Hc) Hlt (Ha' & Hp' & Hf' & [n2 Hn2] & Hc').
  unfold grows.
  split; [congruence|]. split; [congruence|]. split; [congruence|].
  split.
  - exists (n1 ++ n2). now rewrite Hn2, Hn1, app_assoc.
  - intros E0 L0. destruct (Hc E0 L0) as [E1 _]. exact (Hc' E1 Hlt).
Qed.

Lemma scan_offsets_grows lib fuel t comparison targetValue valueSize region
    buffer :
  forall offset hits w,
    ensures (scan_offsets lib fuel t comparison targetValue valueSize region
               buffer offset hits) w
      (fun hits' w' => hits < MAX_RESULTS -> grows hits w hits' w').
Proof.
  induction fuel as [|fuel IH]; intros offset hits w; simpl.
  - apply ensures_out_of_fuel.
  - destruct (offset <=? _).
    + apply ensures_bind, ensures_defined; intros [|] _.
      * apply ensures_bind, ensures_defined; intros v _.
        apply ensures_bind, ensures_defined; intros d _.
        apply ensures_bind, ensures_update; intros w1 Hs1 _ Hf1.
        cbv zeta.
        pose proof (grows_push hits w w1 _ Hs1 Hf1) as Hpush.
        destruct (wrap64 (hits + 1) >=? MAX_RESULTS) eqn:E.
        -- apply ensures_bind, ensures_print; intros w2 Hs2 _ Hf2.
           apply ensures_ret; intros Hlt.
           now apply grows_post with (w1 := w1).
        -- eapply ensures_weaken; [apply IH|]; cbv beta.
           intros h' w' Hg Hlt.
           apply grows_trans with (h1 := wrap64 (hits + 1)) (w1 := w1);
             [exact Hpush|lia|apply Hg; lia].
      * apply IH.
    + apply ensures_ret; intros Hlt; apply grows_refl; lia.
Qed.

Lemma scan_regions_grows lib rd fuel t comparison targetValue valueSize
    totalRegions regions :
  forall regionsScanned hits w,
    ensures (scan_regions lib rd fuel t comparison targetValue valueSize
               totalRegions regions regionsScanned hits) w
      (fun hits' w' => hits < MAX_RESULTS -> grows hits w hits' w').
Proof.
  induction regions as [|region rest IH]; intros regionsScanned hits w;
    simpl.
  - apply ensures_ret; intros Hlt; apply grows_refl; lia.
  - destruct (negb (readable region)); [apply IH|].
    apply ensures_bind.
    assert (Hmsg : forall (m : M unit),
               (m = print (ScanProgress (wrap64 (regionsScanned + 1))
                             totalRegions) \/ m = ret tt) ->
               ensures m w (fun _ w1 => scanner w1 = scanner w /\
                                        files w1 = files w)).
    { intros m [-> | ->]; [apply ensures_print|apply ensures_ret]; auto. }
    eapply ensures_weaken.
    { apply Hmsg. destruct (_ =? 0); auto. }
    cbv beta; intros _ w1 [Hs1 Hf1].
    apply ensures_bind, ensures_readMemoryBlock; intros r w2 Hs2 Hf2 _ _.
    assert (Hpre : forall h' w', (hits < MAX_RESULTS -> grows hits w2 h' w') ->
                                 hits < MAX_RESULTS -> grows hits w h' w').
    { intros h' w' Hg Hlt. apply grows_pre with (w1 := w2);
        [congruence|congruence|auto]. }
    destruct r as [buffer|].
    + apply ensures_bind.
      eapply ensures_weaken; [apply scan_offsets_grows|]; cbv beta.
      intros h1 w3 Hg1.
      destruct (h1 >=? MAX_RESULTS) eqn:E.
      * apply ensures_ret; auto.
      * eapply ensures_weaken; [apply IH|]; cbv beta.
        intros h' w' Hg Hlt. apply Hpre; [|exact Hlt]. intros _.
        apply grows_trans with (h1 := h1) (w1 := w3); [auto|lia|apply Hg; lia].
    + eapply ensures_weaken; [apply IH|]; cbv beta; auto.
Qed.

(** ** [firstScan] as a whole *)

Lemma firstScan_unfold lib rd fuel t val comparison w :
  firstScan lib rd fuel t val comparison w =
  match encodeValue lib t val with
  | EncThrow e => Thrown e (firstScan_entry w)
  | EncUnsupported => print UnsupportedValueType (firstScan_entry w)
  | EncOk valueSize targetValue =>
      (scan_regions lib rd fuel t comparison targetValue valueSize
         (vector_size (memoryRegions (scanner w)))
         (memoryRegions (scanner w)) 0 0 ;;;
       s' <- this ;;
       print (ScanComplete (vector_size (scanResults s'))))
        (firstScan_entry w)
  end.
Proof.
  unfold firstScan, firstScan_entry.
  destruct (encodeValue lib t val); reflexivity.
Qed.

(** Whatever way [firstScan] ends, it has only replaced the result sets:
    the previous generation is empty and the current one is within the
    ceiling. *)
Lemma firstScan_final lib rd fuel t val comparison w w' :
  final_world (firstScan lib rd fuel t val comparison w) = Some w' ->
  attachment (scanner w') = attachment (scanner w) /\
  previousScanResults (scanner w') = [] /\
  vector_size (scanResults (scanner w')) <= MAX_RESULTS /\
  files w' = files w.
Proof.
  rewrite firstScan_unfold.
  destruct (encodeValue lib t val) as [n target|e|].
  - pose proof (scan_regions_grows lib rd fuel t comparison target n
                  (vector_size (memoryRegions (scanner w)))
                  (memoryRegions (scanner w)) 0 0 (firstScan_entry w)) as H.
    unfold ensures in H; unfold bind.
    destruct (scan_regions _ _ _ _ _ _ _ _ _ _ _ _) as [h w1|e w1| |];
      try discriminate; [|contradiction].
    simpl; intros [= <-]; simpl.
    destruct H as (Ha & Hp & Hf & _ & Hc); [reflexivity|].
    destruct Hc as [Heq Hle]; [reflexivity|reflexivity|].
    simpl in Ha, Hp, Hf.
    split; [exact Ha|]. split; [exact Hp|]. split; [lia|exact Hf].
  - simpl; intros [= <-]; simpl.
    repeat split; unfold MAX_RESULTS, vector_size; simpl; lia.
  - simpl; intros [= <-]; simpl.
    repeat split; unfold MAX_RESULTS, vector_size; simpl; lia.
Qed.

(** ** The refine scan *)

Lemma picked_none (previous : list ScanResult) : picked previous [].
Proof.
  induction previous; constructor; assumption.
Qed.

Lemma picked_length (previous new : list ScanResult) :
  picked previous new -> (List.length new <= List.length previous)%nat.
Proof.
  induction 1; simpl; lia.
Qed.

Lemma picked_incl (previous new : list ScanResult) :
  picked previous new ->
  incl (map address new) (map address previous).
Proof.
  induction 1 as [|p previous new _ IH|p r previous new Ha _ _ IH]; simpl.
  - apply incl_refl.
  - now apply incl_tl.
  - rewrite Ha. apply incl_cons; [now left|now apply incl_tl].
Qed.

Lemma refined_refl (w : World) (previous : list ScanResult) :
  refined previous w w.
Proof.
  unfold refined; repeat split.
  exists []; split; [now rewrite app_nil_r|apply picked_none].
Qed.

Lemma refined_pre (previous : list ScanResult) (w w1 w' : World) :
  scanner w1 = scanner w -> files w1 = files w ->
  refined previous w1 w' -> refined previous w w'.
Proof.
  unfold refined; intros <- <- H; exact H.
Qed.

Lemma refined_skip (p : ScanResult) (previous : list ScanResult)
    (w w' : World) :
  refined previous w w' -> refined (p :: previous) w w'.
Proof.
  intros (Ha & Hp & Hf & new & Hn & Hpick).
  unfold refined; repeat split; auto.
  exists new; split; [exact Hn|now constructor].
Qed.

Lemma refined_keep (p r : ScanResult) (previous : list ScanResult)
    (w w1 w' : World) :
  scanner w1 = set_scanResults (scanResults (scanner w) ++ [r]) (scanner w) ->
  files w1 = files w ->
  address r = address p -> type r = type p ->
  refined previous w1 w' -> refined (p :: previous) w w'.
Proof.
  intros Hs Hf Hadr Hty (Ha & Hp & Hfi & new & Hn & Hpick).
  rewrite Hs in Ha, Hp, Hn; simpl in Ha, Hp, Hn.
  unfold refined.
  split; [exact Ha|]. split; [exact Hp|]. split; [congruence|].
  exists (r :: new); split.
  - now rewrite Hn, <- app_assoc.
  - now constructor.
Qed.

Lemma filter_previous_refined lib rd t comparison targetValue valueSize
    totalAddresses previous :
  forall addressesChecked w,
    ensures (filter_previous lib rd t comparison targetValue valueSize
               totalAddresses previous addressesChecked) w
      (fun _ w' => refined previous w w').
Proof.
  induction previous as [|p rest IH]; intros addressesChecked w; simpl.
  - apply ensures_ret, refined_refl.
  - apply ensures_bind.
    assert (Hmsg : forall (m : M unit),
               (m = print (FilterProgress (wrap64 (addressesChecked + 1))
                             totalAddresses) \/ m = ret tt) ->
               ensures m w (fun _ w1 => scanner w1 = scanner w /\
                                        files w1 = files w)).
    { intros m [-> | ->]; [apply ensures_print|apply ensures_ret]; auto. }
    eapply ensures_weaken.
    { apply Hmsg. destruct (_ =? 0); auto. }
    cbv beta; intros _ w1 [Hs1 Hf1].
    apply ensures_bind, ensures_readMemoryBlock; intros r w2 Hs2 Hf2 _ _.
    assert (Hpre : forall w', refined (p :: rest) w2 w' ->
                              refined (p :: rest) w w').
    { intros w'. apply refined_pre; congruence. }
    destruct r as [currentValue|].
    + apply ensures_bind, ensures_defined; intros [|] _.
      * apply ensures_bind, ensures_defined; intros d _.
        apply ensures_bind, ensures_update; intros w3 Hs3 _ Hf3.
        eapply ensures_weaken; [apply IH|]; cbv beta.
        intros _ w' Hr. apply Hpre.
        eapply refined_keep; [exact Hs3|exact Hf3| | |exact Hr];
          reflexivity.
      * eapply ensures_weaken; [apply IH|]; cbv beta.
        intros _ w' Hr. apply Hpre. now apply refined_skip.
    + eapply ensures_weaken; [apply IH|]; cbv beta.
      intros _ w' Hr. apply Hpre. now apply refined_skip.
Qed.

Lemma nextScan_unfold lib rd t val comparison w :
  nextScan lib rd t val comparison w =
  match scanResults (scanner w) with
  | [] => print NoPreviousResults w
  | _ :: _ =>
      match encodeValue lib t val with
      | EncThrow e => Thrown e (nextScan_entry w)
      | EncUnsupported => print UnsupportedValueType (nextScan_entry w)
      | EncOk valueSize targetValue =>
          (filter_previous lib rd t comparison targetValue valueSize
             (vector_size (scanResults (scanner w)))
             (scanResults (scanner w)) 0 ;;;
           s' <- this ;;
           print (FilterComplete (vector_size (scanResults s'))))
            (nextScan_entry w)
      end
  end.
Proof.
  unfold nextScan, nextScan_entry, bind at 1, this at 1.
  destruct (scanResults (scanner w)) eqn:E; [reflexivity|].
  unfold bind, update, this, print, with_scanner; simpl; rewrite E.
  destruct (encodeValue lib t val); reflexivity.
Qed.

(** Whatever way [nextScan] ends: either there was nothing to refine and
    the scanner is as before, or the consumed generation is now the
    previous one and the new results are picked among it. *)
Lemma nextScan_final lib rd t val comparison w w' :
  final_world (nextScan lib rd t val comparison w) = Some w' ->
  attachment (scanner w') = attachment (scanner w) /\
  files w' = files w /\
  ((scanResults (scanner w) = [] /\ scanner w' = scanner w) \/
   (previousScanResults (scanner w') = scanResults (scanner w) /\
    picked (scanResults (scanner w)) (scanResults (scanner w')))).
Proof.
  rewrite nextScan_unfold.
  destruct (scanResults (scanner w)) as [|r0 rs] eqn:E.
  - simpl; intros [= <-]; simpl; auto.
  - destruct (encodeValue lib t val) as [n target|e|].
    + pose proof (filter_previous_refined lib rd t comparison target n
                    (vector_size (r0 :: rs)) (r0 :: rs) 0
                    (nextScan_entry w)) as H.
      unfold ensures in H; unfold bind.
      destruct (filter_previous _ _ _ _ _ _ _ _ _ _) as [a w1|e w1| |];
        try discriminate; [|contradiction].
      simpl; intros [= <-]; simpl.
      destruct H as (Ha & Hp & Hf & new & Hn & Hpick).
      simpl in Ha, Hp, Hf, Hn. rewrite E in Hp.
      split; [exact Ha|]. split; [exact Hf|]. right.
      split; [exact Hp|]. now rewrite Hn.
    + simpl; intros [= <-]; simpl. rewrite E.
      repeat split. right; split; [reflexivity|apply picked_none].
    + simpl; intros [= <-]; simpl. rewrite E.
      repeat split. right; split; [reflexivity|apply picked_none].
Qed.

(** ** Operations that leave the result sets alone *)

Lemma returned_world {A} (a b : A) (w w' : World) :
  Returned a w = Returned b w' -> w = w'.
Proof.
  intros H; now injection H.
Qed.

Lemma ensures_final {A} (m : M A) (w w' : World) (Q : A -> World -> Prop) :
  ensures m w Q -> final_world (m w) = Some w' ->
  exists a, m w = Returned a w' /\ Q a w'.
Proof.
  unfold ensures; destruct (m w) as [a w1|e w1| |]; simpl;
    try discriminate; [|contradiction].
  intros HQ [= <-]; eauto.
Qed.

Lemma readMemoryBlock_eq rd (addr sz : Z) (w : World) :
  readMemoryBlock rd addr sz w
  = Returned (read_result rd (List.length (reads w)) addr sz)
      {| scanner := scanner w; reads := reads w ++ [(addr, sz)];
         console := console w; sleeps := sleeps w; files := files w |}.
Proof.
  unfold readMemoryBlock, read_result.
  destruct (rd (List.length (reads w)) addr sz) as [data|]; [|reflexivity].
  destruct (Z.of_nat (List.length data) =? sz); reflexivity.
Qed.

Lemma read_result_length rd k addr sz data :
  read_result rd k addr sz = Some data -> Z.of_nat (List.length data) = sz.
Proof.
  unfold read_result. destruct (rd k addr sz) as [d|]; [|discriminate].
  destruct (Z.of_nat (List.length d) =? sz) eqn:E; [|discriminate].
  intros [= <-]; lia.
Qed.

Lemma ensures_readMemoryBlock_answer rd (addr sz : Z) (w : World)
    (Q : option (list byte) -> World -> Prop) :
  (forall w', scanner w' = scanner w -> files w' = files w ->
              reads w' = reads w ++ [(addr, sz)] ->
              Q (read_result rd (List.length (reads w)) addr sz) w') ->
  ensures (readMemoryBlock rd addr sz) w Q.
Proof.
  intros H; unfold ensures, readMemoryBlock, read_result in *.
  destruct (rd (List.length (reads w)) addr sz) as [data|].
  - destruct (Z.of_nat (List.length data) =? sz); apply H; reflexivity.
  - apply H; reflexivity.
Qed.

Lemma ensures_floatfield (w : World) (Q : bool -> World -> Prop) :
  Q (cout_fixed w) w -> ensures floatfield w Q.
Proof. exact (fun H => H). Qed.

Lemma watch_loop_frame lib rd fuel addr t valueSize updateInterval :
  forall lastValue updateCount w,
    ensures (watch_loop lib rd fuel addr t valueSize updateInterval
               lastValue updateCount) w
      (fun _ w' => scanner w' = scanner w /\ files w' = files w).
Proof.
  induction fuel as [|fuel IH]; intros lastValue updateCount w; simpl.
  - apply ensures_out_of_fuel.
  - apply ensures_bind, ensures_readMemoryBlock; intros r w1 Hs1 Hf1 _ _.
    destruct r as [currentValue|].
    + apply ensures_bind, ensures_defined; intros same _.
      destruct (negb same).
      * apply ensures_bind, ensures_defined; intros updateCount' _.
        apply ensures_bind, ensures_floatfield.
        apply ensures_bind, ensures_defined; intros old _.
        apply ensures_bind, ensures_defined; intros new _.
        apply ensures_bind, ensures_print; intros w2 Hs2 _ Hf2.
        apply ensures_bind, ensures_usleep; intros w3 Hs3 _ Hf3.
        eapply ensures_weaken; [apply IH|]; cbv beta.
        intros _ w' [Hs Hf]; split; congruence.
      * apply ensures_bind, ensures_usleep; intros w3 Hs3 _ Hf3.
        eapply ensures_weaken; [apply IH|]; cbv beta.
        intros _ w' [Hs Hf]; split; congruence.
    + apply ensures_print; intros w2 Hs2 _ Hf2; split; congruence.
Qed.

Lemma watchAddress_frame lib rd fuel addr t updateInterval w :
  ensures (watchAddress lib rd fuel addr t updateInterval) w
    (fun _ w' => scanner w' = scanner w /\ files w' = files w).
Proof.
  unfold watchAddress.
  apply ensures_bind, ensures_this.
  destruct (negb (isAttached (scanner w))).
  - apply ensures_print; auto.
  - apply ensures_bind, ensures_readMemoryBlock; intros r w1 Hs1 Hf1 _ _.
    destruct r as [lastValue|].
    + apply ensures_bind, ensures_floatfield.
      apply ensures_bind, ensures_defined; intros initial _.
      apply ensures_bind, ensures_print; intros w2 Hs2 _ Hf2.
      eapply ensures_weaken; [apply watch_loop_frame|]; cbv beta.
      intros _ w' [Hs Hf]; split; congruence.
    + apply ensures_print; intros w2 Hs2 _ Hf2; split; congruence.
Qed.

Lemma saveResults_frame opens now filename w w' :
  final_world (saveResults opens now filename w) = Some w' ->
  scanner w' = scanner w.
Proof.
  unfold saveResults, bind, this.
  destruct (scanResults (scanner w)); [|destruct opens]; simpl;
    intros [= <-]; reflexivity.
Qed.

Lemma attachProcess_final pid task pname found w w' :
  final_world ((attachProcess pid task pname found ;;; ret tt) w) = Some w' ->
  scanner w' = scanner w \/
  (scanResults (scanner w') = [] /\ previousScanResults (scanner w') = []).
Proof.
  unfold attachProcess; destruct task; simpl; intros [= <-]; simpl; auto.
Qed.

Lemma detachProcess_final w w' :
  final_world (detachProcess w) = Some w' ->
  scanner w' = scanner w \/
  (scanResults (scanner w') = [] /\ previousScanResults (scanner w') = []).
Proof.
  unfold detachProcess, bind, this; destruct (isAttached (scanner w));
    simpl; intros [= <-]; simpl; auto.
Qed.

Lemma run_command_final (command : M unit) w w' :
  final_world (run_command command w) = Some w' ->
  exists w1, final_world (command w) = Some w1 /\ scanner w' = scanner w1.
Proof.
  unfold run_command.
  destruct (command w) as [a w1|e w1| |]; simpl; try discriminate;
    intros [= <-]; eauto.
Qed.

Lemma scanMemory_final lib rd fuel args w w' :
  final_world (scanMemory lib rd fuel args w) = Some w' ->
  scanner w' = scanner w \/
  exists t val comparison,
    final_world (firstScan lib rd fuel t val comparison w) = Some w'.
Proof.
  unfold scanMemory.
  destruct args as [|a0 [|a1 more]];
    try (simpl; intros [= <-]; now left).
  unfold bind at 1, this.
  destruct (negb (isAttached (scanner w)));
    [simpl; intros [= <-]; now left|].
  destruct (parse_type (lowercase a0)) eqn:Et;
    try (destruct (negb (one_of _ _));
         [simpl; intros [= <-]; now left|intros H; right; eauto]).
  simpl; intros [= <-]; now left.
Qed.

Lemma cli_nextScan_final lib rd args w w' :
  final_world (cli_nextScan lib rd args w) = Some w' ->
  scanner w' = scanner w \/
  exists t val comparison,
    final_world (nextScan lib rd t val comparison w) = Some w'.
Proof.
  unfold cli_nextScan.
  destruct args as [|a0 [|a1 more]];
    try (simpl; intros [= <-]; now left).
  unfold bind at 1, this.
  destruct (negb (isAttached (scanner w)));
    [simpl; intros [= <-]; now left|].
  destruct (vector_size (scanResults (scanner w)) =? 0);
    [simpl; intros [= <-]; now left|].
  destruct (parse_type (lowercase a0)) eqn:Et;
    try (destruct (negb (one_of _ _));
         [simpl; intros [= <-]; now left|intros H; right; eauto]).
  simpl; intros [= <-]; now left.
Qed.

(** ** The ceiling over a session *)

Lemma reachable_within_ceiling lib rd w :
  reachable lib rd w -> within_ceiling w.
Proof.
  unfold within_ceiling.
  induction 1 as [w Hnew|w c w' _ [IHc IHp] Hfin].
  - rewrite Hnew; unfold vector_size, MAX_RESULTS; simpl; lia.
  - assert (Hempty : scanResults (scanner w') = [] /\
                     previousScanResults (scanner w') = [] ->
                     vector_size (scanResults (scanner w')) <= MAX_RESULTS /\
                     vector_size (previousScanResults (scanner w'))
                       <= MAX_RESULTS).
    { intros [-> ->]; unfold vector_size, MAX_RESULTS; simpl; lia. }
    destruct c; simpl in Hfin.
    + apply attachProcess_final in Hfin as [-> | He]; auto.
    + apply detachProcess_final in Hfin as [-> | He]; auto.
    + apply firstScan_final in Hfin as (_ & -> & Hle & _).
      split; [exact Hle|unfold vector_size, MAX_RESULTS; simpl; lia].
    + apply nextScan_final in Hfin as (_ & _ & [[_ ->] | [-> Hpick]]); auto.
      split; [|exact IHc].
      apply picked_length in Hpick. unfold vector_size in *; lia.
    + destruct (ensures_final _ _ _ _
                  (watchAddress_frame lib rd fuel addr t updateInterval w)
                  Hfin) as (_ & _ & -> & _); auto.
    + apply saveResults_frame in Hfin as ->; auto.
    + apply run_command_final in Hfin as (w1 & Hfin & ->).
      apply scanMemory_final in Hfin as [-> | (t & val & cmp & Hfin)]; auto.
      apply firstScan_final in Hfin as (_ & -> & Hle & _).
      split; [exact Hle|unfold vector_size, MAX_RESULTS; simpl; lia].
    + apply run_command_final in Hfin as (w1 & Hfin & ->).
      apply cli_nextScan_final in Hfin as [-> | (t & val & cmp & Hfin)];
        auto.
      apply nextScan_final in Hfin as (_ & _ & [[_ ->] | [-> Hpick]]); auto.
      split; [|exact IHc].
      apply picked_length in Hpick. unfold vector_size in *; lia.
Qed.

(** ** The scans return *)

Lemma returns_bind {A B} (m : M A) (k : A -> M B) (w w1 : World) (a : A) :
  m w = Returned a w1 -> returns (k a) w1 -> returns (bind m k) w.
Proof.
  intros Hm (b & w2 & Hk); exists b, w2; unfold bind; now rewrite Hm.
Qed.

Lemma returns_ret {A} (a : A) (w : World) : returns (ret a) w.
Proof. now exists a, w. Qed.

Lemma readMemoryBlock_returns rd (addr sz : Z) (w : World) :
  exists r w1, readMemoryBlock rd addr sz w = Returned r w1 /\
               forall data, r = Some data -> Z.of_nat (List.length data) = sz.
Proof.
  unfold readMemoryBlock.
  destruct (rd (List.length (reads w)) addr sz) as [data|].
  - destruct (Z.of_nat (List.length data) =? sz) eqn:E;
      eexists _, _; (split; [reflexivity|]); [|discriminate].
    intros d [= <-]; lia.
  - eexists _, _; split; [reflexivity|discriminate].
Qed.

Lemma memcmp_eq_defined (a : list byte) (aoff : Z) (b : list byte) (n : nat) :
  0 <= aoff -> aoff + Z.of_nat n <= Z.of_nat (List.length a) ->
  (n <= List.length b)%nat ->
  exists r, memcmp_eq a aoff b 0 n = Some r.
Proof.
  intros H0 H1 H2; unfold memcmp_eq.
  rewrite (deref_some a), (deref_some b) by lia; eauto.
Qed.

Lemma firstScan_found_defined t comparison buffer offset target n :
  List.length target = n -> fits t n ->
  0 <= offset -> offset + Z.of_nat n <= Z.of_nat (List.length buffer) ->
  exists b, firstScan_found t comparison buffer offset target n = Some b.
Proof.
  intros Hlen Hfit H0 H1; unfold firstScan_found; subst n.
  destruct (String.eqb comparison "exact");
    [apply memcmp_eq_defined; lia|].
  destruct (String.eqb comparison "greater");
    [now apply typed_compare_defined|].
  destruct (String.eqb comparison "less");
    [now apply typed_compare_defined|eauto].
Qed.

Lemma scan_offsets_returns lib t comparison target n region buffer :
  List.length target = n -> fits t n ->
  Z.of_nat n <= Z.of_nat (List.length buffer) < 2 ^ 64 - 1 ->
  forall fuel offset hits w,
    0 <= offset <= Z.of_nat (List.length buffer) - Z.of_nat n + 1 ->
    Z.of_nat (List.length buffer) - Z.of_nat n + 1 - offset < Z.of_nat fuel ->
    returns (scan_offsets lib fuel t comparison target n region buffer
               offset hits) w.
Proof.
  intros Hlen Hfit Hsz.
  assert (Hlast : wrap64 (Z.of_nat (List.length buffer) - Z.of_nat n)
                  = Z.of_nat (List.length buffer) - Z.of_nat n).
  { unfold wrap64; apply Z.mod_small; lia. }
  induction fuel as [|fuel IH]; intros offset hits w H0 Hfuel; simpl.
  - lia.
  - rewrite Hlast.
    destruct (offset <=? _) eqn:E; [|apply returns_ret].
    apply Z.leb_le in E.
    assert (Hnext : wrap64 (offset + 1) = offset + 1).
    { unfold wrap64; apply Z.mod_small; lia. }
    rewrite Hnext.
    destruct (firstScan_found_defined t comparison buffer offset target n)
      as [b Hb]; auto; try lia.
    eapply returns_bind; [unfold defined; rewrite Hb; reflexivity|].
    destruct b; [|apply IH; lia].
    eapply returns_bind;
      [unfold defined; rewrite deref_some by lia; reflexivity|].
    destruct (describe_defined lib t
                (firstn n (skipn (Z.to_nat offset) buffer))) as [d Hd].
    { rewrite firstn_length_le; [exact Hfit|rewrite length_skipn; lia]. }
    eapply returns_bind; [unfold defined; rewrite Hd; reflexivity|].
    eapply returns_bind; [reflexivity|].
    cbv zeta. destruct (_ >=? MAX_RESULTS).
    + eapply returns_bind; [reflexivity|apply returns_ret].
    + apply IH; lia.
Qed.

Lemma scan_regions_returns lib rd fuel t comparison target n totalRegions
    regions :
  List.length target = n -> fits t n ->
  Forall (scannable fuel n) regions ->
  forall regionsScanned hits w,
    returns (scan_regions lib rd fuel t comparison target n totalRegions
               regions regionsScanned hits) w.
Proof.
  intros Hlen Hfit Hall.
  induction Hall as [|region rest [Hsz Hfuel] _ IH];
    intros regionsScanned hits w; simpl.
  - apply returns_ret.
  - destruct (negb (readable region)); [apply IH|].
    assert (Hmsg : exists w1,
               (if wrap64 (regionsScanned + 1) mod 100 =? 0
                then print (ScanProgress (wrap64 (regionsScanned + 1))
                              totalRegions)
                else ret tt) w = Returned tt w1).
    { destruct (_ =? 0); eexists; reflexivity. }
    destruct Hmsg as [w1 Hw1].
    eapply returns_bind; [exact Hw1|].
    destruct (readMemoryBlock_returns rd (start region) (size region) w1)
      as (r & w2 & Hr & Hdata).
    eapply returns_bind; [exact Hr|].
    destruct r as [buffer|]; [|apply IH].
    specialize (Hdata buffer eq_refl).
    destruct (scan_offsets_returns lib t comparison target n region buffer
                Hlen Hfit ltac:(lia) fuel 0 hits w2 ltac:(lia) ltac:(lia))
      as (h & w3 & Hscan).
    eapply returns_bind; [exact Hscan|].
    destruct (h >=? MAX_RESULTS); [apply returns_ret|apply IH].
Qed.

Lemma scan_regions_returns_readable lib rd fuel t comparison target n
    totalRegions regions :
  List.length target = n -> fits t n ->
  Forall (walkable fuel n) regions ->
  forall regionsScanned hits w,
    returns (scan_regions lib rd fuel t comparison target n totalRegions
               regions regionsScanned hits) w.
Proof.
  intros Hlen Hfit Hall.
  induction Hall as [|region rest Hwalk _ IH];
    intros regionsScanned hits w; simpl.
  - apply returns_ret.
  - destruct (readable region) eqn:Hreadable; cbn [negb]; [|apply IH].
    destruct (Hwalk Hreadable) as [[Hsz Hfuel] _].
    assert (Hmsg : exists w1,
               (if wrap64 (regionsScanned + 1) mod 100 =? 0
                then print (ScanProgress (wrap64 (regionsScanned + 1))
                              totalRegions)
                else ret tt) w = Returned tt w1).
    { destruct (_ =? 0); eexists; reflexivity. }
    destruct Hmsg as [w1 Hw1].
    eapply returns_bind; [exact Hw1|].
    destruct (readMemoryBlock_returns rd (start region) (size region) w1)
      as (r & w2 & Hr & Hdata).
    eapply returns_bind; [exact Hr|].
    destruct r as [buffer|]; [|apply IH].
    specialize (Hdata buffer eq_refl).
    destruct (scan_offsets_returns lib t comparison target n region buffer
                Hlen Hfit ltac:(lia) fuel 0 hits w2 ltac:(lia) ltac:(lia))
      as (h & w3 & Hscan).
    eapply returns_bind; [exact Hscan|].
    destruct (h >=? MAX_RESULTS); [apply returns_ret|apply IH].
Qed.

Lemma firstScan_returns_readable lib rd fuel t val comparison w n target :
  encodeValue lib t val = EncOk n target ->
  Forall (walkable fuel n) (memoryRegions (scanner w)) ->
  returns (firstScan lib rd fuel t val comparison) w.
Proof.
  intros Henc Hall.
  destruct (encodeValue_ok _ _ _ _ _ Henc) as [Hlen Hfit].
  unfold returns; rewrite firstScan_unfold, Henc.
  destruct (scan_regions_returns_readable lib rd fuel t comparison target n
              (vector_size (memoryRegions (scanner w)))
              (memoryRegions (scanner w)) Hlen Hfit Hall 0 0
              (firstScan_entry w)) as (h & w1 & Hscan).
  unfold bind; rewrite Hscan; eexists _, _; reflexivity.
Qed.

(** [firstScan] returns whenever the literal parses and every region can
    hold the search value and be walked within the loop budget. *)
Lemma firstScan_returns lib rd fuel t val comparison w n target :
  encodeValue lib t val = EncOk n target ->
  Forall (scannable fuel n) (memoryRegions (scanner w)) ->
  returns (firstScan lib rd fuel t val comparison) w.
Proof.
  intros Henc Hall.
  destruct (encodeValue_ok _ _ _ _ _ Henc) as [Hlen Hfit].
  unfold returns; rewrite firstScan_unfold, Henc.
  destruct (scan_regions_returns lib rd fuel t comparison target n
              (vector_size (memoryRegions (scanner w)))
              (memoryRegions (scanner w)) Hlen Hfit Hall 0 0
              (firstScan_entry w)) as (h & w1 & Hscan).
  unfold bind; rewrite Hscan; eexists _, _; reflexivity.
Qed.

Lemma nextScan_found_defined t comparison cur target n p :
  List.length target = n -> fits t n -> List.length cur = n ->
  comparable comparison n p ->
  exists b, nextScan_found t comparison cur target n p = Some b.
Proof.
  intros Hlen Hfit Hcur Hcmp; unfold nextScan_found.
  destruct (String.eqb comparison "exact");
    [apply memcmp_eq_defined; lia|].
  destruct (String.eqb comparison "greater");
    [subst n; apply typed_compare_defined; auto; lia|].
  destruct (String.eqb comparison "less");
    [subst n; apply typed_compare_defined; auto; lia|].
  destruct (String.eqb comparison "changed") eqn:Ec.
  { apply String.eqb_eq in Ec.
    destruct (memcmp_eq_defined cur 0 (value p) n) as [r ->];
      [lia|lia|auto|simpl; eauto]. }
  destruct (String.eqb comparison "unchanged") eqn:Eu; [|eauto].
  apply String.eqb_eq in Eu.
  apply memcmp_eq_defined; [lia|lia|auto].
Qed.

Lemma filter_previous_returns lib rd t comparison target n totalAddresses
    previous :
  List.length target = n -> fits t n ->
  Forall (comparable comparison n) previous ->
  forall addressesChecked w,
    returns (filter_previous lib rd t comparison target n totalAddresses
               previous addressesChecked) w.
Proof.
  intros Hlen Hfit Hall.
  induction Hall as [|p rest Hp _ IH]; intros addressesChecked w; simpl.
  - apply returns_ret.
  - assert (Hmsg : exists w1,
               (if wrap64 (addressesChecked + 1) mod 1000 =? 0
                then print (FilterProgress (wrap64 (addressesChecked + 1))
                              totalAddresses)
                else ret tt) w = Returned tt w1).
    { destruct (_ =? 0); eexists; reflexivity. }
    destruct Hmsg as [w1 Hw1].
    eapply returns_bind; [exact Hw1|].
    destruct (readMemoryBlock_returns rd (address p) (Z.of_nat n) w1)
      as (r & w2 & Hr & Hdata).
    eapply returns_bind; [exact Hr|].
    destruct r as [cur|]; [|apply IH].
    specialize (Hdata cur eq_refl). apply Nat2Z.inj in Hdata.
    destruct (nextScan_found_defined t comparison cur target n p)
      as [b Hb]; auto.
    eapply returns_bind; [unfold defined; rewrite Hb; reflexivity|].
    destruct b; [|apply IH].
    destruct (describe_defined lib t cur) as [d Hd]; [now rewrite Hdata|].
    eapply returns_bind; [unfold defined; rewrite Hd; reflexivity|].
    eapply returns_bind; [reflexivity|apply IH].
Qed.

(** [nextScan] returns whenever the literal parses and, for [changed] and
    [unchanged], the stored matches are at least as wide as the new search
    value. *)
Lemma nextScan_returns lib rd t val comparison w n target :
  encodeValue lib t val = EncOk n target ->
  Forall (comparable comparison n) (scanResults (scanner w)) ->
  returns (nextScan lib rd t val comparison) w.
Proof.
  intros Henc Hall.
  destruct (encodeValue_ok _ _ _ _ _ Henc) as [Hlen Hfit].
  unfold returns; rewrite nextScan_unfold.
  destruct (scanResults (scanner w)) as [|r0 rs] eqn:E;
    [eexists _, _; reflexivity|].
  rewrite Henc.
  destruct (filter_previous_returns lib rd t comparison target n
              (vector_size (r0 :: rs)) (r0 :: rs) Hlen Hfit Hall 0
              (nextScan_entry w)) as (a & w1 & Hf).
  unfold bind; rewrite Hf; eexists _, _; reflexivity.
Qed.

(** ** The save file *)

Lemma append_assoc (a b c : string) : (a +++ b) +++ c = a +++ b +++ c.
Proof.
  induction a as [|x a IH]; simpl; [reflexivity|now rewrite IH].
Qed.

Lemma append_empty_r (a : string) : a +++ EmptyString = a.
Proof.
  induction a as [|x a IH]; simpl; [reflexivity|now rewrite IH].
Qed.

Lemma put_text (s : string) (f : ofstream) : text (put s f) = text f +++ s.
Proof. reflexivity. Qed.

Lemma put_hexmode (s : string) (f : ofstream) :
  hexmode (put s f) = hexmode f.
Proof. reflexivity. Qed.

Lemma put_int_text (n : Z) (f : ofstream) :
  text (put_int n f)
  = text f +++ (if hexmode f then show_hex n else show_dec n).
Proof. reflexivity. Qed.

Lemma put_int_hexmode (n : Z) (f : ofstream) :
  hexmode (put_int n f) = hexmode f.
Proof. reflexivity. Qed.

Lemma set_base_text (hex : bool) (f : ofstream) :
  text (set_base hex f) = text f.
Proof. reflexivity. Qed.

Lemma set_base_hexmode (hex : bool) (f : ofstream) :
  hexmode (set_base hex f) = hex.
Proof. reflexivity. Qed.

Create Rewrite HintDb stream.
#[local] Hint Rewrite put_text put_hexmode put_int_text put_int_hexmode
  set_base_text set_base_hexmode : stream.

Lemma put_bytes_text (v : list byte) :
  forall f,
    text (fold_left (fun f b => put_byte b f) v f) = text f +++ hex_bytes v.
Proof.
  induction v as [|b v IH]; intro f; simpl.
  - now rewrite append_empty_r.
  - rewrite IH; unfold put_byte; fold (hex_byte b).
    autorewrite with stream. now rewrite append_assoc.
Qed.

Lemma put_bytes_hexmode (v : list byte) :
  forall f,
    hexmode (fold_left (fun f b => put_byte b f) v f)
    = match v with [] => hexmode f | _ :: _ => true end.
Proof.
  induction v as [|b v IH]; intro f; simpl; [reflexivity|].
  rewrite IH; destruct v; reflexivity.
Qed.

Lemma save_one_text (i : Z) (r : ScanResult) (f : ofstream) :
  text (save_one i r f) = text f +++ record_line (hexmode f) i r.
Proof.
  unfold save_one, record_line; cbv zeta.
  autorewrite with stream; rewrite put_bytes_text.
  autorewrite with stream. now rewrite !append_assoc.
Qed.

Lemma save_one_hexmode (i : Z) (r : ScanResult) (f : ofstream) :
  hexmode (save_one i r f) = has_bytes r.
Proof.
  unfold save_one, has_bytes; cbv zeta.
  autorewrite with stream; rewrite put_bytes_hexmode.
  autorewrite with stream. destruct (value r); reflexivity.
Qed.

Lemma save_loop_text (rs : list ScanResult) :
  forall i f,
    text (save_loop i rs f) = text f +++ record_lines (hexmode f) i rs.
Proof.
  induction rs as [|r rs IH]; intros i f; simpl.
  - now rewrite append_empty_r.
  - now rewrite IH, save_one_text, save_one_hexmode, append_assoc.
Qed.

Lemma save_header_text (s : MemoryScanner) (now : Z) :
  text (save_header s now {| text := EmptyString; hexmode := false |})
  = unlines (header_lines s now).
Proof.
  unfold save_header, header_lines, unlines; cbv zeta.
  autorewrite with stream; cbn [text hexmode].
  rewrite !append_assoc, append_empty_r. reflexivity.
Qed.

Lemma save_header_hexmode (s : MemoryScanner) (now : Z) :
  hexmode (save_header s now {| text := EmptyString; hexmode := false |})
  = false.
Proof. reflexivity. Qed.

(** The stream operations of [saveResults] write the layout. *)
Lemma save_stream_layout (s : MemoryScanner) (now : Z) :
  text (save_loop 0 (scanResults s)
          (save_header s now {| text := EmptyString; hexmode := false |}))
  = save_file_layout s now.
Proof.
  unfold save_file_layout.
  now rewrite save_loop_text, save_header_text, save_header_hexmode.
Qed.

(** ** Ordering predicates on [STRING] *)

Lemma firstScan_found_text comparison buffer offset target n :
  comparison = "greater" \/ comparison = "less" ->
  firstScan_found STRING comparison buffer offset target n = Some false.
Proof.
  intros [-> | ->]; reflexivity.
Qed.

Lemma nextScan_found_text comparison cur target n p :
  comparison = "greater" \/ comparison = "less" ->
  nextScan_found STRING comparison cur target n p = Some false.
Proof.
  intros [-> | ->]; reflexivity.
Qed.

Lemma scan_offsets_text lib fuel comparison target n region buffer :
  comparison = "greater" \/ comparison = "less" ->
  forall offset hits w,
    ensures (scan_offsets lib fuel STRING comparison target n region buffer
               offset hits) w
      (fun hits' w' => hits' = hits /\ w' = w).
Proof.
  intros Hc; induction fuel as [|fuel IH]; intros offset hits w; simpl.
  - apply ensures_out_of_fuel.
  - destruct (offset <=? _); [|apply ensures_ret; auto].
    rewrite firstScan_found_text by exact Hc.
    apply ensures_bind; unfold ensures at 1, defined. apply IH.
Qed.

Lemma scan_regions_text lib rd fuel comparison target n totalRegions regions :
  comparison = "greater" \/ comparison = "less" ->
  forall regionsScanned hits w,
    hits < MAX_RESULTS ->
    ensures (scan_regions lib rd fuel STRING comparison target n totalRegions
               regions regionsScanned hits) w
      (fun hits' w' =>
         scanner w' = scanner w /\
         reads w' = reads w ++ map region_read (filter readable regions)).
Proof.
  intros Hc; induction regions as [|region rest IH];
    intros regionsScanned hits w Hlt; simpl.
  - apply ensures_ret; now rewrite app_nil_r.
  - destruct (readable region); simpl; [|now apply IH].
    apply ensures_bind.
    assert (Hmsg : forall (m : M unit),
               (m = print (ScanProgress (wrap64 (regionsScanned + 1))
                             totalRegions) \/ m = ret tt) ->
               ensures m w (fun _ w1 => scanner w1 = scanner w /\
                                        reads w1 = reads w)).
    { intros m [-> | ->]; [apply ensures_print|apply ensures_ret]; auto. }
    eapply ensures_weaken.
    { apply Hmsg. destruct (_ =? 0); auto. }
    cbv beta; intros _ w1 [Hs1 Hr1].
    apply ensures_bind, ensures_readMemoryBlock; intros r w2 Hs2 _ Hr2 _.
    assert (Hpost : forall (h' : Z) w',
               scanner w' = scanner w2 /\
               reads w' = reads w2
                          ++ map region_read (filter readable rest) ->
               scanner w' = scanner w /\
               reads w' = reads w ++ region_read region
                            :: map region_read (filter readable rest)).
    { intros _ w' [Hs Hr]; split; [congruence|].
      rewrite Hr, Hr2, Hr1, <- app_assoc; reflexivity. }
    destruct r as [buffer|].
    + apply ensures_bind.
      eapply ensures_weaken; [now apply scan_offsets_text|]; cbv beta.
      intros h1 w3 [-> ->].
      destruct (hits >=? MAX_RESULTS) eqn:E; [lia|].
      eapply ensures_weaken; [now apply IH|exact Hpost].
    + eapply ensures_weaken; [now apply IH|exact Hpost].
Qed.

Lemma filter_previous_text lib rd comparison target n totalAddresses
    previous :
  comparison = "greater" \/ comparison = "less" ->
  forall addressesChecked w,
    ensures (filter_previous lib rd STRING comparison target n totalAddresses
               previous addressesChecked) w
      (fun _ w' =>
         scanner w' = scanner w /\
         reads w' = reads w ++ map (match_read n) previous).
Proof.
  intros Hc; induction previous as [|p rest IH];
    intros addressesChecked w; simpl.
  - apply ensures_ret; now rewrite app_nil_r.
  - apply ensures_bind.
    assert (Hmsg : forall (m : M unit),
               (m = print (FilterProgress (wrap64 (addressesChecked + 1))
                             totalAddresses) \/ m = ret tt) ->
               ensures m w (fun _ w1 => scanner w1 = scanner w /\
                                        reads w1 = reads w)).
    { intros m [-> | ->]; [apply ensures_print|apply ensures_ret]; auto. }
    eapply ensures_weaken.
    { apply Hmsg. destruct (_ =? 0); auto. }
    cbv beta; intros _ w1 [Hs1 Hr1].
    apply ensures_bind, ensures_readMemoryBlock; intros r w2 Hs2 _ Hr2 _.
    assert (Hpost : forall (u : unit) w',
               scanner w' = scanner w2 /\
               reads w' = reads w2 ++ map (match_read n) rest ->
               scanner w' = scanner w /\
               reads w' = reads w ++ match_read n p
                            :: map (match_read n) rest).
    { intros _ w' [Hs Hr]; split; [congruence|].
      rewrite Hr, Hr2, Hr1, <- app_assoc; reflexivity. }
    destruct r as [cur|].
    + rewrite nextScan_found_text by exact Hc.
      apply ensures_bind; unfold ensures at 1, defined.
      eapply ensures_weaken; [apply IH|exact Hpost].
    + eapply ensures_weaken; [apply IH|exact Hpost].
Qed.

(** * The claims of the specification *)

(** C7. [nextScan] invoked while the current result set is empty gives up
    at once, reporting that there are no previous results, and mutates
    neither generation: the scanner is exactly as before, and nothing was
    read from the target. *)
Theorem nextScan_without_results lib rd t val comparison w :
  scanResults (scanner w) = [] ->
  exists w',
    nextScan lib rd t val comparison w = Returned tt w' /\
    console w' = console w ++ [NoPreviousResults] /\
    scanResults (scanner w') = scanResults (scanner w) /\
    previousScanResults (scanner w') = previousScanResults (scanner w) /\
    scanner w' = scanner w /\ reads w' = reads w.
Proof.
  intros Hempty; rewrite nextScan_unfold, Hempty.
  eexists; split; [reflexivity|]; simpl; auto 6.
Qed.

Lemma nextScan_without_results_witness :
  exists w',
    nextScan no_float_lib (block 4096 [x07]) BYTE "7" "unchanged"
      refined_to_nothing = Returned tt w' /\
    scanResults (scanner w') = [] /\
    previousScanResults (scanner w') = [byte_match 4096 x07] /\
    reads w' = [].
Proof.
  destruct (nextScan_without_results no_float_lib (block 4096 [x07]) BYTE
              "7" "unchanged" refined_to_nothing eq_refl)
    as (w' & Hrun & _ & Hcur & Hprev & _ & Hreads).
  exists w'; repeat split; assumption.
Defined.

(** C9. [firstScan] clears both result sets at entry, before it parses the
    literal.  Whatever the two sets hold when it is called, it behaves as
    if they were empty: its outcome does not depend on them, so no earlier
    result survives it on any path.  A literal that fails to parse makes
    it throw in the world of its entry, where both sets are empty and
    nothing has been read; and whatever way an invocation ends, the
    previous generation is empty. *)
Theorem firstScan_clears_both lib rd fuel t val comparison w :
  (forall current previous,
     firstScan lib rd fuel t val comparison
       (with_generations current previous w)
     = firstScan lib rd fuel t val comparison w) /\
  (forall e, encodeValue lib t val = EncThrow e ->
     firstScan lib rd fuel t val comparison w
       = Thrown e (firstScan_entry w) /\
     scanResults (scanner (firstScan_entry w)) = [] /\
     previousScanResults (scanner (firstScan_entry w)) = [] /\
     reads (firstScan_entry w) = reads w) /\
  (forall w', final_world (firstScan lib rd fuel t val comparison w)
              = Some w' ->
     previousScanResults (scanner w') = []).
Proof.
  split; [|split].
  - intros current previous; rewrite !firstScan_unfold. reflexivity.
  - intros e He; rewrite firstScan_unfold, He; repeat split.
  - intros w' Hfin; now apply firstScan_final in Hfin.
Qed.

Lemma firstScan_clears_both_witness :
  firstScan no_float_lib (block 4096 two_ints) 100 INT32 "ten" "exact"
    two_ints_scanned
  = Thrown invalid_argument (firstScan_entry two_ints_scanned) /\
  scanResults (scanner two_ints_scanned) <> [] /\
  scanResults (scanner (firstScan_entry two_ints_scanned)) = [] /\
  previousScanResults (scanner (firstScan_entry two_ints_scanned)) = [] /\
  firstScan no_float_lib (block 4096 two_ints) 100 INT32 "100" "greater"
    two_ints_scanned
  = firstScan no_float_lib (block 4096 two_ints) 100 INT32 "100" "greater"
      (with_generations [] [] two_ints_scanned).
Proof.
  destruct (firstScan_clears_both no_float_lib (block 4096 two_ints) 100
              INT32 "ten" "exact" two_ints_scanned) as (_ & Hthrow & _).
  destruct (Hthrow invalid_argument eq_refl) as (Hrun & Hcur & Hprev & _).
  split; [exact Hrun|]. split; [vm_compute; discriminate|].
  split; [exact Hcur|]. split; [exact Hprev|].
  destruct (firstScan_clears_both no_float_lib (block 4096 two_ints) 100
              INT32 "100" "greater" two_ints_scanned) as (Hsame & _).
  symmetry; exact (Hsame [] []).
Defined.

(** C3. Whatever way a refine pass ends, the addresses of its result set
    are among the addresses of the result set it started from, which it
    has made the previous generation. *)
Theorem nextScan_addresses_subset lib rd t val comparison w w' :
  final_world (nextScan lib rd t val comparison w) = Some w' ->
  incl (map address (scanResults (scanner w')))
       (map address (scanResults (scanner w))) /\
  (scanResults (scanner w) <> [] ->
   previousScanResults (scanner w') = scanResults (scanner w)).
Proof.
  intros Hfin.
  apply nextScan_final in Hfin as (_ & _ & [[Hempty ->] | [Hprev Hpick]]).
  - split; [apply incl_refl|now intros []].
  - split; [now apply picked_incl|auto].
Qed.

Lemma nextScan_addresses_subset_witness :
  exists w',
    nextScan no_float_lib (block 4096 two_ints) INT32 "100" "greater"
      two_ints_scanned = Returned tt w' /\
    map address (scanResults (scanner w')) = [4098; 4099; 4100] /\
    incl (map address (scanResults (scanner w')))
         (map address (scanResults (scanner two_ints_scanned))).
Proof.
  eexists; split; [vm_compute; reflexivity|].
  split; [reflexivity|].
  apply (nextScan_addresses_subset no_float_lib (block 4096 two_ints) INT32
           "100" "greater" two_ints_scanned).
  vm_compute; reflexivity.
Defined.

Lemma memcmp_eq_whole (a b : list byte) :
  List.length a = List.length b ->
  memcmp_eq a 0 b 0 (List.length a) = Some (bytes_eqb a b).
Proof.
  intros Hlen; unfold memcmp_eq.
  rewrite deref_whole, Hlen, deref_whole; reflexivity.
Qed.

Lemma bytes_eqb_neq (a b : list byte) : bytes_eqb a b = false <-> a <> b.
Proof.
  rewrite <- bytes_eqb_eq; destruct (bytes_eqb a b); split;
    congruence.
Qed.

Lemma deref_prefix (v x : list byte) (n : nat) :
  deref v 0 n = Some x -> x = firstn n v.
Proof.
  unfold deref; destruct (_ && _); [|discriminate]. now intros [= <-].
Qed.

Lemma nextScan_found_change (changed : bool) t cur target n p b :
  List.length cur = n ->
  nextScan_found t (change_comparison changed) cur target n p = Some b ->
  b = Bool.eqb (differs n (p, cur)) changed.
Proof.
  intros Hlen; unfold differs; cbn [fst snd].
  assert (Hm : forall r, memcmp_eq cur 0 (value p) 0 n = Some r ->
                         r = bytes_eqb cur (firstn n (value p))).
  { unfold memcmp_eq; subst n. rewrite deref_whole.
    destruct (deref (value p) 0 (List.length cur)) as [y|] eqn:Hy;
      [|discriminate].
    apply deref_prefix in Hy; subst y. now intros r [= <-]. }
  destruct changed; unfold nextScan_found; simpl.
  - destruct (memcmp_eq cur 0 (value p) 0 n) as [r|]; [|discriminate].
    rewrite <- (Hm r eq_refl). simpl; intros [= <-]. now destruct r.
  - intros H. rewrite <- (Hm b H). now destruct b.
Qed.

Lemma filter_previous_change lib rd t changed target n totalAddresses
    previous :
  forall addressesChecked w,
    ensures (filter_previous lib rd t (change_comparison changed) target n
               totalAddresses previous addressesChecked) w
      (fun _ w' =>
         exists new,
           scanResults (scanner w') = scanResults (scanner w) ++ new /\
           map match_key new
           = map refreshed_key
               (filter (fun pc => Bool.eqb (differs n pc) changed)
                  (reread rd n (List.length (reads w)) previous))).
Proof.
  induction previous as [|p rest IH]; intros addressesChecked w;
    cbn [filter_previous reread].
  - apply ensures_ret. exists []; split; [now rewrite app_nil_r|reflexivity].
  - apply ensures_bind.
    assert (Hmsg : forall (m : M unit),
               (m = print (FilterProgress (wrap64 (addressesChecked + 1))
                             totalAddresses) \/ m = ret tt) ->
               ensures m w (fun _ w1 => scanner w1 = scanner w /\
                                        reads w1 = reads w)).
    { intros m [-> | ->]; [apply ensures_print|apply ensures_ret]; auto. }
    eapply ensures_weaken.
    { apply Hmsg. destruct (_ =? 0); auto. }
    cbv beta; intros _ w1 [Hs1 Hr1].
    apply ensures_bind, ensures_readMemoryBlock_answer; intros w2 Hs2 _ Hr2.
    rewrite Hr1.
    assert (Hk : List.length (reads w2) = S (List.length (reads w)))
      by (rewrite Hr2, Hr1, length_app; simpl; lia).
    assert (Hdrop : forall (u : unit) w' tail,
               (exists new,
                  scanResults (scanner w') = scanResults (scanner w2) ++ new /\
                  map match_key new
                  = map refreshed_key
                      (filter (fun pc => Bool.eqb (differs n pc) changed)
                         (reread rd n (List.length (reads w2)) rest))) ->
               tail = reread rd n (S (List.length (reads w))) rest ->
               exists new,
                 scanResults (scanner w') = scanResults (scanner w) ++ new /\
                 map match_key new
                 = map refreshed_key
                     (filter (fun pc => Bool.eqb (differs n pc) changed)
                        tail)).
    { intros _ w' tail (new & Hn & Hkey) ->. exists new; split.
      - now rewrite Hn, Hs2, Hs1.
      - now rewrite Hkey, Hk. }
    destruct (read_result rd (List.length (reads w)) (address p)
                (Z.of_nat n)) as [cur|] eqn:Hread.
    + assert (Hlen : List.length cur = n)
        by (apply Nat2Z.inj; exact (read_result_length _ _ _ _ _ Hread)).
      apply ensures_bind, ensures_defined; intros found Hfound.
      apply (nextScan_found_change changed t cur target n p found Hlen)
        in Hfound.
      cbn [filter]. rewrite <- Hfound.
      destruct found.
      * apply ensures_bind, ensures_defined; intros d Hd.
        apply ensures_bind, ensures_update; intros w3 Hs3 Hr3 _.
        eapply ensures_weaken; [apply IH|]; cbv beta.
        intros _ w' (new & Hn & Hkey).
        eexists; split.
        -- rewrite Hn, Hs3, Hs2, Hs1; simpl.
           rewrite <- app_assoc; reflexivity.
        -- cbn [map app]. f_equal. now rewrite Hkey, Hr3, Hk.
      * eapply ensures_weaken; [apply IH|]; cbv beta.
        intros u w' H; exact (Hdrop u w' _ H eq_refl).
    + eapply ensures_weaken; [apply IH|]; cbv beta.
      intros u w' H; exact (Hdrop u w' _ H eq_refl).
Qed.

Lemma change_comparable (changed : bool) (n : nat)
    (previous : list ScanResult) :
  Forall (fun p => (n <= List.length (value p))%nat) previous ->
  Forall (comparable (change_comparison changed) n) previous.
Proof.
  intros H; eapply Forall_impl; [|exact H]. intros p Hp _; exact Hp.
Qed.




(** C10. Whatever the address, the kind and the polling interval, when
    [watchAddress] ends it has left the scanner as it found it: the current
    and the previous result sets, the region catalog and the attachment
    are those of before the call. *)
Theorem watchAddress_leaves_scanner lib rd fuel addr t updateInterval w w' :
  final_world (watchAddress lib rd fuel addr t updateInterval w) = Some w' ->
  scanResults (scanner w') = scanResults (scanner w) /\
  previousScanResults (scanner w') = previousScanResults (scanner w) /\
  memoryRegions (scanner w') = memoryRegions (scanner w) /\
  isAttached (scanner w') = isAttached (scanner w) /\
  scanner w' = scanner w.
Proof.
  intros Hfin.
  destruct (ensures_final _ _ _ _
              (watchAddress_frame lib rd fuel addr t updateInterval w) Hfin)
    as (_ & _ & -> & _).
  repeat split.
Qed.

Lemma watchAddress_leaves_scanner_witness :
  exists w',
    watchAddress no_float_lib changing_target 10 4096 INT32 1000
      refined_to_nothing = Returned tt w' /\
    console w' = [Watching 4096 INT32 "5"; ChangeDetected 1 "5" "6";
                  FailedToReadValue] /\
    scanner w' = scanner refined_to_nothing.
Proof.
  eexists; split; [vm_compute; reflexivity|].
  split; [reflexivity|].
  apply (watchAddress_leaves_scanner no_float_lib changing_target 10 4096
           INT32 1000 refined_to_nothing).
  vm_compute; reflexivity.
Defined.

(** C1. In a session, the result set a refine pass produces has at most
    10,000 matches, whether the pass is called directly or through the
    command [next]: it has at most as many matches as the set it consumed,
    and every result set of a session comes from [firstScan], which stops
    at 10,000, or from a refine pass over such a set.  The consumed set,
    now the previous generation, is within the ceiling as well. *)
Theorem nextScan_within_ceiling lib rd t val comparison w w' :
  reachable lib rd w ->
  final_world (nextScan lib rd t val comparison w) = Some w' ->
  vector_size (scanResults (scanner w')) <= MAX_RESULTS /\
  vector_size (scanResults (scanner w'))
    <= vector_size (scanResults (scanner w)) /\
  vector_size (previousScanResults (scanner w')) <= MAX_RESULTS /\
  (forall args w'',
     final_world (run_command (cli_nextScan lib rd args) w) = Some w'' ->
     vector_size (scanResults (scanner w'')) <= MAX_RESULTS).
Proof.
  intros Hreach Hfin.
  assert (Hafter : reachable lib rd w')
    by (apply reachable_call with (w := w)
                                  (c := CallNextScan t val comparison);
        assumption).
  apply reachable_within_ceiling in Hafter as [Hcur Hprev].
  split; [exact Hcur|]. split; [|split; [exact Hprev|]].
  - apply nextScan_final in Hfin as (_ & _ & [[_ ->] | [_ Hpick]]);
      [lia|].
    apply picked_length in Hpick; unfold vector_size; lia.
  - intros args w'' Hcmd.
    assert (Hcall : reachable lib rd w'')
      by (apply reachable_call with (w := w) (c := CallNextCommand args);
          assumption).
    now apply reachable_within_ceiling in Hcall as [Hc _].
Qed.

Lemma two_ints_scanned_reachable :
  reachable no_float_lib (block 4096 two_ints) two_ints_scanned.
Proof.
  apply reachable_call
    with (w := two_ints_attached)
         (c := CallFirstScan 100 INT32 "0" "greater");
    [|vm_compute; reflexivity].
  apply reachable_call
    with (w := fresh)
         (c := CallAttach 42 (Some 1) (Some "game") [rw_region 4096 8]);
    [|vm_compute; reflexivity].
  now apply reachable_new.
Defined.

Lemma nextScan_within_ceiling_witness :
  exists w',
    nextScan no_float_lib (block 4096 two_ints) INT32 "100" "greater"
      two_ints_scanned = Returned tt w' /\
    vector_size (scanResults (scanner w')) <= MAX_RESULTS /\
    vector_size (scanResults (scanner w'))
      <= vector_size (scanResults (scanner two_ints_scanned)).
Proof.
  eexists; split; [vm_compute; reflexivity|].
  destruct (nextScan_within_ceiling no_float_lib (block 4096 two_ints)
              INT32 "100" "greater" two_ints_scanned _
              two_ints_scanned_reachable ltac:(vm_compute; reflexivity))
    as (Hmax & Hle & _).
  split; [exact Hmax|exact Hle].
Defined.

Lemma sto_range_spec (lo hi : Z) (s : string) (v : Z) :
  parse_decimal s = Some v ->
  sto_range lo hi s
  = if (lo <=? v) && (v <=? hi) then inr v else inl out_of_range.
Proof.
  intros H; unfold sto_range; now rewrite H.
Qed.

(** An exception of the codec ends either scan where it entered it. *)
Lemma encoding_exception_aborts lib rd fuel t val comparison w e :
  encodeValue lib t val = EncThrow e ->
  firstScan lib rd fuel t val comparison w = Thrown e (firstScan_entry w) /\
  (scanResults (scanner w) <> [] ->
   nextScan lib rd t val comparison w = Thrown e (nextScan_entry w)).
Proof.
  intros He; split.
  - now rewrite firstScan_unfold, He.
  - intros Hne; rewrite nextScan_unfold, He.
    destruct (scanResults (scanner w)); [contradiction|reflexivity].
Qed.

(** C5, as the code has it.  An exception of the parser ends the scan or
    the refine pass before anything is read from the target.  For the
    integer kinds the parser checks the literal against the range of [int]
    ([Byte], [Int16], [Int32]) or of [long long] ([Int64]), not against the
    width of the kind: outside that range it throws [out_of_range]; inside
    it the search value is the low bytes of the number, whether or not the
    number fits the kind. *)
Theorem literal_overflow lib rd fuel t val comparison w :
  (forall e, encodeValue lib t val = EncThrow e ->
     firstScan lib rd fuel t val comparison w
       = Thrown e (firstScan_entry w) /\
     reads (firstScan_entry w) = reads w /\
     (scanResults (scanner w) <> [] ->
      nextScan lib rd t val comparison w = Thrown e (nextScan_entry w) /\
      reads (nextScan_entry w) = reads w)) /\
  (forall v lo hi,
     parse_decimal val = Some v -> parser_range t = Some (lo, hi) ->
     (~ lo <= v <= hi -> encodeValue lib t val = EncThrow out_of_range) /\
     (lo <= v <= hi ->
      exists n, fits t n /\ encodeValue lib t val = EncOk n (le_bytes n v))).
Proof.
  split.
  - intros e He.
    destruct (encoding_exception_aborts lib rd fuel t val comparison w e He)
      as [Hfirst Hnext].
    split; [exact Hfirst|]. split; [reflexivity|].
    intros Hne; split; [now apply Hnext|reflexivity].
  - intros v lo hi Hparse Hrange.
    assert (Hin : lo <= v <= hi -> (lo <=? v) && (v <=? hi) = true)
      by (intros [? ?]; apply andb_true_iff; split; now apply Z.leb_le).
    assert (Hout : ~ lo <= v <= hi -> (lo <=? v) && (v <=? hi) = false).
    { intros Hn; apply not_true_is_false; intros Ht.
      apply andb_true_iff in Ht as [? ?]; apply Hn; split;
        now apply Z.leb_le. }
    destruct t; simpl in Hrange; try discriminate;
      injection Hrange as <- <-; simpl;
      unfold encode_with, stoi, stoll;
      rewrite (sto_range_spec _ _ _ _ Hparse);
      (split; [intros Hn; now rewrite (Hout Hn)
              |intros Hy; rewrite (Hin Hy); eexists; split;
               [|reflexivity]; reflexivity]).
Qed.

Lemma literal_overflow_witness :
  firstScan no_float_lib (block 4096 two_ints) 100 INT32 "4294967296"
    "exact" two_ints_attached
  = Thrown out_of_range (firstScan_entry two_ints_attached) /\
  reads (firstScan_entry two_ints_attached) = [] /\
  encodeValue no_float_lib INT16 "70000" = EncOk 2 (le_bytes 2 70000).
Proof.
  destruct (literal_overflow no_float_lib (block 4096 two_ints) 100 INT32
              "4294967296" "exact" two_ints_attached) as [Habort Hint].
  destruct (Hint 4294967296 INT_MIN INT_MAX eq_refl eq_refl) as [Hout _].
  destruct (Habort out_of_range
              (Hout ltac:(unfold INT_MIN, INT_MAX; lia)))
    as (Hrun & Hreads & _).
  split; [exact Hrun|]. split; [exact Hreads|].
  destruct (literal_overflow no_float_lib (block 4096 two_ints) 100 INT16
              "70000" "exact" two_ints_attached) as [_ Hint16].
  destruct (Hint16 70000 INT_MIN INT_MAX eq_refl eq_refl) as [_ Hin].
  destruct (Hin ltac:(unfold INT_MIN, INT_MAX; lia)) as (n & Hfit & Henc).
  simpl in Hfit; subst n; exact Henc.
Defined.

(** C5 fails as stated: the literal [300] does not fit a [Byte], yet
    [firstScan] does not fail; it reads the target and reports the byte 44
    (300 modulo 256) as a match. *)
Lemma byte_literal_truncated :
  exists w',
    firstScan no_float_lib (block 4096 [x2c]) 100 BYTE "300" "exact"
      (attached [rw_region 4096 1]) = Returned tt w' /\
    reads w' = [(4096, 1)] /\
    map value (scanResults (scanner w')) = [[x2c]] /\
    map description (scanResults (scanner w')) = ["44"].
Proof.
  eexists; split; [vm_compute; reflexivity|].
  repeat split.
Qed.

Lemma ordering_comparable comparison n previous :
  comparison = "greater" \/ comparison = "less" ->
  Forall (comparable comparison n) previous.
Proof.
  intros Hc; apply Forall_forall; intros p _ [H | H];
    destruct Hc as [-> | ->]; discriminate.
Qed.

(** Over a buffer one byte shorter than the text, the bound of the offset
    loop wraps to the largest [size_t]: every offset passes the test, and
    under [greater] or [less] nothing is ever found, so the loop does not
    end, whatever the budget. *)
Lemma scan_offsets_text_never_ends lib fuel comparison target n region
    buffer :
  comparison = "greater" \/ comparison = "less" ->
  Z.of_nat (List.length buffer) + 1 = Z.of_nat n ->
  forall offset hits w,
    0 <= offset < 2 ^ 64 ->
    scan_offsets lib fuel STRING comparison target n region buffer offset
      hits w = OutOfFuel.
Proof.
  intros Hc Hshort.
  assert (Hlast : wrap64 (Z.of_nat (List.length buffer) - Z.of_nat n)
                  = 2 ^ 64 - 1).
  { replace (Z.of_nat (List.length buffer) - Z.of_nat n) with (-1) by lia.
    reflexivity. }
  induction fuel as [|fuel IH]; intros offset hits w Hoff; simpl;
    [reflexivity|].
  rewrite Hlast.
  replace (offset <=? 2 ^ 64 - 1) with true
    by (symmetry; apply Z.leb_le; lia).
  rewrite firstScan_found_text by exact Hc.
  unfold bind, defined. apply IH.
  unfold wrap64; apply Z.mod_pos_bound; lia.
Qed.

(** C6, as the code has it.  A scan or a refine pass asked for [greater]
    or [less] on [Text] is not rejected.  The initial scan, when every
    readable region is at least as long as the text and no longer than a
    vector can be, reads every readable region and returns normally with
    an empty result set; when the catalog begins with a readable region
    one byte shorter than the text, it reads that region and then loops
    without end, whatever the loop budget.  The refine pass re-reads every
    previous match and returns normally with an empty result set, the
    consumed generation being the previous one. *)
Theorem text_ordering_finds_nothing lib rd fuel val comparison w :
  comparison = "greater" \/ comparison = "less" ->
  (Forall (walkable fuel (String.length val)) (memoryRegions (scanner w)) ->
   exists w',
     firstScan lib rd fuel STRING val comparison w = Returned tt w' /\
     scanResults (scanner w') = [] /\
     reads w' = reads w ++ map region_read
                             (filter readable (memoryRegions (scanner w)))) /\
  (forall region rest buffer,
     memoryRegions (scanner w) = region :: rest ->
     readable region = true ->
     read_result rd (List.length (reads w)) (start region) (size region)
     = Some buffer ->
     size region + 1 = Z.of_nat (String.length val) ->
     firstScan lib rd fuel STRING val comparison w = OutOfFuel) /\
  (scanResults (scanner w) <> [] ->
   exists w',
     nextScan lib rd STRING val comparison w = Returned tt w' /\
     scanResults (scanner w') = [] /\
     previousScanResults (scanner w') = scanResults (scanner w) /\
     reads w' = reads w ++ map (match_read (String.length val))
                             (scanResults (scanner w))).
Proof.
  intros Hc; split; [|split].
  - intros Hall.
    destruct (firstScan_returns_readable lib rd fuel STRING val comparison w
                _ _ eq_refl Hall) as ([] & w' & Hrun).
    exists w'; split; [exact Hrun|].
    rewrite firstScan_unfold in Hrun; simpl in Hrun; unfold bind in Hrun.
    pose proof (scan_regions_text lib rd fuel comparison
                  (list_byte_of_string val) (String.length val)
                  (vector_size (memoryRegions (scanner w)))
                  (memoryRegions (scanner w)) Hc 0 0 (firstScan_entry w)
                  ltac:(unfold MAX_RESULTS; lia)) as H.
    unfold ensures in H.
    destruct (scan_regions _ _ _ _ _ _ _ _ _ _ _ _) as [h w1|e w1| |];
      try discriminate.
    destruct H as [Hs Hr].
    apply returned_world in Hrun; subst w'; simpl.
    rewrite Hs, Hr; split; reflexivity.
  - intros region rest buffer Hcat Hreadable Hread Hshort.
    rewrite firstScan_unfold; cbn [encodeValue]; rewrite Hcat.
    unfold bind at 1. cbn [scan_regions]. rewrite Hreadable; cbn [negb].
    change (wrap64 (0 + 1) mod 100 =? 0) with false; cbv iota.
    unfold bind at 1, ret at 1. unfold bind at 1.
    rewrite readMemoryBlock_eq.
    change (reads (firstScan_entry w)) with (reads w). rewrite Hread.
    unfold bind at 1.
    rewrite scan_offsets_text_never_ends; [reflexivity|exact Hc| |].
    + apply read_result_length in Hread. lia.
    + split; [lia|reflexivity].
  - intros Hne.
    destruct (nextScan_returns lib rd STRING val comparison w _ _ eq_refl
                (ordering_comparable comparison _ _ Hc))
      as ([] & w' & Hrun).
    exists w'; split; [exact Hrun|].
    rewrite nextScan_unfold in Hrun.
    destruct (scanResults (scanner w)) as [|r0 rs] eqn:E; [contradiction|].
    cbn [encodeValue] in Hrun; unfold bind in Hrun.
    pose proof (filter_previous_text lib rd comparison
                  (list_byte_of_string val) (String.length val)
                  (vector_size (r0 :: rs)) (r0 :: rs) Hc 0
                  (nextScan_entry w)) as H.
    unfold ensures in H.
    destruct (filter_previous _ _ _ _ _ _ _ _ _ _) as [a w1|e w1| |];
      try discriminate.
    destruct H as [Hs Hr].
    apply returned_world in Hrun; subst w'; simpl.
    rewrite Hs, Hr; simpl; rewrite E; repeat split.
Qed.

Lemma text_ordering_finds_nothing_witness :
  (exists w',
     firstScan no_float_lib (block 4096 hello_memory) 100 STRING "HELLO"
       "greater" (attached [rw_region 4096 16]) = Returned tt w' /\
     scanResults (scanner w') = [] /\
     reads w' = [(4096, 16)]) /\
  firstScan no_float_lib (block 4096 [x41; x41]) 100 STRING "AAA" "greater"
    (attached [rw_region 4096 2]) = OutOfFuel.
Proof.
  split.
  - destruct (text_ordering_finds_nothing no_float_lib
                (block 4096 hello_memory) 100 "HELLO" "greater"
                (attached [rw_region 4096 16]) (or_introl eq_refl))
      as (Hfirst & _ & _).
    destruct Hfirst as (w' & Hrun & Hres & Hreads).
    { constructor; [|constructor].
      intros _; repeat split; vm_compute; congruence. }
    exists w'; repeat split; assumption.
  - destruct (text_ordering_finds_nothing no_float_lib
                (block 4096 [x41; x41]) 100 "AAA" "greater"
                (attached [rw_region 4096 2]) (or_introl eq_refl))
      as (_ & Hloop & _).
    apply (Hloop (rw_region 4096 2) [] [x41; x41]); reflexivity.
Defined.

(** C6 fails as stated: the shell command [scan string HELLO greater] is
    not rejected; the scan reads the region and completes with no match
    and no error. *)
Lemma text_greater_not_rejected :
  exists w',
    scanMemory no_float_lib (block 4096 hello_memory) 100
      ["string"; "HELLO"; "greater"] (attached [rw_region 4096 16])
    = Returned tt w' /\
    reads w' = [(4096, 16)] /\
    console w' = [StartingFirstScan; ScanComplete 0].
Proof.
  eexists; split; [vm_compute; reflexivity|].
  split; reflexivity.
Qed.

Lemma saveResults_unfold now filename w :
  scanResults (scanner w) <> [] ->
  saveResults true now filename w
  = Returned tt
      {| scanner := scanner w; reads := reads w;
         console := console w
                    ++ [SavedResults (vector_size (scanResults (scanner w)))
                          filename];
         sleeps := sleeps w;
         files := files w
                  ++ [(filename,
                       text (save_loop 0 (scanResults (scanner w))
                               (save_header (scanner w) now
                                  {| text := EmptyString;
                                     hexmode := false |})))] |}.
Proof.
  intros Hne; unfold saveResults, bind, this.
  destruct (scanResults (scanner w)) eqn:E; [contradiction|reflexivity].
Qed.

(** C8, as the code has it.  For a non-empty result set and a file that
    opens, [saveResults] writes five header lines, each starting with [#]
    (title, process name and id, timestamp, result count, and a legend of
    the record format), followed by one record per match in result-set
    order, [id,0xADDRESS,kindOrdinal,hexbytes,description] and a newline;
    the scanner is left as it was. *)
Theorem saveResults_layout opens now filename w :
  scanResults (scanner w) <> [] -> opens = true ->
  exists w',
    saveResults opens now filename w = Returned tt w' /\
    files w' = files w ++ [(filename, save_file_layout (scanner w) now)] /\
    List.length (header_lines (scanner w) now) = 5%nat /\
    Forall (fun l => starts_with_hash l = true)
      (header_lines (scanner w) now) /\
    scanner w' = scanner w.
Proof.
  intros Hne ->.
  rewrite (saveResults_unfold now filename w Hne), save_stream_layout.
  eexists; split; [reflexivity|]; cbn [files scanner].
  repeat split. repeat constructor.
Qed.

Lemma saveResults_layout_witness :
  exists w',
    saveResults true 1700000000 "out.txt" one_match = Returned tt w' /\
    files w' = [("out.txt", save_file_layout (scanner one_match) 1700000000)]
    /\
    lines (save_file_layout (scanner one_match) 1700000000)
    = [ "# MacMemory Scan Results";
        "# Process: game (PID: 42)";
        "# Timestamp: 1700000000";
        "# Results: 1";
        "# Format: ID,Address,Type,Value,Description";
        "0,0x1000,0,07,7" ].
Proof.
  destruct (saveResults_layout true 1700000000 "out.txt" one_match)
    as (w' & Hrun & Hfiles & _); [discriminate|reflexivity|].
  exists w'; split; [exact Hrun|]. split; [exact Hfiles|].
  vm_compute; reflexivity.
Defined.

(** C8 fails as stated: the file saved for one match starts with five
    lines in [#], not four; there are six lines in all. *)
Lemma save_file_has_five_header_lines :
  exists w' content,
    saveResults true 1700000000 "out.txt" one_match = Returned tt w' /\
    files w' = [("out.txt", content)] /\
    leading_hash_lines content = 5%nat /\
    List.length (lines content) = 6%nat /\
    leading_hash_lines content <> 4%nat.
Proof.
  eexists _, _; split; [vm_compute; reflexivity|].
  split; [reflexivity|].
  split; [vm_compute; reflexivity|].
  split; [vm_compute; reflexivity|].
  vm_compute; discriminate.
Qed.

(** ** A region shorter than the search value *)

Lemma scan_offsets_short_buffer lib fuel t target n region buffer hits w :
  (List.length buffer < n)%nat ->
  scan_offsets lib (S fuel) t "exact" target n region buffer 0 hits w
  = OutOfBounds.
Proof.
  intros Hshort; simpl.
  assert (Hwrap : (0 <=? wrap64 (Z.of_nat (List.length buffer)
                                         - Z.of_nat n)) = true).
  { apply Z.leb_le; unfold wrap64; apply Z.mod_pos_bound; lia. }
  rewrite Hwrap; unfold bind, firstScan_found; simpl.
  unfold memcmp_eq; rewrite deref_none by lia; reflexivity.
Qed.

(** C2 (the code departs from it).  A readable region of 4096 bytes,
    copied in full, and an [exact] search for a text of 4097 bytes: the
    offset loop is entered, because [buffer.size() - valueSize] wraps
    around to [2^64 - 1], and the comparison at offset 0 reads past the end
    of the copy. *)
Theorem short_region_read_out_of_bounds fuel :
  wrap64 (vector_size page - Z.of_nat (String.length long_literal))
  = 2 ^ 64 - 1 /\
  firstScan no_float_lib (block 4096 page) (S fuel) STRING long_literal
    "exact" (attached [rw_region 4096 4096]) = OutOfBounds.
Proof.
  split; [vm_compute; reflexivity|].
  vm_compute; reflexivity.
Qed.

(** * Further properties of the code *)

(** ** Integers in memory *)

Lemma Z_of_byte_of_Z (z : Z) : Z_of_byte (byte_of_Z z) = z mod 256.
Proof.
  unfold Z_of_byte, byte_of_Z.
  pose proof (Z.mod_pos_bound z 256 ltac:(lia)) as Hb.
  pose proof (Byte.to_of_N_option_map (Z.to_N (z mod 256))) as H.
  destruct (Byte.of_N (Z.to_N (z mod 256))) as [b|] eqn:E; simpl in H.
  - destruct (Z.to_N (z mod 256) <=? 255)%N eqn:L; [|discriminate].
    injection H as ->. lia.
  - destruct (Z.to_N (z mod 256) <=? 255)%N eqn:L; [discriminate|].
    apply N.leb_gt in L. lia.
Qed.

Lemma le_value_le_bytes (n : nat) (z : Z) :
  le_value (le_bytes n z) = z mod 2 ^ (8 * Z.of_nat n).
Proof.
  revert z; induction n as [|n IH]; intro z.
  - simpl. now rewrite Z.mod_1_r.
  - cbn [le_bytes le_value]. rewrite IH, Z_of_byte_of_Z.
    replace (8 * Z.of_nat (S n)) with (8 + 8 * Z.of_nat n) by lia.
    rewrite Z.pow_add_r by lia. change (2 ^ 8) with 256.
    rewrite Z.rem_mul_r by lia. reflexivity.
Qed.

Lemma load_le_bytes (n : nat) (z : Z) :
  load (le_bytes n z) 0 n = Some (z mod 2 ^ (8 * Z.of_nat n)).
Proof.
  unfold load.
  rewrite <- (le_bytes_length n z) at 2.
  rewrite deref_whole; simpl. now rewrite le_value_le_bytes.
Qed.

Lemma signed_wraps_back (bits v : Z) :
  0 < bits -> - 2 ^ (bits - 1) <= v < 2 ^ (bits - 1) ->
  signed bits (v mod 2 ^ bits) = v.
Proof.
  intros Hb Hv; unfold signed.
  assert (Hp : 2 ^ bits = 2 * 2 ^ (bits - 1)).
  { rewrite <- Z.pow_succ_r by lia. f_equal; lia. }
  assert (Hpos : 0 < 2 ^ (bits - 1)) by (apply Z.pow_pos_nonneg; lia).
  destruct (Z_lt_le_dec v 0) as [Hneg|Hnn].
  - assert (E : v mod 2 ^ bits = v + 2 ^ bits).
    { symmetry; apply Z.mod_unique with (q := -1); lia. }
    rewrite E. destruct (v + 2 ^ bits <? 2 ^ (bits - 1)) eqn:L; [|lia].
    apply Z.ltb_lt in L; lia.
  - rewrite Z.mod_small by lia.
    destruct (v <? 2 ^ (bits - 1)) eqn:L; [reflexivity|].
    apply Z.ltb_ge in L; lia.
Qed.

(** What a typed read gives back from the bytes of a number the kind can
    hold: the number itself. *)
Lemma kind_view_le_bytes (t : ValueType) (lo hi v : Z) :
  kind_range t = Some (lo, hi) -> lo <= v <= hi ->
  match t with
  | BYTE => v mod 2 ^ 8 = v
  | INT16 => signed 16 (v mod 2 ^ 16) = v
  | INT32 => signed 32 (v mod 2 ^ 32) = v
  | INT64 => signed 64 (v mod 2 ^ 64) = v
  | _ => True
  end.
Proof.
  destruct t; simpl; intros [= <- <-] Hv; auto.
  - apply Z.mod_small; lia.
  - apply signed_wraps_back; simpl; lia.
  - apply signed_wraps_back; unfold INT_MIN, INT_MAX in *; simpl; lia.
  - apply signed_wraps_back; unfold LLONG_MIN, LLONG_MAX in *; simpl; lia.
Qed.

Lemma kind_range_in_parser_range (t : ValueType) (lo hi v : Z) :
  kind_range t = Some (lo, hi) -> lo <= v <= hi ->
  exists plo phi, parser_range t = Some (plo, phi) /\ plo <= v <= phi.
Proof.
  destruct t; simpl; intros [= <- <-] Hv; eexists _, _;
    (split; [reflexivity|]); unfold INT_MIN, INT_MAX in *; lia.
Qed.

Lemma describe_le_bytes lib (t : ValueType) (lo hi v : Z) :
  kind_range t = Some (lo, hi) -> lo <= v <= hi ->
  describe lib t (le_bytes (kind_width t) v) = Some (show_dec v).
Proof.
  intros Hr Hv. pose proof (kind_view_le_bytes t lo hi v Hr Hv) as Hview.
  destruct t; simpl in Hr; try discriminate; cbn [describe kind_width];
    rewrite load_le_bytes; cbn [option_map];
    change (8 * Z.of_nat 1) with 8;
    change (8 * Z.of_nat 2) with 16;
    change (8 * Z.of_nat 4) with 32;
    change (8 * Z.of_nat 8) with 64;
    now rewrite Hview.
Qed.

(** X1. Round trip of the codec on the integer kinds: a literal whose
    number the kind can hold ([0..255] for [Byte], the signed range
    otherwise) is encoded on the width of the kind, and the description
    rendered from those bytes is that number in base ten. *)
Theorem integer_literal_round_trip lib (t : ValueType) (s : string)
    (lo hi v : Z) :
  parse_decimal s = Some v -> kind_range t = Some (lo, hi) ->
  lo <= v <= hi ->
  exists target,
    encodeValue lib t s = EncOk (kind_width t) target /\
    List.length target = kind_width t /\
    describe lib t target = Some (show_dec v).
Proof.
  intros Hparse Hr Hv.
  exists (le_bytes (kind_width t) v).
  split; [|split; [apply le_bytes_length
                  |exact (describe_le_bytes lib t lo hi v Hr Hv)]].
  destruct (kind_range_in_parser_range t lo hi v Hr Hv)
    as (plo & phi & Hpr & Hpv).
  assert (Hin : (plo <=? v) && (v <=? phi) = true)
    by (apply andb_true_iff; split; apply Z.leb_le; lia).
  destruct t; simpl in Hpr; try discriminate; injection Hpr as <- <-;
    cbn [encodeValue kind_width]; unfold encode_with, stoi, stoll;
    rewrite (sto_range_spec _ _ _ _ Hparse), Hin; reflexivity.
Qed.

Lemma integer_literal_round_trip_witness :
  exists target,
    encodeValue no_float_lib INT16 "  -1234" = EncOk 2 target /\
    List.length target = 2%nat /\
    describe no_float_lib INT16 target = Some "-1234".
Proof.
  apply (integer_literal_round_trip no_float_lib INT16 "  -1234"
           (- 2 ^ 15) (2 ^ 15 - 1) (-1234)); [reflexivity|reflexivity|lia].
Defined.

(** ** The predicates on a window *)

(** X2. [exact] is byte equality: at an offset where the window lies in
    the buffer it succeeds exactly when the window holds the bytes of the
    search value, whatever the kind; where the window leaves the buffer
    the comparison is an out-of-bounds read. *)
Theorem exact_is_byte_equality (t : ValueType) (buffer : list byte)
    (offset : Z) (target : list byte) (n : nat) :
  List.length target = n ->
  (forall window, deref buffer offset n = Some window ->
     (firstScan_found t "exact" buffer offset target n = Some true
      <-> window = target) /\
     (firstScan_found t "exact" buffer offset target n = Some false
      <-> window <> target)) /\
  (deref buffer offset n = None ->
   firstScan_found t "exact" buffer offset target n = None).
Proof.
  intros Hlen; unfold firstScan_found; simpl; unfold memcmp_eq.
  split.
  - intros window ->. subst n. rewrite deref_whole.
    pose proof (bytes_eqb_eq window target) as Heq.
    pose proof (bytes_eqb_neq window target) as Hne.
    destruct (bytes_eqb window target); split; split; intros H;
      try congruence; try reflexivity.
    + now apply Heq.
    + exfalso; apply H; now apply Heq.
    + apply Heq in H; discriminate.
    + now apply Hne.
  - intros ->; reflexivity.
Qed.

Lemma exact_is_byte_equality_witness :
  firstScan_found STRING "exact" hello_memory 8
    (list_byte_of_string "HELLO") 5 = Some true /\
  firstScan_found STRING "exact" hello_memory 7
    (list_byte_of_string "HELLO") 5 = Some false /\
  firstScan_found STRING "exact" hello_memory 12
    (list_byte_of_string "HELLO") 5 = None.
Proof.
  destruct (exact_is_byte_equality STRING hello_memory 8
              (list_byte_of_string "HELLO") 5 eq_refl) as [Hin _].
  destruct (Hin (list_byte_of_string "HELLO") eq_refl) as [Heq _].
  destruct (exact_is_byte_equality STRING hello_memory 7
              (list_byte_of_string "HELLO") 5 eq_refl) as [Hin7 _].
  destruct (Hin7 _ eq_refl) as [_ Hne].
  destruct (exact_is_byte_equality STRING hello_memory 12
              (list_byte_of_string "HELLO") 5 eq_refl) as [_ Hout].
  split; [apply Heq; reflexivity|].
  split; [apply Hne; discriminate|apply Hout; reflexivity].
Defined.

Lemma typed_compare_integers (gt : bool) (t : ValueType) (lo hi a b : Z)
    (buffer : list byte) (offset : Z) :
  kind_range t = Some (lo, hi) -> lo <= a <= hi -> lo <= b <= hi ->
  deref buffer offset (kind_width t) = Some (le_bytes (kind_width t) a) ->
  typed_compare gt t buffer offset (le_bytes (kind_width t) b)
  = Some (ordered gt Z.ltb a b).
Proof.
  intros Hr Ha Hb Hwin.
  pose proof (kind_view_le_bytes t lo hi a Hr Ha) as Hva.
  pose proof (kind_view_le_bytes t lo hi b Hr Hb) as Hvb.
  destruct t; simpl in Hr; try discriminate;
    cbn [typed_compare kind_width] in *;
    rewrite load_le_bytes; unfold load; rewrite Hwin; cbn [option_map];
    rewrite le_value_le_bytes;
    change (8 * Z.of_nat 1) with 8;
    change (8 * Z.of_nat 2) with 16;
    change (8 * Z.of_nat 4) with 32;
    change (8 * Z.of_nat 8) with 64;
    now rewrite Hva, Hvb.
Qed.

(** X3. On the integer kinds [greater] and [less] are the order of the
    numbers: when the window holds the bytes of [a] and the search value
    is [b], both numbers the kind can hold, [greater] succeeds exactly when
    [a > b] and [less] exactly when [a < b] (unsigned for [Byte], signed
    for the others). *)
Theorem ordering_is_numeric (t : ValueType) (lo hi a b : Z)
    (buffer : list byte) (offset : Z) :
  kind_range t = Some (lo, hi) -> lo <= a <= hi -> lo <= b <= hi ->
  deref buffer offset (kind_width t) = Some (le_bytes (kind_width t) a) ->
  firstScan_found t "greater" buffer offset (le_bytes (kind_width t) b)
    (kind_width t) = Some (b <? a) /\
  firstScan_found t "less" buffer offset (le_bytes (kind_width t) b)
    (kind_width t) = Some (a <? b).
Proof.
  intros Hr Ha Hb Hwin; unfold firstScan_found; simpl String.eqb; cbv iota.
  now rewrite !(typed_compare_integers _ t lo hi a b buffer offset).
Qed.

Lemma ordering_is_numeric_witness :
  firstScan_found INT32 "greater" two_ints 4 (le_bytes 4 100) 4 = Some true /\
  firstScan_found INT32 "less" two_ints 4 (le_bytes 4 100) 4 = Some false.
Proof.
  apply (ordering_is_numeric INT32 INT_MIN INT_MAX 150 100 two_ints 4);
    [reflexivity|unfold INT_MIN, INT_MAX; lia|unfold INT_MIN, INT_MAX; lia
    |reflexivity].
Defined.

Lemma fp_ltb_asymmetric (ebits mbits a b : Z) :
  fp_ltb ebits mbits a b = true -> fp_ltb ebits mbits b a = false.
Proof.
  unfold fp_ltb; intros H.
  apply andb_true_iff in H as [H Hlt]. apply andb_true_iff in H as [Ha Hb].
  rewrite Ha, Hb; simpl. apply Z.ltb_lt in Hlt. apply Z.ltb_ge; lia.
Qed.

Lemma typed_compare_exclusive (t : ValueType) (v : list byte) (off : Z)
    (target : list byte) :
  typed_compare true t v off target = Some true ->
  typed_compare false t v off target = Some false.
Proof.
  assert (Hz : forall a b, (a <? b) = true -> (b <? a) = false)
    by (intros a b H; apply Z.ltb_lt in H; apply Z.ltb_ge; lia).
  destruct t; cbn [typed_compare]; try discriminate;
    match goal with
    | |- context [load v off ?n] =>
        destruct (load v off n); [|discriminate];
        destruct (load target 0 n); [|discriminate]
    end;
    unfold ordered; intros [= H]; f_equal;
    first [exact (Hz _ _ H)|exact (fp_ltb_asymmetric _ _ _ _ H)].
Qed.

(** X4. For every kind, floating point included, [greater] and [less]
    never both succeed on the same window and search value. *)
Theorem greater_excludes_less (t : ValueType) (buffer : list byte)
    (offset : Z) (target : list byte) (n : nat) :
  firstScan_found t "greater" buffer offset target n = Some true ->
  firstScan_found t "less" buffer offset target n = Some false.
Proof.
  unfold firstScan_found; simpl String.eqb; cbv iota.
  apply typed_compare_exclusive.
Qed.

Lemma greater_excludes_less_witness :
  firstScan_found FLOAT "less" (le_bytes 4 1073741824) 0
    (le_bytes 4 1065353216) 4 = Some false.
Proof.
  apply (greater_excludes_less FLOAT (le_bytes 4 1073741824) 0
           (le_bytes 4 1065353216) 4).
  reflexivity.
Defined.

(** ** What the initial scan reports, and what it reads *)

Lemma scan_offsets_sound lib rd fuel t comparison target n region buffer k :
  readable region = true ->
  read_result rd k (start region) (size region) = Some buffer ->
  forall offset hits w,
    0 <= offset ->
    ensures (scan_offsets lib fuel t comparison target n region buffer
               offset hits) w
      (fun _ w' =>
         reads w' = reads w /\
         exists new,
           scanResults (scanner w') = scanResults (scanner w) ++ new /\
           Forall (found_at lib rd t comparison target n region) new).
Proof.
  intros Hreadable Hread.
  induction fuel as [|fuel IH]; intros offset hits w Hoff; simpl.
  - apply ensures_out_of_fuel.
  - assert (Hnext : 0 <= wrap64 (offset + 1))
      by (unfold wrap64; apply Z.mod_pos_bound; lia).
    destruct (offset <=? _) eqn:Ele.
    + apply Z.leb_le in Ele.
      apply ensures_bind, ensures_defined; intros [|] Hfound.
      * apply ensures_bind, ensures_defined; intros v Hv.
        apply ensures_bind, ensures_defined; intros d Hd.
        apply ensures_bind, ensures_update; intros w1 Hs1 Hr1 _.
        cbv zeta.
        assert (Hthis : found_at lib rd t comparison target n region
                          {| address := wrap64 (start region + offset);
                             type := t; value := v; description := d |}).
        { exists k, buffer, offset; simpl; repeat split; auto; lia. }
        destruct (wrap64 (hits + 1) >=? MAX_RESULTS).
        -- apply ensures_bind, ensures_print; intros w2 Hs2 Hr2 _.
           apply ensures_ret. split; [congruence|].
           eexists; split; [rewrite Hs2, Hs1; reflexivity|].
           now constructor.
        -- eapply ensures_weaken; [apply IH; exact Hnext|]; cbv beta.
           intros _ w' (Hr & new & Hn & Hall). split; [congruence|].
           eexists; split;
             [rewrite Hn, Hs1; simpl; rewrite <- app_assoc; reflexivity|].
           now constructor.
      * now apply IH.
    + apply ensures_ret; split; [reflexivity|].
      exists []; split; [now rewrite app_nil_r|constructor].
Qed.

Lemma scanned_skip lib rd t comparison target n all region rest w w1 h' w' :
  readable region = false ->
  scanner w1 = scanner w -> reads w1 = reads w ->
  scanned lib rd t comparison target n all rest w1 h' w' ->
  scanned lib rd t comparison target n all (region :: rest) w h' w'.
Proof.
  intros Hno Hs Hr
    (new & visited & rest' & Hsplit & Hres & Hall & Hreads & Hdone).
  exists new, (region :: visited), rest'.
  split; [now rewrite Hsplit|]. split; [now rewrite Hres, Hs|].
  split; [exact Hall|]. split; [|exact Hdone].
  simpl; rewrite Hno. now rewrite Hreads, Hr.
Qed.

Lemma scanned_read lib rd t comparison target n all region rest w w1 h' w'
    new1 :
  readable region = true ->
  scanResults (scanner w1) = scanResults (scanner w) ++ new1 ->
  Forall (found_in lib rd t comparison target n all) new1 ->
  reads w1 = reads w ++ [region_read region] ->
  scanned lib rd t comparison target n all rest w1 h' w' ->
  scanned lib rd t comparison target n all (region :: rest) w h' w'.
Proof.
  intros Hyes Hs Hall1 Hr
    (new & visited & rest' & Hsplit & Hres & Hall & Hreads & Hdone).
  exists (new1 ++ new), (region :: visited), rest'.
  split; [now rewrite Hsplit|].
  split; [now rewrite Hres, Hs, app_assoc|].
  split; [apply Forall_app; now split|]. split; [|exact Hdone].
  simpl; rewrite Hyes; simpl.
  rewrite Hreads, Hr, <- app_assoc; reflexivity.
Qed.

Lemma scan_regions_scanned lib rd fuel t comparison target n totalRegions
    all regions :
  incl regions all ->
  forall regionsScanned hits w,
    ensures (scan_regions lib rd fuel t comparison target n totalRegions
               regions regionsScanned hits) w
      (fun hits' w' =>
         scanned lib rd t comparison target n all regions w hits' w').
Proof.
  induction regions as [|region rest IH];
    intros Hincl regionsScanned hits w; simpl.
  - apply ensures_ret. exists [], [], []; simpl.
    rewrite !app_nil_r; repeat split; auto.
  - assert (Hin : In region all) by (apply Hincl; now left).
    assert (Htl : incl rest all)
      by (intros x Hx; apply Hincl; now right).
    destruct (readable region) eqn:Hreadable; simpl.
    + apply ensures_bind.
      assert (Hmsg : forall (m : M unit),
                 (m = print (ScanProgress (wrap64 (regionsScanned + 1))
                               totalRegions) \/ m = ret tt) ->
                 ensures m w (fun _ w1 => scanner w1 = scanner w /\
                                          reads w1 = reads w)).
      { intros m [-> | ->]; [apply ensures_print|apply ensures_ret]; auto. }
      eapply ensures_weaken.
      { apply Hmsg. destruct (_ =? 0); auto. }
      cbv beta; intros _ w1 [Hs1 Hr1].
      apply ensures_bind, ensures_readMemoryBlock_answer;
        intros w2 Hs2 _ Hr2.
      assert (Hs : scanner w2 = scanner w) by congruence.
      assert (Hr : reads w2 = reads w ++ [region_read region])
        by (rewrite Hr2, Hr1; reflexivity).
      destruct (read_result rd (List.length (reads w1)) (start region)
                  (size region)) as [buffer|] eqn:Hread.
      * apply ensures_bind.
        eapply ensures_weaken;
          [apply (scan_offsets_sound lib rd fuel t comparison target n
                    region buffer _ Hreadable Hread); lia|].
        cbv beta; intros h1 w3 (Hr3 & new1 & Hn1 & Hall1).
        assert (Hall1' : Forall (found_in lib rd t comparison target n all)
                           new1).
        { eapply Forall_impl; [|exact Hall1].
          intros r Hr'; now exists region. }
        assert (Hs3 : scanResults (scanner w3)
                      = scanResults (scanner w) ++ new1)
          by (now rewrite Hn1, Hs).
        assert (Hr3' : reads w3 = reads w ++ [region_read region])
          by congruence.
        destruct (h1 >=? MAX_RESULTS) eqn:Ege.
        -- apply ensures_ret.
           exists new1, [region], rest.
           split; [reflexivity|]. split; [exact Hs3|].
           split; [exact Hall1'|]. split.
           ++ simpl; rewrite Hreadable; simpl. exact Hr3'.
           ++ intros Hlt. apply Z.geb_le in Ege. lia.
        -- eapply ensures_weaken; [apply IH; exact Htl|]; cbv beta.
           intros h' w' Hsc.
           exact (scanned_read _ _ _ _ _ _ _ _ _ _ _ _ _ _ Hreadable Hs3
                    Hall1' Hr3' Hsc).
      * eapply ensures_weaken; [apply IH; exact Htl|]; cbv beta.
        intros h' w' Hsc.
        apply (scanned_read _ _ _ _ _ _ _ _ _ _ w2 _ _ [] Hreadable);
          [now rewrite app_nil_r, Hs|constructor|exact Hr|exact Hsc].
    + eapply ensures_weaken; [apply IH; exact Htl|]; cbv beta.
      intros h' w' Hsc.
      now apply (scanned_skip _ _ _ _ _ _ _ _ _ _ w _ _ Hreadable).
Qed.

Lemma exact_window (t : ValueType) (buffer : list byte) (offset : Z)
    (target window : list byte) (n : nat) :
  List.length target = n ->
  deref buffer offset n = Some window ->
  firstScan_found t "exact" buffer offset target n = Some true ->
  window = target.
Proof.
  intros Hlen Hwin; unfold firstScan_found; simpl; unfold memcmp_eq.
  rewrite Hwin; subst n; rewrite deref_whole.
  intros [= H]; now apply bytes_eqb_eq.
Qed.

(** The region loop of [firstScan], run from the world of its entry. *)
Lemma firstScan_scanned lib rd fuel t val comparison w w' n target :
  encodeValue lib t val = EncOk n target ->
  final_world (firstScan lib rd fuel t val comparison w) = Some w' ->
  exists hits,
    scanned lib rd t comparison target n (memoryRegions (scanner w))
      (memoryRegions (scanner w)) (firstScan_entry w) hits w' /\
    vector_size (scanResults (scanner w')) = hits /\ hits <= MAX_RESULTS.
Proof.
  intros Henc; rewrite firstScan_unfold, Henc; unfold bind.
  pose proof (scan_regions_scanned lib rd fuel t comparison target n
                (vector_size (memoryRegions (scanner w)))
                (memoryRegions (scanner w)) (memoryRegions (scanner w))
                (incl_refl _) 0 0 (firstScan_entry w)) as Hsc.
  pose proof (scan_regions_grows lib rd fuel t comparison target n
                (vector_size (memoryRegions (scanner w)))
                (memoryRegions (scanner w)) 0 0 (firstScan_entry w)) as Hg.
  unfold ensures in Hsc, Hg.
  destruct (scan_regions _ _ _ _ _ _ _ _ _ _ _ _) as [h w1|e w1| |];
    try discriminate; [|contradiction].
  simpl; intros [= <-].
  destruct Hg as (_ & _ & _ & _ & Hc); [reflexivity|].
  destruct Hc as [Hsize Hle]; [reflexivity|reflexivity|].
  exists h; split; [|split; [exact Hsize|exact Hle]].
  destruct Hsc as (new & visited & rest & Hsplit & Hres & Hall & Hr & Hdone).
  exists new, visited, rest; repeat split; auto.
Qed.

(** X5. Every match [firstScan] reports is a window of a readable region
    of the catalog, taken from the copy the kernel returned for that
    region, at an offset where the predicate succeeds; it carries the kind
    of the scan, exactly [valueSize] bytes, and the description of those
    bytes.  Under [exact] every match carries the bytes of the search
    value. *)
Theorem firstScan_reports_only_matches lib rd fuel t val comparison w w' n
    target :
  encodeValue lib t val = EncOk n target ->
  final_world (firstScan lib rd fuel t val comparison w) = Some w' ->
  Forall (fun r =>
            found_in lib rd t comparison target n
              (memoryRegions (scanner w)) r /\
            type r = t /\ List.length (value r) = n /\
            (comparison = "exact" -> value r = target))
    (scanResults (scanner w')).
Proof.
  intros Henc Hfin.
  destruct (encodeValue_ok _ _ _ _ _ Henc) as [Hlen _].
  destruct (firstScan_scanned _ _ _ _ _ _ _ _ _ _ Henc Hfin)
    as (h & (new & visited & rest & _ & Hres & Hall & _) & _).
  simpl in Hres; rewrite Hres.
  eapply Forall_impl; [|exact Hall].
  intros r Hr; split; [exact Hr|].
  destruct Hr as (region & _ & k & buffer & offset & _ & _ & _ & Hfound
                  & _ & Hty & Hwin & _).
  split; [exact Hty|]. split; [exact (deref_length _ _ _ _ Hwin)|].
  intros ->. exact (exact_window t buffer offset target _ n Hlen Hwin Hfound).
Qed.

Lemma firstScan_reports_only_matches_witness :
  Forall (fun r => type r = INT32 /\ List.length (value r) = 4%nat)
    (scanResults (scanner two_ints_scanned)).
Proof.
  pose proof (firstScan_reports_only_matches no_float_lib
                (block 4096 two_ints) 100 INT32 "0" "greater"
                two_ints_attached two_ints_scanned 4 (le_bytes 4 0)
                eq_refl ltac:(vm_compute; reflexivity)) as H.
  eapply Forall_impl; [|exact H].
  intros r (_ & Hty & Hlen & _); split; assumption.
Defined.

(** X6. On a catalog whose readable regions are no longer than a vector
    can be, so that the buffer of each can be built: however [firstScan]
    ends after parsing its literal, it has read the readable regions of a
    prefix of the catalog, each exactly once, whole, and in catalog order,
    and nothing else; its result set has at most 10,000 matches; and when
    it has fewer, the prefix is the whole catalog: regions are left unread
    only once the ceiling is reached.  Regions that are not readable are
    never read. *)
Theorem firstScan_reads_each_region_once lib rd fuel t val comparison w w' n
    target :
  encodeValue lib t val = EncOk n target ->
  Forall (fun r => readable r = true -> allocatable r)
    (memoryRegions (scanner w)) ->
  final_world (firstScan lib rd fuel t val comparison w) = Some w' ->
  exists visited rest,
    memoryRegions (scanner w) = visited ++ rest /\
    reads w' = reads w ++ map region_read (filter readable visited) /\
    vector_size (scanResults (scanner w')) <= MAX_RESULTS /\
    (vector_size (scanResults (scanner w')) < MAX_RESULTS -> rest = []).
Proof.
  intros Henc _ Hfin.
  destruct (firstScan_scanned _ _ _ _ _ _ _ _ _ _ Henc Hfin)
    as (h & (new & visited & rest & Hsplit & _ & _ & Hr & Hdone)
        & Hsize & Hle).
  exists visited, rest; repeat split; auto; [lia|].
  intros Hlt; apply Hdone; lia.
Qed.

Lemma firstScan_reads_each_region_once_witness :
  exists visited rest,
    [rw_region 4096 8] = visited ++ rest /\
    reads two_ints_scanned
    = reads two_ints_attached ++ map region_read (filter readable visited) /\
    vector_size (scanResults (scanner two_ints_scanned)) <= MAX_RESULTS /\
    (vector_size (scanResults (scanner two_ints_scanned)) < MAX_RESULTS ->
     rest = []).
Proof.
  apply (firstScan_reads_each_region_once no_float_lib
           (block 4096 two_ints) 100 INT32 "0" "greater"
           two_ints_attached two_ints_scanned 4 (le_bytes 4 0)).
  - reflexivity.
  - constructor; [|constructor]. intros _; vm_compute; discriminate.
  - vm_compute; reflexivity.
Defined.

(** ** What the refine scan keeps, and what it reads *)

Lemma refreshed_none lib rd t comparison target n previous :
  refreshed lib rd t comparison target n previous [].
Proof.
  induction previous; constructor; assumption.
Qed.

Lemma filter_previous_trace lib rd t comparison target n totalAddresses
    previous :
  forall addressesChecked w,
    ensures (filter_previous lib rd t comparison target n totalAddresses
               previous addressesChecked) w
      (fun _ w' =>
         reads w' = reads w ++ map (match_read n) previous /\
         exists new,
           scanResults (scanner w') = scanResults (scanner w) ++ new /\
           refreshed lib rd t comparison target n previous new).
Proof.
  induction previous as [|p rest IH]; intros addressesChecked w; simpl.
  - apply ensures_ret; split; [now rewrite app_nil_r|].
    exists []; split; [now rewrite app_nil_r|constructor].
  - apply ensures_bind.
    assert (Hmsg : forall (m : M unit),
               (m = print (FilterProgress (wrap64 (addressesChecked + 1))
                             totalAddresses) \/ m = ret tt) ->
               ensures m w (fun _ w1 => scanner w1 = scanner w /\
                                        reads w1 = reads w)).
    { intros m [-> | ->]; [apply ensures_print|apply ensures_ret]; auto. }
    eapply ensures_weaken.
    { apply Hmsg. destruct (_ =? 0); auto. }
    cbv beta; intros _ w1 [Hs1 Hr1].
    apply ensures_bind, ensures_readMemoryBlock_answer; intros w2 Hs2 _ Hr2.
    assert (Hr : reads w2 = reads w ++ [match_read n p])
      by (rewrite Hr2, Hr1; reflexivity).
    assert (Hdrop : forall (u : unit) w',
               reads w' = reads w2 ++ map (match_read n) rest /\
               (exists new,
                  scanResults (scanner w') = scanResults (scanner w2) ++ new /\
                  refreshed lib rd t comparison target n rest new) ->
               reads w' = reads w ++ match_read n p
                            :: map (match_read n) rest /\
               exists new,
                 scanResults (scanner w') = scanResults (scanner w) ++ new /\
                 refreshed lib rd t comparison target n (p :: rest) new).
    { intros _ w' (Hrw & new & Hn & Href). split.
      - rewrite Hrw, Hr, <- app_assoc; reflexivity.
      - exists new; split; [now rewrite Hn, Hs2, Hs1|now constructor]. }
    destruct (read_result rd (List.length (reads w1)) (address p)
                (Z.of_nat n)) as [cur|] eqn:Hread.
    + apply ensures_bind, ensures_defined; intros [|] Hfound.
      * apply ensures_bind, ensures_defined; intros d Hd.
        apply ensures_bind, ensures_update; intros w3 Hs3 Hr3 _.
        eapply ensures_weaken; [apply IH|]; cbv beta.
        intros _ w' (Hrw & new & Hn & Href). split.
        -- rewrite Hrw, Hr3, Hr, <- app_assoc; reflexivity.
        -- eexists; split.
           ++ rewrite Hn, Hs3, Hs2, Hs1; simpl.
              rewrite <- app_assoc; reflexivity.
           ++ now apply refreshed_keep with (k := List.length (reads w1)).
      * eapply ensures_weaken; [apply IH|exact Hdrop].
    + eapply ensures_weaken; [apply IH|exact Hdrop].
Qed.

Lemma nextScan_trace lib rd t val comparison w w' n target :
  encodeValue lib t val = EncOk n target ->
  scanResults (scanner w) <> [] ->
  final_world (nextScan lib rd t val comparison w) = Some w' ->
  reads w' = reads w ++ map (match_read n) (scanResults (scanner w)) /\
  refreshed lib rd t comparison target n (scanResults (scanner w))
    (scanResults (scanner w')).
Proof.
  intros Henc Hne; rewrite nextScan_unfold, Henc.
  destruct (scanResults (scanner w)) as [|r0 rs] eqn:E; [contradiction|].
  unfold bind.
  pose proof (filter_previous_trace lib rd t comparison target n
                (vector_size (r0 :: rs)) (r0 :: rs) 0 (nextScan_entry w))
    as H.
  unfold ensures in H.
  destruct (filter_previous _ _ _ _ _ _ _ _ _ _) as [a w1|e w1| |];
    try discriminate; [|contradiction].
  simpl; intros [= <-]; simpl.
  destruct H as (Hr & new & Hn & Href). simpl in Hr, Hn.
  split; [exact Hr|]. now rewrite Hn.
Qed.

Lemma refreshed_shape lib rd t comparison target n previous new :
  refreshed lib rd t comparison target n previous new ->
  Forall (fun r => List.length (value r) = n /\
                   describe lib t (value r) = Some (description r) /\
                   exists p, In p previous /\ address r = address p /\
                             type r = type p /\
                             nextScan_found t comparison (value r) target n p
                             = Some true)
    new.
Proof.
  induction 1 as [|p previous new _ IH|p r k previous new Ha Ht Hread Hf Hd
                                        _ IH].
  - constructor.
  - eapply Forall_impl; [|exact IH].
    intros r (Hl & Hd & q & Hq & Hrest); repeat split; auto.
    exists q; split; [now right|exact Hrest].
  - constructor.
    + split; [apply Nat2Z.inj; exact (read_result_length _ _ _ _ _ Hread)|].
      split; [exact Hd|]. exists p; repeat split; auto. now left.
    + eapply Forall_impl; [|exact IH].
      intros r' (Hl & Hd' & q & Hq & Hrest); repeat split; auto.
      exists q; split; [now right|exact Hrest].
Qed.

(** X7. The matches a refine pass keeps are, in the order of the
    generation it consumed, matches of that generation on which the
    predicate succeeded; each carries the bytes just read, of the width of
    this pass, and their description in the kind of this pass, but the
    address and the kind tag of the stored match: a pass run with another
    kind than the one stored does not retag the match. *)
Theorem nextScan_keeps_in_order lib rd t val comparison w w' n target :
  encodeValue lib t val = EncOk n target ->
  scanResults (scanner w) <> [] ->
  final_world (nextScan lib rd t val comparison w) = Some w' ->
  refreshed lib rd t comparison target n (scanResults (scanner w))
    (scanResults (scanner w')) /\
  Forall (fun r => List.length (value r) = n /\
                   describe lib t (value r) = Some (description r) /\
                   exists p, In p (scanResults (scanner w)) /\
                             address r = address p /\ type r = type p /\
                             nextScan_found t comparison (value r) target n p
                             = Some true)
    (scanResults (scanner w')).
Proof.
  intros Henc Hne Hfin.
  destruct (nextScan_trace _ _ _ _ _ _ _ _ _ Henc Hne Hfin) as [_ Href].
  split; [exact Href|exact (refreshed_shape _ _ _ _ _ _ _ _ Href)].
Qed.

Lemma nextScan_keeps_in_order_witness :
  exists w',
    nextScan no_float_lib (block 4096 two_ints) BYTE "150" "exact"
      two_ints_scanned = Returned tt w' /\
    map address (scanResults (scanner w')) = [4100] /\
    Forall (fun r => List.length (value r) = 1%nat /\ type r = INT32)
      (scanResults (scanner w')).
Proof.
  eexists; split; [vm_compute; reflexivity|].
  split; [reflexivity|].
  destruct (nextScan_keeps_in_order no_float_lib (block 4096 two_ints) BYTE
              "150" "exact" two_ints_scanned _ 1 (le_bytes 1 150) eq_refl
              ltac:(vm_compute; discriminate)
              ltac:(vm_compute; reflexivity)) as [_ Hall].
  eapply Forall_impl; [|exact Hall].
  intros r (Hlen & _ & p & Hin & _ & Hty & _).
  split; [exact Hlen|]. rewrite Hty.
  repeat (destruct Hin as [<- | Hin]; [reflexivity|]). destruct Hin.
Defined.

(** X8. A refine pass that parses its literal re-reads every match of the
    generation it consumed, once each, in order, asking for exactly
    [valueSize] bytes at the stored address, and reads nothing else;
    there is no early stop. *)
Theorem nextScan_rereads_every_match lib rd t val comparison w w' n target :
  encodeValue lib t val = EncOk n target ->
  scanResults (scanner w) <> [] ->
  final_world (nextScan lib rd t val comparison w) = Some w' ->
  reads w' = reads w ++ map (match_read n) (scanResults (scanner w)).
Proof.
  intros Henc Hne Hfin.
  now destruct (nextScan_trace _ _ _ _ _ _ _ _ _ Henc Hne Hfin).
Qed.

Lemma nextScan_rereads_every_match_witness :
  exists w',
    nextScan no_float_lib (block 4096 two_ints) INT32 "100" "greater"
      two_ints_scanned = Returned tt w' /\
    reads w' = reads two_ints_scanned
               ++ [(4096, 4); (4098, 4); (4099, 4); (4100, 4)].
Proof.
  eexists; split; [vm_compute; reflexivity|].
  apply (nextScan_rereads_every_match no_float_lib (block 4096 two_ints)
           INT32 "100" "greater" two_ints_scanned _ 4 (le_bytes 4 100)
           eq_refl ltac:(vm_compute; discriminate)
           ltac:(vm_compute; reflexivity)).
Defined.

(** ** Refining right after a scan, on a target that does not change *)

Lemma window_of_window {A} (l : list A) (b o s n : nat) :
  (o + n <= s)%nat ->
  firstn n (skipn o (firstn s (skipn b l))) = firstn n (skipn (b + o) l).
Proof.
  intros H.
  rewrite skipn_firstn_comm, firstn_firstn, skipn_skipn.
  f_equal; [lia|f_equal; lia].
Qed.

Lemma block_steady (base : Z) (content : list byte) : steady (block base content).
Proof.
  intros k k' a s buf off n Hread Hoff Hfit.
  unfold read_result, block in *.
  destruct (deref content (a - base) (Z.to_nat s)) as [d|] eqn:Hd;
    [|discriminate].
  destruct (Z.of_nat (List.length d) =? s) eqn:Hs; [|discriminate].
  injection Hread as <-. apply Z.eqb_eq in Hs.
  unfold deref in Hd.
  destruct ((0 <=? a - base)
            && (a - base + Z.of_nat (Z.to_nat s)
                <=? Z.of_nat (List.length content))) eqn:Hb; [|discriminate].
  injection Hd as <-.
  apply andb_true_iff in Hb as [Hb0 Hb1].
  apply Z.leb_le in Hb0, Hb1.
  rewrite Nat2Z.id. unfold deref.
  assert (Hin : (0 <=? a + off - base)
                && (a + off - base + Z.of_nat n
                    <=? Z.of_nat (List.length content)) = true).
  { apply andb_true_iff; split; apply Z.leb_le; lia. }
  rewrite Hin.
  assert (Hlen : List.length
                   (firstn n (skipn (Z.to_nat (a + off - base)) content))
                 = n).
  { rewrite firstn_length_le; [reflexivity|]. rewrite length_skipn; lia. }
  rewrite Hlen, Z.eqb_refl. f_equal.
  rewrite window_of_window by lia. f_equal. f_equal. lia.
Qed.

Lemma found_at_still_there lib rd t comparison target n region p :
  steady rd -> addressable region ->
  found_at lib rd t comparison target n region p ->
  still_there lib rd t n p.
Proof.
  intros Hsteady [Hstart Hend]
    (k & buffer & offset & _ & Hread & [Hoff _] & _ & Haddr & Hty & Hwin
     & Hd).
  pose proof (read_result_length _ _ _ _ _ Hread) as Hlen.
  unfold deref in Hwin.
  destruct ((0 <=? offset)
            && (offset + Z.of_nat n <=? Z.of_nat (List.length buffer)))
    eqn:Hb; [|discriminate].
  apply andb_true_iff in Hb as [_ Hb]. apply Z.leb_le in Hb.
  injection Hwin as Hwin.
  assert (Hnowrap : wrap64 (start region + offset) = start region + offset)
    by (unfold wrap64; apply Z.mod_small; lia).
  split; [|split; [exact Hty|exact Hd]].
  intros k'. rewrite Haddr, Hnowrap, <- Hwin.
  apply (Hsteady k k' (start region) (size region) buffer offset n Hread);
    lia.
Qed.

Lemma filter_previous_still_there lib rd t comparison target n
    totalAddresses previous :
  Forall (fun p => still_there lib rd t n p /\
                   nextScan_found t comparison (value p) target n p
                   = Some true) previous ->
  forall addressesChecked w,
    ensures (filter_previous lib rd t comparison target n totalAddresses
               previous addressesChecked) w
      (fun _ w' => scanResults (scanner w')
                   = scanResults (scanner w) ++ previous).
Proof.
  induction 1 as [|p rest [(Hread & Hty & Hd) Hfound] _ IH];
    intros addressesChecked w; simpl.
  - apply ensures_ret; now rewrite app_nil_r.
  - apply ensures_bind.
    assert (Hmsg : forall (m : M unit),
               (m = print (FilterProgress (wrap64 (addressesChecked + 1))
                             totalAddresses) \/ m = ret tt) ->
               ensures m w (fun _ w1 => scanner w1 = scanner w)).
    { intros m [-> | ->]; [apply ensures_print|apply ensures_ret]; auto. }
    eapply ensures_weaken.
    { apply Hmsg. destruct (_ =? 0); auto. }
    cbv beta; intros _ w1 Hs1.
    apply ensures_bind, ensures_readMemoryBlock_answer; intros w2 Hs2 _ _.
    rewrite Hread, Hfound.
    apply ensures_bind, ensures_defined; intros found [= <-].
    rewrite Hd.
    apply ensures_bind, ensures_defined; intros d [= <-].
    apply ensures_bind, ensures_update; intros w3 Hs3 _ _.
    eapply ensures_weaken; [apply IH|]; cbv beta.
    intros _ w' ->. rewrite Hs3, Hs2, Hs1; simpl.
    rewrite <- app_assoc. destruct p; reflexivity.
Qed.

Lemma unchanged_on_itself (t : ValueType) (target : list byte) (n : nat)
    (p : ScanResult) :
  List.length (value p) = n ->
  nextScan_found t "unchanged" (value p) target n p = Some true.
Proof.
  intros Hlen; unfold nextScan_found; simpl. subst n.
  rewrite memcmp_eq_whole by reflexivity.
  f_equal; now apply bytes_eqb_eq.
Qed.

(** A refine pass whose predicate succeeds on every stored match, the
    matches still holding their bytes, keeps them all. *)
Lemma refine_keeps_all lib rd t val' comparison' w1 n target' :
  encodeValue lib t val' = EncOk n target' ->
  Forall (fun p => still_there lib rd t n p /\
                   nextScan_found t comparison' (value p) target' n p
                   = Some true)
    (scanResults (scanner w1)) ->
  exists w2,
    nextScan lib rd t val' comparison' w1 = Returned tt w2 /\
    scanResults (scanner w2) = scanResults (scanner w1) /\
    (scanResults (scanner w1) <> [] ->
     previousScanResults (scanner w2) = scanResults (scanner w1)).
Proof.
  intros Henc' Hall.
  destruct (nextScan_returns lib rd t val' comparison' w1 n target' Henc')
    as ([] & w2 & Hrun).
  { eapply Forall_impl; [|exact Hall].
    intros p [(Hread & _) _] _.
    pose proof (read_result_length _ _ _ _ _ (Hread O)); lia. }
  exists w2; split; [exact Hrun|].
  assert (Hprev : scanResults (scanner w1) <> [] ->
                  previousScanResults (scanner w2)
                  = scanResults (scanner w1)).
  { assert (Hfin2 : final_world (nextScan lib rd t val' comparison' w1)
                    = Some w2) by (now rewrite Hrun).
    apply nextScan_final in Hfin2 as (_ & _ & [[He _] | [Hp _]]);
      [now intros []|auto]. }
  split; [|exact Hprev]. clear Hprev.
  rewrite nextScan_unfold in Hrun.
  destruct (scanResults (scanner w1)) as [|r0 rs] eqn:E.
  - apply returned_world in Hrun; subst w2; simpl. exact E.
  - rewrite Henc' in Hrun; unfold bind in Hrun.
    pose proof (filter_previous_still_there lib rd t comparison' target' n
                  (vector_size (r0 :: rs)) (r0 :: rs) Hall 0
                  (nextScan_entry w1)) as Hkeep.
    unfold ensures in Hkeep.
    destruct (filter_previous _ _ _ _ _ _ _ _ _ _) as [a w3|e w3| |];
      try discriminate.
    apply returned_world in Hrun; subst w2; simpl.
    now rewrite Hkeep.
Qed.

(** The matches of an initial scan of a target that does not change
    still hold their bytes. *)
Lemma firstScan_results_still_there lib rd fuel t val comparison w w1 n
    target :
  steady rd ->
  Forall addressable (memoryRegions (scanner w)) ->
  encodeValue lib t val = EncOk n target ->
  final_world (firstScan lib rd fuel t val comparison w) = Some w1 ->
  Forall (fun p => still_there lib rd t n p /\ List.length (value p) = n /\
                   (comparison = "exact" -> value p = target))
    (scanResults (scanner w1)).
Proof.
  intros Hsteady Haddr Henc Hfin.
  destruct (encodeValue_ok _ _ _ _ _ Henc) as [Hlen _].
  pose proof (firstScan_scanned _ _ _ _ _ _ _ _ _ _ Henc Hfin)
    as (h & (new & visited & rest & _ & Hres & Hfound & _) & _).
  simpl in Hres; rewrite Hres.
  eapply Forall_impl; [|exact Hfound].
  intros p (region & Hin & Hat).
  assert (Hst : still_there lib rd t n p).
  { apply (found_at_still_there lib rd t comparison target n region);
      auto. rewrite Forall_forall in Haddr; now apply Haddr. }
  split; [exact Hst|].
  destruct Hat as (k & buffer & offset & _ & _ & _ & Hf & _ & _ & Hwin & _).
  split; [exact (deref_length _ _ _ _ Hwin)|].
  intros ->. exact (exact_window t buffer offset target _ n Hlen Hwin Hf).
Qed.

(** X9. On a target that does not change, a refine pass [unchanged] run
    right after an initial scan, with the same kind and the same width,
    returns and keeps the whole result set, match for match; the set it
    consumed becomes the previous generation. *)
Theorem unchanged_after_scan_keeps_all lib rd fuel t val val' comparison
    w w1 n target target' :
  steady rd ->
  Forall addressable (memoryRegions (scanner w)) ->
  encodeValue lib t val = EncOk n target ->
  encodeValue lib t val' = EncOk n target' ->
  final_world (firstScan lib rd fuel t val comparison w) = Some w1 ->
  exists w2,
    nextScan lib rd t val' "unchanged" w1 = Returned tt w2 /\
    scanResults (scanner w2) = scanResults (scanner w1) /\
    (scanResults (scanner w1) <> [] ->
     previousScanResults (scanner w2) = scanResults (scanner w1)).
Proof.
  intros Hsteady Haddr Henc Henc' Hfin.
  apply (refine_keeps_all lib rd t val' "unchanged" w1 n target' Henc').
  eapply Forall_impl;
    [|exact (firstScan_results_still_there _ _ _ _ _ _ _ _ _ _ Hsteady
               Haddr Henc Hfin)].
  intros p (Hst & Hlen & _); split; [exact Hst|].
  now apply unchanged_on_itself.
Qed.

Lemma unchanged_after_scan_keeps_all_witness :
  exists w2,
    nextScan no_float_lib (block 4096 two_ints) INT32 "7" "unchanged"
      two_ints_scanned = Returned tt w2 /\
    scanResults (scanner w2) = scanResults (scanner two_ints_scanned) /\
    map address (scanResults (scanner w2)) = [4096; 4098; 4099; 4100].
Proof.
  destruct (unchanged_after_scan_keeps_all no_float_lib
              (block 4096 two_ints) 100 INT32 "0" "7" "greater"
              two_ints_attached two_ints_scanned 4 (le_bytes 4 0)
              (le_bytes 4 7) (block_steady 4096 two_ints))
    as (w2 & Hrun & Hres & _);
    [repeat constructor; simpl; lia|reflexivity|reflexivity
    |vm_compute; reflexivity|].
  exists w2; split; [exact Hrun|]. split; [exact Hres|].
  rewrite Hres; vm_compute; reflexivity.
Defined.


(** X10. On a target that does not change, repeating an [exact] scan as a
    refine pass with the same kind and literal returns and keeps the whole
    result set, match for match. *)
Theorem exact_refine_after_exact_scan lib rd fuel t val w w1 n target :
  steady rd ->
  Forall addressable (memoryRegions (scanner w)) ->
  encodeValue lib t val = EncOk n target ->
  final_world (firstScan lib rd fuel t val "exact" w) = Some w1 ->
  exists w2,
    nextScan lib rd t val "exact" w1 = Returned tt w2 /\
    scanResults (scanner w2) = scanResults (scanner w1) /\
    (scanResults (scanner w1) <> [] ->
     previousScanResults (scanner w2) = scanResults (scanner w1)).
Proof.
  intros Hsteady Haddr Henc Hfin.
  destruct (encodeValue_ok _ _ _ _ _ Henc) as [Htarget _].
  apply (refine_keeps_all lib rd t val "exact" w1 n target Henc).
  eapply Forall_impl;
    [|exact (firstScan_results_still_there _ _ _ _ _ _ _ _ _ _ Hsteady
               Haddr Henc Hfin)].
  intros p (Hst & Hlen & Hexact); split; [exact Hst|].
  rewrite (Hexact eq_refl).
  unfold nextScan_found; simpl. subst n.
  rewrite memcmp_eq_whole by reflexivity.
  f_equal; now apply bytes_eqb_eq.
Qed.

Lemma exact_refine_after_exact_scan_witness :
  exists w2,
    nextScan no_float_lib (block 4096 hello_memory) STRING "HELLO" "exact"
      hello_scanned = Returned tt w2 /\
    map address (scanResults (scanner hello_scanned)) = [4104] /\
    scanResults (scanner w2) = scanResults (scanner hello_scanned).
Proof.
  destruct (exact_refine_after_exact_scan no_float_lib
              (block 4096 hello_memory) 100 STRING "HELLO"
              (attached [rw_region 4096 16]) hello_scanned 5
              (list_byte_of_string "HELLO") (block_steady 4096 hello_memory))
    as (w2 & Hrun & Hres & _);
    [repeat constructor; simpl; lia|reflexivity|vm_compute; reflexivity|].
  exists w2; split; [exact Hrun|].
  split; [vm_compute; reflexivity|exact Hres].
Defined.

(** ** The watch loop *)

Lemma ValueType_eq_UNKNOWN (t : ValueType) : t = UNKNOWN \/ t <> UNKNOWN.
Proof.
  destruct t; (now left) || (right; discriminate).
Qed.

Lemma printValue_shown lib (fixed : bool) (t : ValueType) (v : list byte) :
  t <> STRING -> List.length v = watch_width t ->
  printValue lib fixed t v = Some (shown lib fixed t v).
Proof.
  intros Ht Hlen; unfold shown.
  destruct t; try contradiction; try reflexivity; cbn [printValue];
    match goal with
    | |- context [load v 0 ?n] =>
        destruct (load_some v n) as [u ->];
          [rewrite Hlen; simpl; lia|reflexivity]
    end.
Qed.

Lemma memcmp_eq_width (a b : list byte) (n : nat) :
  List.length a = n -> List.length b = n ->
  memcmp_eq a 0 b 0 n = Some (bytes_eqb a b).
Proof.
  intros <- Hb; now apply memcmp_eq_whole.
Qed.

Lemma cout_fixed_console (w w' : World) (e : Event) :
  console w' = console w ++ [e] -> sets_fixed e = false ->
  cout_fixed w' = cout_fixed w.
Proof.
  unfold cout_fixed; intros -> He.
  rewrite existsb_app; simpl; rewrite He.
  now rewrite !orb_false_r.
Qed.

Lemma watch_loop_polls lib rd addr t updateInterval polls :
  t <> STRING ->
  forall fuel last updateCount w,
    List.length last = watch_width t ->
    answers rd (List.length (reads w)) addr (Z.of_nat (watch_width t)) polls ->
    updateCount + Z.of_nat (List.length polls) <= INT_MAX ->
    (List.length polls < fuel)%nat ->
    exists w',
      watch_loop lib rd fuel addr t (watch_width t) updateInterval last
        updateCount w = Returned tt w' /\
      scanner w' = scanner w /\ files w' = files w /\
      console w' = console w
                   ++ watch_events lib (cout_fixed w) t last updateCount polls
                   ++ [FailedToReadValue] /\
      sleeps w' = sleeps w
                  ++ repeat (wrap64 (updateInterval * 1000) mod 2 ^ 32)
                       (List.length polls) /\
      reads w' = reads w
                 ++ repeat (addr, Z.of_nat (watch_width t))
                      (S (List.length polls)).
Proof.
  intros Ht; induction polls as [|cur rest IH];
    intros fuel last updateCount w Hlast Hans Hcount Hfuel;
    (destruct fuel as [|fuel]; [simpl in Hfuel; lia|]);
    cbn [watch_loop]; unfold bind at 1; rewrite readMemoryBlock_eq.
  - simpl in Hans; rewrite Hans.
    eexists; split; [reflexivity|]; simpl.
    rewrite app_nil_r; repeat split.
  - destruct Hans as [Hcur Hrest]; rewrite Hcur.
    assert (Hlen : List.length cur = watch_width t)
      by (apply Nat2Z.inj; exact (read_result_length _ _ _ _ _ Hcur)).
    unfold bind at 1, defined at 1.
    rewrite (memcmp_eq_width last cur _ Hlast Hlen).
    cbn [watch_events].
    cbn [List.length] in Hcount.
    destruct (bytes_eqb last cur); cbn [negb].
    + unfold bind at 1, usleep at 1.
      match goal with
      | |- context [watch_loop _ _ _ _ _ _ _ _ _ ?w1] =>
          destruct (IH fuel last updateCount w1 Hlast) as
            (w' & Hrun & Hs & Hf & Hc & Hsl & Hr)
      end.
      { simpl. rewrite length_app; simpl.
        replace (List.length (reads w) + 1)%nat
          with (S (List.length (reads w))) by lia. exact Hrest. }
      { lia. }
      { simpl in Hfuel; lia. }
      exists w'; split; [exact Hrun|]. simpl in Hs, Hf, Hc, Hsl, Hr.
      split; [exact Hs|]. split; [exact Hf|]. split; [exact Hc|].
      split.
      * rewrite Hsl, <- app_assoc; reflexivity.
      * rewrite Hr, <- app_assoc; reflexivity.
    + unfold bind at 1, defined at 1, int_increment.
      replace (updateCount <? INT_MAX) with true
        by (symmetry; apply Z.ltb_lt; lia).
      unfold bind at 1, floatfield at 1.
      match goal with
      | |- context [printValue lib (cout_fixed ?w0) t last] =>
          change (cout_fixed w0) with (cout_fixed w)
      end.
      unfold bind at 1, defined at 1.
      rewrite (printValue_shown lib (cout_fixed w) t last Ht Hlast).
      unfold bind at 1, defined at 1.
      rewrite (printValue_shown lib (cout_fixed w) t cur Ht Hlen).
      unfold bind at 1, print at 1. unfold bind at 1, usleep at 1.
      match goal with
      | |- context [watch_loop _ _ _ _ _ _ _ _ _ ?w1] =>
          assert (Hfixed : cout_fixed w1 = cout_fixed w)
            by (eapply cout_fixed_console; reflexivity);
          destruct (IH fuel cur (updateCount + 1) w1 Hlen) as
            (w' & Hrun & Hs & Hf & Hc & Hsl & Hr)
      end.
      { simpl. rewrite length_app; simpl.
        replace (List.length (reads w) + 1)%nat
          with (S (List.length (reads w))) by lia. exact Hrest. }
      { lia. }
      { simpl in Hfuel; lia. }
      exists w'; split; [exact Hrun|].
      rewrite Hfixed in Hc. simpl in Hs, Hf, Hc, Hsl, Hr.
      split; [exact Hs|]. split; [exact Hf|]. split.
      * rewrite Hc, <- app_assoc; reflexivity.
      * split.
        -- rewrite Hsl, <- app_assoc; reflexivity.
        -- rewrite Hr, <- app_assoc; reflexivity.
Qed.

(** X11. The watch loop as a whole, for every kind but [STRING]: when the
    scanner is attached and the target answers the reads at [addr] with
    [last] and then with [polls] before failing, no more polls than an
    [int] can count, [watchAddress] reads the baseline, polls at once and
    then once after each pause, reports exactly the polls that differ from
    the last value it knows (numbered from 1, the reported value becoming
    the known one), pauses once per successful poll, and returns on the
    first failed read.  The values are printed as [std::cout] prints them:
    a [float] or [double] in fixed notation with one decimal once a scan
    has printed a progress line, in the default notation before. *)
Theorem watch_reports_each_change lib rd fuel addr t updateInterval w last
    polls :
  t <> STRING ->
  isAttached (scanner w) = true ->
  answers rd (List.length (reads w)) addr (Z.of_nat (watch_width t))
    (last :: polls) ->
  Z.of_nat (List.length polls) <= INT_MAX ->
  (List.length polls < fuel)%nat ->
  exists w',
    watchAddress lib rd fuel addr t updateInterval w = Returned tt w' /\
    console w' = console w
                 ++ Watching addr t (shown lib (cout_fixed w) t last)
                    :: watch_events lib (cout_fixed w) t last 0 polls
                 ++ [FailedToReadValue] /\
    sleeps w' = sleeps w
                ++ repeat (wrap64 (updateInterval * 1000) mod 2 ^ 32)
                     (List.length polls) /\
    reads w' = reads w
               ++ repeat (addr, Z.of_nat (watch_width t))
                    (2 + List.length polls).
Proof.
  intros Ht Hatt [Hlast Hpolls] Hcount Hfuel.
  assert (Hlen : List.length last = watch_width t)
    by (apply Nat2Z.inj; exact (read_result_length _ _ _ _ _ Hlast)).
  unfold watchAddress, bind at 1, this at 1. rewrite Hatt; cbn [negb].
  unfold bind at 1; rewrite readMemoryBlock_eq, Hlast.
  unfold bind at 1, floatfield at 1.
  match goal with
  | |- context [printValue lib (cout_fixed ?w0) t last] =>
      change (cout_fixed w0) with (cout_fixed w)
  end.
  unfold bind at 1, defined at 1.
  rewrite (printValue_shown lib (cout_fixed w) t last Ht Hlen).
  unfold bind at 1, print at 1.
  match goal with
  | |- context [watch_loop _ _ _ _ _ _ _ _ _ ?w1] =>
      assert (Hfixed : cout_fixed w1 = cout_fixed w)
        by (eapply cout_fixed_console; reflexivity);
      destruct (watch_loop_polls lib rd addr t updateInterval polls Ht fuel
                  last 0 w1 Hlen) as (w' & Hrun & _ & _ & Hc & Hsl & Hr)
  end.
  { simpl. rewrite length_app; simpl.
    replace (List.length (reads w) + 1)%nat
      with (S (List.length (reads w))) by lia. exact Hpolls. }
  { lia. }
  { exact Hfuel. }
  exists w'; split; [exact Hrun|].
  rewrite Hfixed in Hc. simpl in Hc, Hsl, Hr.
  split; [rewrite Hc, <- app_assoc; reflexivity|].
  split; [exact Hsl|]. rewrite Hr, <- app_assoc; reflexivity.
Qed.

Lemma watch_reports_each_change_witness :
  exists w',
    watchAddress no_float_lib changing_target 10 4096 INT32 1000
      refined_to_nothing = Returned tt w' /\
    console w' = [Watching 4096 INT32 "5"; ChangeDetected 1 "5" "6";
                  FailedToReadValue] /\
    sleeps w' = [1000000; 1000000] /\
    reads w' = [(4096, 4); (4096, 4); (4096, 4); (4096, 4)].
Proof.
  apply (watch_reports_each_change no_float_lib changing_target 10 4096
           INT32 1000 refined_to_nothing (le_bytes 4 5)
           [le_bytes 4 5; le_bytes 4 6]);
    [discriminate|reflexivity|repeat split|vm_compute; discriminate
    |simpl; lia].
Defined.

Lemma c_str_none (v : list byte) : ~ In x00 v -> c_str v = None.
Proof.
  induction v as [|b v IH]; intros Hno; simpl; [reflexivity|].
  destruct (Byte.eqb b x00) eqn:E.
  - apply Byte.byte_dec_bl in E. exfalso; apply Hno; now left.
  - rewrite IH; [reflexivity|]. intros Hin; apply Hno; now right.
Qed.

Lemma c_str_some (v p : list byte) :
  c_str v = Some p <-> ~ In x00 p /\ exists rest, v = p ++ x00 :: rest.
Proof.
  revert p; induction v as [|b v IH]; intros p; simpl.
  - split; [discriminate|]. intros [_ [rest H]].
    destruct p; discriminate.
  - destruct (Byte.eqb b x00) eqn:E.
    + apply Byte.byte_dec_bl in E; subst b. split.
      * intros [= <-]. split; [intros []|now exists v].
      * intros [Hno [rest H]]. destruct p as [|c p]; [reflexivity|].
        injection H as <- _. exfalso; apply Hno; now left.
    + apply Byte.eqb_false in E.
      destruct (c_str v) as [q|] eqn:Hq; simpl; split.
      * intros [= <-]. destruct (proj1 (IH q) eq_refl) as [Hno [rest ->]].
        split; [|now exists rest].
        intros [Hb | Hin]; [now apply E|now apply Hno].
      * intros [Hno [rest H]]. destruct p as [|c p];
          [injection H as H _; now subst b|].
        injection H as <- H. f_equal. f_equal.
        assert (Hp : Some q = Some p); [|now injection Hp].
        apply IH. split; [|now exists rest].
        intros Hin; apply Hno; now right.
      * discriminate.
      * intros [Hno [rest H]]. destruct p as [|c p];
          [injection H as H _; now subst b|].
        injection H as <- H. exfalso.
        assert (Hp : None = Some p); [|discriminate].
        apply IH. split; [|now exists rest].
        intros Hin; apply Hno; now right.
Qed.

(** X12. Watching a [STRING]: the value is printed as a C string, that
    is, the bytes before the first NUL of the 32 bytes read.  When the 32
    bytes hold no NUL, printing the baseline reads past the end of the
    buffer: [watchAddress] runs into undefined behaviour before it polls
    once. *)
Theorem watch_string_without_nul lib rd fuel addr updateInterval w v :
  isAttached (scanner w) = true ->
  read_result rd (List.length (reads w)) addr 32 = Some v ->
  (forall fixed p rest, v = p ++ x00 :: rest -> ~ In x00 p ->
   printValue lib fixed STRING v
   = Some (dquote +++ string_of_list_byte p +++ dquote)) /\
  (~ In x00 v ->
   watchAddress lib rd fuel addr STRING updateInterval w = OutOfBounds).
Proof.
  intros Hatt Hread; split.
  - intros fixed p rest Hv Hno; unfold printValue.
    assert (Hc : c_str v = Some p)
      by (apply c_str_some; split; [exact Hno|now exists rest]).
    now rewrite Hc.
  - intros Hno.
    unfold watchAddress, bind at 1, this at 1. rewrite Hatt; cbn [negb].
    unfold bind at 1; rewrite readMemoryBlock_eq.
    change (Z.of_nat (watch_width STRING)) with 32. rewrite Hread.
    unfold bind at 1, floatfield at 1.
    unfold bind at 1, defined, printValue.
    now rewrite (c_str_none v Hno).
Qed.

Lemma watch_string_without_nul_witness :
  watchAddress no_float_lib
    (block 4096 (repeat x41 32)) 10 4096 STRING 1000
    (attached [rw_region 4096 32]) = OutOfBounds.
Proof.
  apply (watch_string_without_nul no_float_lib (block 4096 (repeat x41 32))
           10 4096 1000 (attached [rw_region 4096 32]) (repeat x41 32));
    [reflexivity|reflexivity|].
  intros Hin; apply repeat_spec in Hin; discriminate.
Defined.

(** X13. [watchAddress] does not poll when it cannot start: on a scanner
    that is not attached it reads nothing, and when the first read fails
    it stops after that single read; either way it only prints a message,
    takes no pause and leaves the scanner as it was. *)
Theorem watch_does_not_start lib rd fuel addr t updateInterval w :
  (isAttached (scanner w) = false ->
   watchAddress lib rd fuel addr t updateInterval w
   = print NotAttached w) /\
  (isAttached (scanner w) = true ->
   read_result rd (List.length (reads w)) addr (Z.of_nat (watch_width t))
   = None ->
   exists w',
     watchAddress lib rd fuel addr t updateInterval w = Returned tt w' /\
     reads w' = reads w ++ [(addr, Z.of_nat (watch_width t))] /\
     console w' = console w ++ [FailedInitialRead addr] /\
     sleeps w' = sleeps w /\ scanner w' = scanner w).
Proof.
  split.
  - intros Hno; unfold watchAddress, bind, this; now rewrite Hno.
  - intros Hatt Hread.
    unfold watchAddress, bind at 1, this at 1. rewrite Hatt; cbn [negb].
    unfold bind at 1; rewrite readMemoryBlock_eq, Hread.
    eexists; split; [reflexivity|]; repeat split.
Qed.

Lemma watch_does_not_start_witness :
  watchAddress no_float_lib changing_target 10 4096 INT32 1000 fresh
  = print NotAttached fresh /\
  reads (world_after (print NotAttached fresh)) = [].
Proof.
  destruct (watch_does_not_start no_float_lib changing_target 10 4096 INT32
              1000 fresh) as [Hno _].
  split; [exact (Hno eq_refl)|reflexivity].
Defined.

(** ** Saving *)

(** X14. [saveResults] writes no file when there is nothing to save or
    when the file cannot be opened: it prints the matching message and
    leaves the files, the scanner and the target alone.  The emptiness test
    comes first, so an empty result set never creates or truncates the
    file. *)
Theorem saveResults_writes_nothing opens now filename w :
  scanResults (scanner w) = [] \/ opens = false ->
  exists w',
    saveResults opens now filename w = Returned tt w' /\
    files w' = files w /\ scanner w' = scanner w /\ reads w' = reads w /\
    console w' = console w
                 ++ [match scanResults (scanner w) with
                     | [] => NoResultsToSave
                     | _ :: _ => FailedToOpenFile filename
                     end].
Proof.
  intros H; unfold saveResults, bind, this.
  destruct (scanResults (scanner w)) as [|r rs].
  - eexists; split; [reflexivity|]; repeat split.
  - destruct H as [H | ->]; [discriminate|].
    eexists; split; [reflexivity|]; repeat split.
Qed.

Lemma saveResults_writes_nothing_witness :
  exists w',
    saveResults true 1700000000 "out.txt" refined_to_nothing
    = Returned tt w' /\
    files w' = [] /\ console w' = [NoResultsToSave].
Proof.
  destruct (saveResults_writes_nothing true 1700000000 "out.txt"
              refined_to_nothing (or_introl eq_refl))
    as (w' & Hrun & Hfiles & _ & _ & Hconsole).
  exists w'; repeat split; assumption.
Defined.

Lemma hex_byte_two_digits (b : byte) :
  match hex_byte b with
  | String h (String l EmptyString) => unhex_pair h l = Some b
  | _ => False
  end.
Proof.
  destruct b; vm_compute; reflexivity.
Qed.

(** X15. The value column of the save file holds exactly two lowercase
    hexadecimal digits per byte, in order, so the bytes of a match can be
    read back from it: decoding the column gives the bytes saved. *)
Theorem saved_bytes_read_back (v : list byte) :
  String.length (hex_bytes v) = (2 * List.length v)%nat /\
  unhex_bytes (hex_bytes v) = Some v.
Proof.
  induction v as [|b v [IHlen IHback]]; [split; reflexivity|].
  cbn [hex_bytes List.length].
  pose proof (hex_byte_two_digits b) as Hb.
  destruct (hex_byte b) as [|h [|l [|c rest]]]; try contradiction.
  split.
  - simpl; rewrite IHlen; lia.
  - simpl. now rewrite Hb, IHback.
Qed.

Lemma saved_bytes_read_back_witness :
  hex_bytes (le_bytes 4 150) = "96000000" /\
  unhex_bytes "96000000" = Some (le_bytes 4 150).
Proof.
  destruct (saved_bytes_read_back (le_bytes 4 150)) as [_ Hback].
  split; [reflexivity|exact Hback].
Defined.

(** ** When the scans are safe, and when they are not *)

(** X16. A refine pass whose literal fails to parse has already handed
    the result set over: it ends with an empty current set, the former
    one as previous generation, and nothing read; the results cannot be
    refined any more, for the next [nextScan], whatever its arguments,
    finds nothing to filter. *)
Theorem failed_refine_loses_results lib rd t val comparison w e :
  encodeValue lib t val = EncThrow e ->
  scanResults (scanner w) <> [] ->
  exists w1,
    nextScan lib rd t val comparison w = Thrown e w1 /\
    scanResults (scanner w1) = [] /\
    previousScanResults (scanner w1) = scanResults (scanner w) /\
    reads w1 = reads w /\
    forall t2 val2 comparison2,
    exists w2,
      nextScan lib rd t2 val2 comparison2 w1 = Returned tt w2 /\
      console w2 = console w1 ++ [NoPreviousResults] /\
      scanner w2 = scanner w1.
Proof.
  intros He Hne.
  destruct (encoding_exception_aborts lib rd O t val comparison w e He)
    as [_ Hnext].
  exists (nextScan_entry w); split; [now apply Hnext|].
  repeat split.
  intros t2 val2 comparison2. rewrite nextScan_unfold; simpl.
  eexists; split; [reflexivity|]; split; reflexivity.
Qed.

Lemma failed_refine_loses_results_witness :
  exists w1,
    nextScan no_float_lib (block 4096 two_ints) INT32 "e3" "less"
      two_ints_scanned = Thrown invalid_argument w1 /\
    scanResults (scanner w1) = [] /\
    vector_size (previousScanResults (scanner w1)) = 4.
Proof.
  destruct (failed_refine_loses_results no_float_lib (block 4096 two_ints)
              INT32 "e3" "less" two_ints_scanned invalid_argument eq_refl
              ltac:(vm_compute; discriminate))
    as (w1 & Hrun & Hcur & Hprev & _).
  exists w1; split; [exact Hrun|]. split; [exact Hcur|].
  rewrite Hprev; vm_compute; reflexivity.
Defined.

(** X17. [firstScan] is safe on regions that can hold the search value:
    when the literal parses and every readable region of the catalog is at
    least as long as the value and no longer than a vector can be (and the
    loop budget covers it), the scan reads nothing out of bounds, lets no
    exception escape and returns. *)
Theorem firstScan_safe lib rd fuel t val comparison w n target :
  encodeValue lib t val = EncOk n target ->
  Forall (walkable fuel n) (memoryRegions (scanner w)) ->
  exists w',
    firstScan lib rd fuel t val comparison w = Returned tt w' /\
    previousScanResults (scanner w') = [] /\
    vector_size (scanResults (scanner w')) <= MAX_RESULTS.
Proof.
  intros Henc Hall.
  destruct (firstScan_returns_readable lib rd fuel t val comparison w n
              target Henc Hall) as ([] & w' & Hrun).
  exists w'; split; [exact Hrun|].
  assert (Hfin : final_world (firstScan lib rd fuel t val comparison w)
                 = Some w') by (now rewrite Hrun).
  apply firstScan_final in Hfin as (_ & Hp & Hle & _). now split.
Qed.

Lemma firstScan_safe_witness :
  exists w',
    firstScan no_float_lib (block 4096 two_ints) 100 INT32 "0" "greater"
      two_ints_attached = Returned tt w' /\
    previousScanResults (scanner w') = [] /\
    vector_size (scanResults (scanner w')) <= MAX_RESULTS.
Proof.
  apply (firstScan_safe no_float_lib (block 4096 two_ints) 100 INT32 "0"
           "greater" two_ints_attached 4 (le_bytes 4 0) eq_refl).
  constructor; [|constructor].
  intros _; repeat split; vm_compute; congruence.
Defined.

(** X18. A refine pass under [exact], [greater] or [less] is always safe
    and always ends: whatever the stored matches and whatever the target
    answers, it returns or leaves with the exception of the parser; it
    never reads out of bounds. *)
Theorem ordinary_refine_is_safe lib rd t val comparison w :
  comparison <> "changed" -> comparison <> "unchanged" ->
  (exists w', nextScan lib rd t val comparison w = Returned tt w') \/
  (exists e w', nextScan lib rd t val comparison w = Thrown e w').
Proof.
  intros Hc Hu.
  destruct (encodeValue lib t val) as [n target|e|] eqn:Henc.
  - left.
    destruct (nextScan_returns lib rd t val comparison w n target Henc)
      as ([] & w' & Hrun); [|eauto].
    apply Forall_forall; intros p _ [H | H]; contradiction.
  - rewrite nextScan_unfold, Henc.
    destruct (scanResults (scanner w));
      [left; eexists; reflexivity|right; eauto].
  - left. rewrite nextScan_unfold, Henc.
    destruct (scanResults (scanner w)); eexists; reflexivity.
Qed.

Lemma ordinary_refine_is_safe_witness :
  (exists w',
     nextScan no_float_lib (block 4096 two_ints) INT64 "5" "less"
       two_ints_scanned = Returned tt w') \/
  (exists e w',
     nextScan no_float_lib (block 4096 two_ints) INT64 "5" "less"
       two_ints_scanned = Thrown e w').
Proof.
  apply (ordinary_refine_is_safe no_float_lib (block 4096 two_ints) INT64
           "5" "less" two_ints_scanned); discriminate.
Defined.



(** ** What the integer parser accepts *)

Lemma digits_ignores_tail (s tail : string) :
  stops_number tail ->
  forall acc seen v,
    digits s acc seen = Some v -> digits (s +++ tail) acc seen = Some v.
Proof.
  intros Htail; induction s as [|c s IH]; intros acc seen v; simpl.
  - destruct seen; [|discriminate]. intros [= <-].
    destruct tail as [|c tail]; [reflexivity|].
    simpl in *; now rewrite Htail.
  - destruct (digit_of c); [apply IH|auto].
Qed.

Lemma skip_space_append (s tail : string) :
  skip_space s <> EmptyString ->
  skip_space (s +++ tail) = skip_space s +++ tail.
Proof.
  induction s as [|c s IH]; simpl; [contradiction|].
  destruct (isspace c); [exact IH|reflexivity].
Qed.

Lemma parse_decimal_ignores_tail (s tail : string) (v : Z) :
  stops_number tail ->
  parse_decimal s = Some v -> parse_decimal (s +++ tail) = Some v.
Proof.
  intros Htail; unfold parse_decimal.
  destruct (skip_space s) as [|c body] eqn:Hskip; [discriminate|].
  rewrite skip_space_append by (rewrite Hskip; discriminate).
  rewrite Hskip; cbn [String.append].
  assert (Hd : forall x, digits body 0 false = Some x ->
                         digits (body +++ tail) 0 false = Some x)
    by (intros x; apply digits_ignores_tail; exact Htail).
  assert (Hplain : digits (String c body) 0 false = Some v ->
                   digits (String c (body +++ tail)) 0 false = Some v)
    by (apply (digits_ignores_tail (String c body) tail Htail)).
  destruct c as [[] [] [] [] [] [] [] []]; try exact Hplain;
    (destruct (digits body 0 false) as [x|] eqn:E; [|discriminate];
     now rewrite (Hd x eq_refl)).
Qed.

(** X20. The integer kinds take the number at the head of the literal
    and ignore what follows it: a literal that parses, extended by any
    text that does not start with a digit, encodes to the same search
    value ([12abc] searches for 12).  Blanks before the number and a sign
    are part of the number. *)
Theorem integer_literal_tail_ignored lib (t : ValueType) (s tail : string)
    (v lo hi : Z) :
  parser_range t = Some (lo, hi) ->
  parse_decimal s = Some v -> stops_number tail ->
  encodeValue lib t (s +++ tail) = encodeValue lib t s.
Proof.
  intros Hr Hparse Htail.
  pose proof (parse_decimal_ignores_tail s tail v Htail Hparse) as Hext.
  destruct t; simpl in Hr; try discriminate;
    cbn [encodeValue]; unfold encode_with, stoi, stoll;
    now rewrite (sto_range_spec _ _ _ _ Hparse),
                (sto_range_spec _ _ _ _ Hext).
Qed.

Lemma integer_literal_tail_ignored_witness :
  encodeValue no_float_lib INT32 " +12abc" = EncOk 4 (le_bytes 4 12).
Proof.
  change " +12abc" with (" +12" +++ "abc").
  rewrite (integer_literal_tail_ignored no_float_lib INT32 " +12" "abc" 12
             INT_MIN INT_MAX eq_refl eq_refl eq_refl).
  reflexivity.
Defined.

(** ** The scan commands of the shell *)

Lemma scanMemory_unfold lib rd fuel a0 a1 more w :
  scanMemory lib rd fuel (a0 :: a1 :: more) w
  = if negb (isAttached (scanner w)) then print ErrorNotAttachedUseAttach w
    else match parse_type (lowercase a0) with
         | UNKNOWN => print (ErrorUnknownType (lowercase a0)) w
         | t =>
             if negb (one_of ["exact"; "greater"; "less"]
                        (comparison_of more))
             then print (ErrorUnknownComparison (comparison_of more)) w
             else firstScan lib rd fuel t a1 (comparison_of more) w
         end.
Proof.
  unfold scanMemory, bind, this, comparison_of.
  destruct (negb (isAttached (scanner w))); [reflexivity|].
  destruct (parse_type (lowercase a0)); try reflexivity;
    destruct (negb (one_of _ _)); reflexivity.
Qed.

Lemma cli_nextScan_unfold lib rd a0 a1 more w :
  cli_nextScan lib rd (a0 :: a1 :: more) w
  = if negb (isAttached (scanner w)) then print ErrorNotAttached w
    else if vector_size (scanResults (scanner w)) =? 0
    then print ErrorNoPreviousResults w
    else match parse_type (lowercase a0) with
         | UNKNOWN => print (ErrorUnknownType (lowercase a0)) w
         | t =>
             if negb (one_of ["exact"; "greater"; "less"; "changed";
                              "unchanged"] (comparison_of more))
             then print (ErrorUnknownComparison (comparison_of more)) w
             else nextScan lib rd t a1 (comparison_of more) w
         end.
Proof.
  unfold cli_nextScan, bind, this, comparison_of.
  destruct (negb (isAttached (scanner w))); [reflexivity|].
  destruct (vector_size (scanResults (scanner w)) =? 0); [reflexivity|].
  destruct (parse_type (lowercase a0)); try reflexivity;
    destruct (negb (one_of _ _)); reflexivity.
Qed.

Lemma one_of_In (names : list string) (s : string) :
  one_of names s = true -> In s names.
Proof.
  unfold one_of; intros H. apply existsb_exists in H as (x & Hx & He).
  apply String.eqb_eq in He. now subst x.
Qed.

(** X21. The command [scan] either prints one message and does nothing
    else, or runs [firstScan] on an attached scanner with one of the seven
    kinds and with [exact], [greater] or [less]: [changed] and [unchanged]
    never reach an initial scan, and nothing is read from a target that is
    not attached. *)
Theorem scan_command_runs_checked_scans lib rd fuel args w :
  (exists e, scanMemory lib rd fuel args w = print e w) \/
  (exists a0 a1 more,
     args = a0 :: a1 :: more /\
     isAttached (scanner w) = true /\
     parse_type (lowercase a0) <> UNKNOWN /\
     In (comparison_of more) ["exact"; "greater"; "less"] /\
     scanMemory lib rd fuel args w
     = firstScan lib rd fuel (parse_type (lowercase a0)) a1
         (comparison_of more) w).
Proof.
  destruct args as [|a0 [|a1 more]]; try (left; eexists; reflexivity).
  rewrite scanMemory_unfold.
  destruct (isAttached (scanner w)) eqn:Hatt; cbn [negb];
    [|left; eexists; reflexivity].
  destruct (one_of ["exact"; "greater"; "less"] (comparison_of more))
    eqn:Hone; cbn [negb].
  - apply one_of_In in Hone.
    destruct (parse_type (lowercase a0)) eqn:Ht;
      try (right; exists a0, a1, more; rewrite Ht;
           split; [reflexivity|]; split; [reflexivity|];
           split; [discriminate|]; split; [exact Hone|reflexivity]).
    left; eexists; reflexivity.
  - destruct (parse_type (lowercase a0)); left; eexists; reflexivity.
Qed.

(** X22. The command [next] either prints one message and does nothing
    else, or runs [nextScan] on an attached scanner whose result set is
    not empty, with one of the seven kinds and one of the five
    comparisons. *)
Theorem next_command_runs_checked_scans lib rd args w :
  (exists e, cli_nextScan lib rd args w = print e w) \/
  (exists a0 a1 more,
     args = a0 :: a1 :: more /\
     isAttached (scanner w) = true /\
     scanResults (scanner w) <> [] /\
     parse_type (lowercase a0) <> UNKNOWN /\
     In (comparison_of more)
        ["exact"; "greater"; "less"; "changed"; "unchanged"] /\
     cli_nextScan lib rd args w
     = nextScan lib rd (parse_type (lowercase a0)) a1 (comparison_of more) w).
Proof.
  destruct args as [|a0 [|a1 more]]; try (left; eexists; reflexivity).
  rewrite cli_nextScan_unfold.
  destruct (isAttached (scanner w)) eqn:Hatt; cbn [negb];
    [|left; eexists; reflexivity].
  destruct (vector_size (scanResults (scanner w)) =? 0) eqn:Hsize;
    [left; eexists; reflexivity|].
  assert (Hne : scanResults (scanner w) <> []).
  { intros He; rewrite He in Hsize; discriminate. }
  destruct (one_of ["exact"; "greater"; "less"; "changed"; "unchanged"]
              (comparison_of more)) eqn:Hone; cbn [negb].
  - apply one_of_In in Hone.
    destruct (parse_type (lowercase a0)) eqn:Ht;
      try (right; exists a0, a1, more; rewrite Ht;
           split; [reflexivity|]; split; [reflexivity|];
           split; [exact Hne|]; split; [discriminate|];
           split; [exact Hone|reflexivity]).
    left; eexists; reflexivity.
  - destruct (parse_type (lowercase a0)); left; eexists; reflexivity.
Qed.

Lemma tolower_idempotent (c : ascii) : tolower (tolower c) = tolower c.
Proof.
  destruct c as [[] [] [] [] [] [] [] []]; reflexivity.
Qed.

Lemma lowercase_idempotent (s : string) :
  lowercase (lowercase s) = lowercase s.
Proof.
  induction s as [|c s IH]; simpl; [reflexivity|].
  now rewrite tolower_idempotent, IH.
Qed.

(** X23. The scan commands read the kind and the comparison without
    regard to case, and the literal as it is typed: writing the first and
    third arguments in lower case changes nothing, for [scan] and for
    [next]. *)
Theorem scan_commands_ignore_case lib rd fuel a0 a1 a2 more w :
  scanMemory lib rd fuel (a0 :: a1 :: a2 :: more) w
  = scanMemory lib rd fuel (lowercase a0 :: a1 :: lowercase a2 :: more) w /\
  cli_nextScan lib rd (a0 :: a1 :: a2 :: more) w
  = cli_nextScan lib rd (lowercase a0 :: a1 :: lowercase a2 :: more) w.
Proof.
  unfold scanMemory, cli_nextScan.
  now rewrite !lowercase_idempotent.
Qed.

(** ** The order of the addresses reported *)

Lemma ascending_from_nil (lo : Z) : ascending_from lo [].
Proof. split; constructor. Qed.

Lemma ascending_from_cons (lo a : Z) (l : list Z) :
  lo <= a -> ascending_from (a + 1) l -> ascending_from lo (a :: l).
Proof.
  intros Hlo [Hs Hb]; split.
  - constructor; [exact Hs|].
    eapply Forall_impl; [|exact Hb]. intros x Hx; simpl in Hx; lia.
  - constructor; [exact Hlo|].
    eapply Forall_impl; [|exact Hb]. intros x Hx; simpl in Hx; lia.
Qed.

Lemma ascending_from_weaken (lo lo' : Z) (l : list Z) :
  lo' <= lo -> ascending_from lo l -> ascending_from lo' l.
Proof.
  intros Hle [Hs Hb]; split; [exact Hs|].
  eapply Forall_impl; [|exact Hb]. intros x Hx; simpl in Hx; lia.
Qed.

Lemma ascending_from_app (lo hi : Z) (l1 l2 : list Z) :
  lo <= hi ->
  ascending_from lo l1 -> Forall (fun a => a < hi) l1 ->
  ascending_from hi l2 -> ascending_from lo (l1 ++ l2).
Proof.
  intros Hle [Hs1 Hb1] Hhi [Hs2 Hb2].
  assert (Hb2' : Forall (fun a => lo <= a) l2).
  { eapply Forall_impl; [|exact Hb2]. intros x Hx; simpl in Hx; lia. }
  split; [|apply Forall_app; now split].
  induction l1 as [|a l1 IH]; simpl; [exact Hs2|].
  inversion Hs1 as [|? ? Hs1' Hlt]; subst.
  inversion Hb1 as [|? ? _ Hb1']; subst.
  inversion Hhi as [|? ? Ha Hhi']; subst.
  constructor; [now apply IH|].
  apply Forall_app; split; [exact Hlt|].
  eapply Forall_impl; [|exact Hb2]. intros x Hx; simpl in Hx; lia.
Qed.

Lemma scan_offsets_short_nothing lib fuel t comparison target n region
    buffer :
  (List.length buffer < n)%nat ->
  forall offset hits w,
    0 <= offset ->
    ensures (scan_offsets lib fuel t comparison target n region buffer
               offset hits) w
      (fun _ w' => scanResults (scanner w') = scanResults (scanner w)).
Proof.
  intros Hshort; induction fuel as [|fuel IH]; intros offset hits w Hoff;
    simpl.
  - apply ensures_out_of_fuel.
  - assert (Hnext : 0 <= wrap64 (offset + 1))
      by (unfold wrap64; apply Z.mod_pos_bound; lia).
    destruct (offset <=? _); [|now apply ensures_ret].
    apply ensures_bind, ensures_defined; intros [|] _; [|now apply IH].
    apply ensures_bind. rewrite deref_none by lia. exact I.
Qed.

Lemma scan_offsets_ascending lib fuel t comparison target n region buffer :
  (1 <= n <= List.length buffer)%nat ->
  0 <= start region ->
  start region + Z.of_nat (List.length buffer) < 2 ^ 64 ->
  forall offset hits w,
    0 <= offset <= Z.of_nat (List.length buffer) - Z.of_nat n + 1 ->
    ensures (scan_offsets lib fuel t comparison target n region buffer
               offset hits) w
      (fun _ w' =>
         exists new,
           scanResults (scanner w') = scanResults (scanner w) ++ new /\
           ascending_from (start region + offset) (map address new) /\
           Forall (fun a => a < start region
                                + Z.of_nat (List.length buffer))
             (map address new)).
Proof.
  intros Hn Hstart Hend.
  assert (Hlast : wrap64 (Z.of_nat (List.length buffer) - Z.of_nat n)
                  = Z.of_nat (List.length buffer) - Z.of_nat n)
    by (unfold wrap64; apply Z.mod_small; lia).
  induction fuel as [|fuel IH]; intros offset hits w Hoff; simpl.
  - apply ensures_out_of_fuel.
  - rewrite Hlast.
    destruct (offset <=? _) eqn:Ele.
    + apply Z.leb_le in Ele.
      assert (Hnext : wrap64 (offset + 1) = offset + 1)
        by (unfold wrap64; apply Z.mod_small; lia).
      assert (Haddr : wrap64 (start region + offset) = start region + offset)
        by (unfold wrap64; apply Z.mod_small; lia).
      rewrite Hnext.
      apply ensures_bind, ensures_defined; intros [|] _.
      * apply ensures_bind, ensures_defined; intros v _.
        apply ensures_bind, ensures_defined; intros d _.
        apply ensures_bind, ensures_update; intros w1 Hs1 _ _.
        cbv zeta. rewrite Haddr in Hs1.
        destruct (wrap64 (hits + 1) >=? MAX_RESULTS).
        -- apply ensures_bind, ensures_print; intros w2 Hs2 _ _.
           apply ensures_ret.
           eexists; split; [rewrite Hs2, Hs1; reflexivity|]; simpl.
           split.
           ++ apply ascending_from_cons; [lia|apply ascending_from_nil].
           ++ constructor; [lia|constructor].
        -- eapply ensures_weaken; [apply IH; lia|]; cbv beta.
           intros _ w' (new & Hn' & Hasc & Hb).
           eexists; split;
             [rewrite Hn', Hs1; simpl; rewrite <- app_assoc; reflexivity|].
           simpl; split.
           ++ apply ascending_from_cons; [lia|].
              now replace (start region + offset + 1)
                with (start region + (offset + 1)) by lia.
           ++ constructor; [lia|exact Hb].
      * eapply ensures_weaken; [apply IH; lia|]; cbv beta.
        intros _ w' (new & Hn' & Hasc & Hb).
        exists new; split; [exact Hn'|]. split; [|exact Hb].
        apply ascending_from_weaken with (lo := start region + (offset + 1));
          [lia|exact Hasc].
    + apply ensures_ret. exists []; split; [now rewrite app_nil_r|].
      split; [apply ascending_from_nil|constructor].
Qed.

Lemma scan_regions_ascending lib rd fuel t comparison target n totalRegions
    regions :
  (1 <= n)%nat ->
  Forall addressable regions -> disjoint_ascending regions ->
  forall lo regionsScanned hits w,
    Forall (fun r => lo <= start r) regions ->
    ensures (scan_regions lib rd fuel t comparison target n totalRegions
               regions regionsScanned hits) w
      (fun _ w' =>
         exists new,
           scanResults (scanner w') = scanResults (scanner w) ++ new /\
           ascending_from lo (map address new)).
Proof.
  intros Hn Haddr Hsorted.
  induction regions as [|region rest IH];
    intros lo regionsScanned hits w Hlo; simpl.
  - apply ensures_ret. exists []; split; [now rewrite app_nil_r|].
    apply ascending_from_nil.
  - inversion Haddr as [|? ? [Hstart Hend] Haddr']; subst.
    inversion Hsorted as [|? ? Hsorted' Hnext]; subst.
    inversion Hlo as [|? ? Hlo0 Hlo']; subst.
    specialize (IH Haddr' Hsorted').
    assert (Hskip : forall regionsScanned' hits' w1,
               scanResults (scanner w1) = scanResults (scanner w) ->
               ensures (scan_regions lib rd fuel t comparison target n
                          totalRegions rest regionsScanned' hits') w1
                 (fun _ w' =>
                    exists new,
                      scanResults (scanner w')
                      = scanResults (scanner w) ++ new /\
                      ascending_from lo (map address new))).
    { intros rs' h' w1 Hs1.
      eapply ensures_weaken; [apply (IH lo); exact Hlo'|]; cbv beta.
      intros _ w' (new & Hn' & Hasc). exists new; split; [|exact Hasc].
      now rewrite Hn', Hs1. }
    destruct (negb (readable region)); [now apply Hskip|].
    apply ensures_bind.
    assert (Hmsg : forall (m : M unit),
               (m = print (ScanProgress (wrap64 (regionsScanned + 1))
                             totalRegions) \/ m = ret tt) ->
               ensures m w (fun _ w1 => scanner w1 = scanner w)).
    { intros m [-> | ->]; [apply ensures_print|apply ensures_ret]; auto. }
    eapply ensures_weaken.
    { apply Hmsg. destruct (_ =? 0); auto. }
    cbv beta; intros _ w1 Hs1.
    apply ensures_bind, ensures_readMemoryBlock; intros r w2 Hs2 _ _ Hlen.
    destruct r as [buffer|]; [|apply Hskip; congruence].
    specialize (Hlen buffer eq_refl).
    apply ensures_bind.
    destruct (le_lt_dec n (List.length buffer)) as [Hfits|Hshort].
    + eapply ensures_weaken;
        [apply (scan_offsets_ascending lib fuel t comparison target n region
                  buffer); lia|].
      cbv beta; intros h1 w3 (new1 & Hn1 & Hasc1 & Hb1).
      rewrite Z.add_0_r in Hasc1.
      destruct (h1 >=? MAX_RESULTS).
      * apply ensures_ret. exists new1; split; [congruence|].
        now apply ascending_from_weaken with (lo := start region).
      * eapply ensures_weaken;
          [apply (IH (start region + size region))|]; cbv beta.
        { eapply Forall_impl; [|exact Hnext]. intros x Hx; exact Hx. }
        intros _ w' (new2 & Hn2 & Hasc2).
        exists (new1 ++ new2); split.
        -- rewrite Hn2, Hn1, <- app_assoc. congruence.
        -- rewrite map_app.
           apply ascending_from_weaken with (lo := start region);
             [exact Hlo0|].
           apply ascending_from_app with (hi := start region + size region);
             [lia|exact Hasc1|now rewrite <- Hlen|exact Hasc2].
    + eapply ensures_weaken;
        [apply (scan_offsets_short_nothing lib fuel t comparison target n
                  region buffer Hshort); lia|].
      cbv beta; intros h1 w3 Hsame.
      destruct (h1 >=? MAX_RESULTS).
      * apply ensures_ret. exists []; split;
          [rewrite app_nil_r; congruence|apply ascending_from_nil].
      * apply Hskip; congruence.
Qed.

Lemma strictly_ascending_NoDup (l : list Z) :
  StronglySorted Z.lt l -> NoDup l.
Proof.
  induction 1 as [|a l _ IH Hlt]; constructor; [|exact IH].
  intros Hin. rewrite Forall_forall in Hlt. specialize (Hlt a Hin). lia.
Qed.

(** X24. When the catalog lists regions that lie inside the 64-bit address
    space in ascending order without overlap, and the search value has at
    least one byte, [firstScan] reports its matches in strictly ascending
    address order: no address is reported twice.  (A search value of no
    bytes, the empty text, matches at the end address of a region as well,
    which is the first address of an adjacent one.) *)
Theorem firstScan_addresses_ascending lib rd fuel t val comparison w w' n
    target :
  encodeValue lib t val = EncOk n target ->
  (0 < n)%nat ->
  Forall addressable (memoryRegions (scanner w)) ->
  disjoint_ascending (memoryRegions (scanner w)) ->
  final_world (firstScan lib rd fuel t val comparison w) = Some w' ->
  StronglySorted Z.lt (map address (scanResults (scanner w'))) /\
  NoDup (map address (scanResults (scanner w'))).
Proof.
  intros Henc Hn Haddr Hsorted.
  rewrite firstScan_unfold, Henc; unfold bind.
  pose proof (scan_regions_ascending lib rd fuel t comparison target n
                (vector_size (memoryRegions (scanner w)))
                (memoryRegions (scanner w)) Hn Haddr Hsorted 0 0 0
                (firstScan_entry w)) as Hasc.
  unfold ensures in Hasc.
  assert (Hlo : Forall (fun r => 0 <= start r) (memoryRegions (scanner w))).
  { eapply Forall_impl; [|exact Haddr]. intros r [H0 _]; exact H0. }
  destruct (scan_regions _ _ _ _ _ _ _ _ _ _ _ _) as [h w1|e w1| |];
    try discriminate; [|now destruct (Hasc Hlo)].
  simpl; intros [= <-].
  destruct (Hasc Hlo) as (new & Hres & Hs & _).
  simpl in Hres; simpl; rewrite Hres.
  split; [exact Hs|exact (strictly_ascending_NoDup _ Hs)].
Qed.

Lemma firstScan_addresses_ascending_witness :
  StronglySorted Z.lt (map address (scanResults (scanner two_ints_scanned)))
  /\ NoDup (map address (scanResults (scanner two_ints_scanned))).
Proof.
  apply (firstScan_addresses_ascending no_float_lib (block 4096 two_ints)
           100 INT32 "0" "greater" two_ints_attached two_ints_scanned 4
           (le_bytes 4 0)).
  - reflexivity.
  - lia.
  - constructor; [|constructor].
    split; [vm_compute; discriminate|vm_compute; reflexivity].
  - constructor; constructor.
  - vm_compute; reflexivity.
Defined.

(** ** The catalog of regions *)

Lemma region_loop_ends rg fuel k :
  first_at_or_after rg ->
  forall calls address,
    0 <= address ->
    (forall a, rg (calls + k)%nat a = None) ->
    (k < fuel)%nat ->
    exists found,
      region_loop rg fuel calls address = Some found /\
      (List.length found <= k)%nat /\
      Forall addressable found /\ disjoint_ascending found /\
      Forall (fun r => address <= start r) found.
Proof.
  intros Hrg; revert k; induction fuel as [|fuel IH];
    intros k calls address H0 Hend Hk; [lia|]; simpl.
  destruct (rg calls address) as [i|] eqn:Ei.
  - destruct k as [|k].
    { rewrite Nat.add_0_r in Hend. rewrite Hend in Ei. discriminate. }
    destruct (Hrg _ _ _ Ei) as (Hle & Hsz & Hin).
    assert (Hnext : wrap64 (region_address i + region_size i)
                    = region_address i + region_size i)
      by (unfold wrap64; apply Z.mod_small; lia).
    rewrite Hnext.
    destruct (IH k (S calls) (region_address i + region_size i))
      as (found & -> & Hlen & Haddr & Hsorted & Hlo); [lia| |lia|].
    { intros a. replace (S calls + k)%nat with (calls + S k)%nat by lia.
      apply Hend. }
    eexists; split; [reflexivity|]. simpl.
    split; [lia|]. split; [|split].
    + constructor; [split; simpl; lia|exact Haddr].
    + constructor; [exact Hsorted|exact Hlo].
    + constructor; [simpl; lia|].
      eapply Forall_impl; [|exact Hlo]. intros r Hr; simpl in Hr; lia.
  - exists []; repeat split; simpl; try lia; constructor.
Qed.

Lemma region_loop_ascending rg fuel :
  first_at_or_after rg ->
  forall calls address found,
    0 <= address ->
    region_loop rg fuel calls address = Some found ->
    Forall addressable found /\ disjoint_ascending found /\
    Forall (fun r => address <= start r) found.
Proof.
  intros Hrg; induction fuel as [|fuel IH];
    intros calls address found H0; simpl; [discriminate|].
  destruct (rg calls address) as [i|] eqn:Ei.
  - destruct (Hrg _ _ _ Ei) as (Hle & Hsz & Hin).
    assert (Hnext : wrap64 (region_address i + region_size i)
                    = region_address i + region_size i)
      by (unfold wrap64; apply Z.mod_small; lia).
    rewrite Hnext.
    destruct (region_loop rg fuel (S calls) _) as [rest|] eqn:Er;
      [|discriminate].
    simpl; intros [= <-].
    assert (H1 : 0 <= region_address i + region_size i) by lia.
    destruct (IH _ _ _ H1 Er) as (Haddr & Hsorted & Hlo).
    split; [|split].
    + constructor; [split; simpl; lia|exact Haddr].
    + constructor; [exact Hsorted|exact Hlo].
    + constructor; [simpl; lia|].
      eapply Forall_impl; [|exact Hlo]. intros r Hr; simpl in Hr; lia.
  - intros [= <-]; repeat split; constructor.
Qed.

(** X25. When [mach_vm_region] always answers with the first region at or
    after the address asked, and its call number [k] fails, the loop of
    [refreshMemoryRegions] ends after at most [k] regions, and the catalog
    it has built lies inside the 64-bit address space in ascending order
    without overlap. *)
Theorem refreshed_catalog_ascending rg fuel k :
  first_at_or_after rg ->
  (forall a, rg k a = None) ->
  (k < fuel)%nat ->
  exists found,
    region_loop rg fuel 0 0 = Some found /\
    (List.length found <= k)%nat /\
    Forall addressable found /\ disjoint_ascending found.
Proof.
  intros Hrg Hend Hk.
  destruct (region_loop_ends rg fuel k Hrg 0%nat 0 ltac:(lia) Hend Hk)
    as (found & Hrun & Hlen & Haddr & Hsorted & _).
  exists found; auto.
Qed.

Lemma one_region_map_promise : first_at_or_after one_region_map.
Proof.
  intros calls address i; unfold one_region_map.
  destruct (address <=? 4096) eqn:E; [|discriminate].
  apply Z.leb_le in E. intros [= <-]; simpl.
  split; [exact E|split; [lia|reflexivity]].
Qed.

Lemma refreshed_catalog_ascending_witness :
  exists found,
    region_loop (fun k a => if (k <? 1)%nat then one_region_map k a else None)
      2 0 0 = Some found /\
    (List.length found <= 1)%nat /\
    Forall addressable found /\ disjoint_ascending found.
Proof.
  apply (refreshed_catalog_ascending
           (fun k a => if (k <? 1)%nat then one_region_map k a else None)
           2 1).
  - intros calls address i.
    destruct (calls <? 1)%nat; [apply one_region_map_promise|discriminate].
  - reflexivity.
  - lia.
Defined.

(** X26. A region recorded by [refreshMemoryRegions] under the name
    [No access] has none of the three permissions; a readable region is
    recorded as [Reserved] or under a name that begins with [R]; and when
    the protection has no other bit than the three permissions, the three
    flags give it back. *)
Theorem recorded_name_and_flags rg fuel calls address found :
  region_loop rg fuel calls address = Some found ->
  Forall (fun r =>
            (name r = "No access" ->
             readable r = false /\ writable r = false /\
             executable r = false) /\
            (readable r = true ->
             name r = "Reserved" \/
             exists tail, name r = String "R" tail) /\
            (0 <= protection r < 8 ->
             protection r
             = Z.b2z (readable r) + 2 * Z.b2z (writable r)
               + 4 * Z.b2z (executable r)))
    found.
Proof.
  revert calls address found; induction fuel as [|fuel IH];
    intros calls address found; simpl; [discriminate|].
  destruct (rg calls address) as [i|]; [|intros [= <-]; constructor].
  destruct (region_loop rg fuel (S calls) _) as [rest|] eqn:Er;
    [|discriminate].
  simpl; intros [= <-].
  constructor; [|exact (IH _ _ _ Er)].
  unfold region_record; simpl.
  destruct i as [a sz p rsv]; simpl.
  split; [|split].
  - destruct rsv; [discriminate|].
    destruct (p =? 0) eqn:Ep.
    + apply Z.eqb_eq in Ep; subst p; intros _; repeat split.
    + destruct (Z.land p 1 =? 0), (Z.land p 2 =? 0), (Z.land p 4 =? 0);
        discriminate.
  - intros Hr. destruct rsv; [now left|right].
    destruct (p =? 0) eqn:Ep.
    + apply Z.eqb_eq in Ep; subst p; discriminate.
    + destruct (Z.land p 1 =? 0); [discriminate|].
      eexists; reflexivity.
  - intros Hp.
    assert (Hc : p = 0 \/ p = 1 \/ p = 2 \/ p = 3 \/ p = 4 \/ p = 5 \/
                 p = 6 \/ p = 7) by lia.
    destruct Hc as [-> | [-> | [-> | [-> | [-> | [-> | [-> | ->]]]]]]];
      reflexivity.
Qed.

Lemma recorded_name_and_flags_witness :
  Forall (fun r =>
            (name r = "No access" ->
             readable r = false /\ writable r = false /\
             executable r = false) /\
            (readable r = true ->
             name r = "Reserved" \/
             exists tail, name r = String "R" tail) /\
            (0 <= protection r < 8 ->
             protection r
             = Z.b2z (readable r) + 2 * Z.b2z (writable r)
               + 4 * Z.b2z (executable r)))
    [rw_region 4096 8].
Proof.
  exact (recorded_name_and_flags
           (fun k a => if (k <? 1)%nat then one_region_map k a else None)
           2 0 0 [rw_region 4096 8] eq_refl).
Defined.

(** ** The tokens of a command line *)

Arguments isspace : simpl never.

Lemma append_length (a b : string) :
  String.length (a +++ b) = (String.length a + String.length b)%nat.
Proof.
  induction a as [|x a IH]; simpl; [reflexivity|now rewrite IH].
Qed.

Lemma skip_space_blank (lead x : string) :
  blank lead = true -> starts_token x -> skip_space (lead +++ x) = x.
Proof.
  intros Hb Hx; induction lead as [|c lead IH]; simpl.
  - destruct x as [|c r]; [reflexivity|]. simpl in Hx; simpl; now rewrite Hx.
  - simpl in Hb; apply andb_true_iff in Hb as [Hc Hb].
    rewrite Hc; now apply IH.
Qed.

Lemma read_token_app (token y : string) :
  all_chars (fun c => negb (isspace c)) token = true -> starts_blank y ->
  read_token (token +++ y) = (token, y).
Proof.
  intros Ht Hy; induction token as [|c token IH]; simpl.
  - destruct y as [|c r]; [reflexivity|]. simpl in Hy; simpl; now rewrite Hy.
  - simpl in Ht; apply andb_true_iff in Ht as [Hc Ht].
    apply negb_true_iff in Hc; rewrite Hc, (IH Ht); reflexivity.
Qed.

Lemma typed_starts_token (parts : list (string * string)) :
  spaced parts -> starts_token (typed parts).
Proof.
  destruct parts as [|[token blanks] rest]; simpl; [auto|].
  intros ([Hne Hall] & _).
  destruct token as [|c token]; [contradiction|]; simpl in *.
  apply andb_true_iff in Hall as [Hc _]. now apply negb_true_iff.
Qed.

Lemma blank_starts_blank (blanks x : string) :
  blank blanks = true -> blanks <> EmptyString -> starts_blank (blanks +++ x).
Proof.
  destruct blanks as [|c r]; [contradiction|]; simpl.
  intros H _; now apply andb_true_iff in H as [H _].
Qed.

Lemma extract_tokens_typed (parts : list (string * string)) :
  spaced parts ->
  forall fuel lead,
    blank lead = true -> (List.length parts < fuel)%nat ->
    extract_tokens fuel (lead +++ typed parts) = map fst parts.
Proof.
  induction parts as [|[token blanks] rest IH]; intros Hsp fuel lead Hb Hf;
    (destruct fuel as [|fuel]; [simpl in Hf; lia|]).
  - simpl. rewrite skip_space_blank by (simpl; auto). reflexivity.
  - pose proof (typed_starts_token _ Hsp) as Hst.
    destruct Hsp as ([Hne Hall] & Hbl & Hsep & Hrest).
    cbn [extract_tokens]. rewrite skip_space_blank by assumption.
    cbn [typed] in *.
    destruct (token +++ blanks +++ typed rest) as [|c r] eqn:E.
    { destruct token; [contradiction|discriminate]. }
    rewrite <- E, read_token_app; [| exact Hall |].
    + cbn [map fst]. f_equal. apply IH; [exact Hrest|exact Hbl|].
      simpl in Hf; lia.
    + destruct rest as [|p rest'].
      * simpl. rewrite append_empty_r.
        destruct blanks as [|b bs]; [exact I|]; simpl in *.
        now apply andb_true_iff in Hbl as [Hbl _].
      * apply blank_starts_blank; [exact Hbl|]. apply Hsep; discriminate.
Qed.

Lemma typed_length (parts : list (string * string)) :
  spaced parts -> (List.length parts <= String.length (typed parts))%nat.
Proof.
  induction parts as [|[token blanks] rest IH]; simpl; [lia|].
  intros ([Hne _] & _ & _ & Hrest).
  rewrite !append_length. specialize (IH Hrest).
  destruct token; [contradiction|]; simpl; lia.
Qed.

(** X27. A line typed as blanks, then tokens separated by at least one
    blank each, with or without blanks at its end, is split into exactly
    those tokens, in order: the number and the kind of the blanks (spaces,
    tabs and the like) make no difference. *)
Theorem tokenize_typed_line (lead : string) (parts : list (string * string)) :
  blank lead = true -> spaced parts ->
  tokenize (lead +++ typed parts) = map fst parts.
Proof.
  intros Hb Hsp; unfold tokenize.
  apply extract_tokens_typed; [exact Hsp|exact Hb|].
  pose proof (typed_length _ Hsp). rewrite append_length. lia.
Qed.

Lemma tokenize_typed_line_witness :
  tokenize "  scan   int 100 " = ["scan"; "int"; "100"].
Proof.
  apply (tokenize_typed_line "  "
           [("scan", "   "); ("int", " "); ("100", " ")]).
  - reflexivity.
  - simpl; unfold is_token; repeat split; try discriminate; reflexivity.
Defined.

Lemma read_token_spec (s : string) :
  all_chars (fun c => negb (isspace c)) (fst (read_token s)) = true /\
  s = fst (read_token s) +++ snd (read_token s) /\
  keep_chars (fun c => negb (isspace c)) (fst (read_token s))
  = fst (read_token s).
Proof.
  induction s as [|c s (IH1 & IH2 & IH3)]; simpl; [auto|].
  destruct (isspace c) eqn:Ec; simpl; [auto|].
  destruct (read_token s) as [token after]; simpl in *.
  rewrite Ec; simpl. repeat split; [exact IH1|now f_equal|now f_equal].
Qed.

Lemma skip_space_spec (s : string) :
  (String.length (skip_space s) <= String.length s)%nat /\
  keep_chars (fun c => negb (isspace c)) (skip_space s)
  = keep_chars (fun c => negb (isspace c)) s /\
  starts_token (skip_space s).
Proof.
  induction s as [|c s (IH1 & IH2 & IH3)]; simpl; [auto|].
  destruct (isspace c) eqn:Ec; simpl; rewrite ?Ec; simpl; auto with arith.
Qed.

Lemma keep_chars_app (p : ascii -> bool) (a b : string) :
  keep_chars p (a +++ b) = keep_chars p a +++ keep_chars p b.
Proof.
  induction a as [|c a IH]; simpl; [reflexivity|].
  destruct (p c); simpl; now rewrite IH.
Qed.

Lemma extract_tokens_spec (fuel : nat) :
  forall iss,
    Forall is_token (extract_tokens fuel iss) /\
    ((String.length iss < fuel)%nat ->
     fold_right String.append EmptyString (extract_tokens fuel iss)
     = keep_chars (fun c => negb (isspace c)) iss).
Proof.
  induction fuel as [|fuel IH]; intros iss; cbn [extract_tokens].
  - split; [constructor|lia].
  - destruct (skip_space_spec iss) as (Hlen & Hkeep & Hst).
    destruct (skip_space iss) as [|c rest] eqn:Es.
    + split; [constructor|]. intros _; now rewrite <- Hkeep.
    + destruct (read_token_spec (String c rest)) as (Hall & Hsplit & Hk).
      destruct (read_token (String c rest)) as [token after] eqn:Er.
      simpl in Hall, Hsplit, Hk.
      destruct (IH after) as [IHt IHc].
      assert (Hne : token <> EmptyString).
      { simpl in Er, Hst. rewrite Hst in Er.
        destruct (read_token rest); injection Er as <- _; discriminate. }
      split.
      * constructor; [split; assumption|exact IHt].
      * intros Hf. cbn [fold_right]. rewrite IHc.
        -- rewrite <- Hkeep, Hsplit, keep_chars_app, Hk. reflexivity.
        -- assert (Hl : String.length (String c rest)
                        = (String.length token + String.length after)%nat)
             by (rewrite Hsplit at 1; apply append_length).
           destruct token; [contradiction|]. simpl in Hl, Hlen |- *. lia.
Qed.

(** X28. The tokens of a line are never empty and hold no blank, and put
    end to end they are the line without its blanks: the split drops
    nothing but blanks, and no command sees an empty argument. *)
Theorem tokenize_keeps_all_but_blanks (input : string) :
  Forall is_token (tokenize input) /\
  fold_right String.append EmptyString (tokenize input)
  = keep_chars (fun c => negb (isspace c)) input.
Proof.
  unfold tokenize.
  destruct (extract_tokens_spec (S (String.length input)) input) as [Ht Hc].
  split; [exact Ht|apply Hc; lia].
Qed.

(** ** Address order over a shell session *)

Lemma picked_ascending (previous new : list ScanResult) :
  picked previous new ->
  StronglySorted Z.lt (map address previous) ->
  StronglySorted Z.lt (map address new).
Proof.
  induction 1 as [|p previous new _ IH|p r previous new Ha _ Hp IH]; simpl;
    intros Hs.
  - constructor.
  - inversion Hs; subst; auto.
  - inversion Hs as [|? ? Hs' Hlt]; subst.
    constructor; [now apply IH|].
    rewrite Ha. rewrite Forall_forall in *.
    intros x Hx. apply Hlt. exact (picked_incl _ _ Hp x Hx).
Qed.

Lemma encodeValue_width_positive lib t val n target :
  encodeValue lib t val = EncOk n target ->
  (t = STRING -> val <> EmptyString) -> (0 < n)%nat.
Proof.
  intros Henc Hval.
  destruct t; simpl in Henc;
    try (apply encode_with_ok in Henc; destruct Henc as [-> _]; lia).
  - injection Henc as <- _.
    destruct val; [now contradiction Hval|simpl; lia].
  - discriminate.
Qed.

Lemma firstScan_in_order lib rd fuel t val comparison w w' :
  (t = STRING -> val <> EmptyString) ->
  Forall addressable (memoryRegions (scanner w)) ->
  disjoint_ascending (memoryRegions (scanner w)) ->
  final_world (firstScan lib rd fuel t val comparison w) = Some w' ->
  StronglySorted Z.lt (map address (scanResults (scanner w'))).
Proof.
  intros Hval Haddr Hsorted.
  rewrite firstScan_unfold.
  destruct (encodeValue lib t val) as [n target|e|] eqn:Henc;
    try (simpl; intros [= <-]; simpl; constructor).
  pose proof (encodeValue_width_positive _ _ _ _ _ Henc Hval) as Hn.
  unfold bind.
  assert (Hlo : Forall (fun r => 0 <= start r) (memoryRegions (scanner w))).
  { eapply Forall_impl; [|exact Haddr]. intros r [H0 _]; exact H0. }
  pose proof (scan_regions_ascending lib rd fuel t comparison target n
                (vector_size (memoryRegions (scanner w)))
                (memoryRegions (scanner w)) Hn Haddr Hsorted 0 0 0
                (firstScan_entry w) Hlo) as Hasc.
  unfold ensures in Hasc.
  destruct (scan_regions _ _ _ _ _ _ _ _ _ _ _ _) as [h w1|e w1| |];
    try discriminate; [|contradiction].
  simpl; intros [= <-].
  destruct Hasc as (new & Hres & Hs & _).
  simpl in Hres; simpl; rewrite Hres. exact Hs.
Qed.

Lemma attachment_regions (s s' : MemoryScanner) :
  attachment s' = attachment s -> memoryRegions s' = memoryRegions s.
Proof.
  unfold attachment; intros H; now injection H.
Qed.

Lemma in_address_order_scanner (w w' : World) :
  scanner w' = scanner w -> in_address_order w -> in_address_order w'.
Proof.
  unfold in_address_order; intros ->; auto.
Qed.

Lemma firstScan_keeps_address_order lib rd fuel t val comparison w w' :
  (t = STRING -> val <> EmptyString) ->
  in_address_order w ->
  final_world (firstScan lib rd fuel t val comparison w) = Some w' ->
  in_address_order w'.
Proof.
  intros Hval (Haddr & Hsorted & _ & _) Hfin.
  pose proof (firstScan_in_order _ _ _ _ _ _ _ _ Hval Haddr Hsorted Hfin)
    as Hs.
  apply firstScan_final in Hfin as (Ha & Hp & _ & _).
  apply attachment_regions in Ha.
  unfold in_address_order; rewrite Ha, Hp.
  repeat split; auto; constructor.
Qed.

Lemma nextScan_keeps_address_order lib rd t val comparison w w' :
  in_address_order w ->
  final_world (nextScan lib rd t val comparison w) = Some w' ->
  in_address_order w'.
Proof.
  intros Hord Hfin.
  apply nextScan_final in Hfin as (Ha & _ & [[_ Hs] | [Hp Hpick]]).
  - exact (in_address_order_scanner _ _ Hs Hord).
  - destruct Hord as (Haddr & Hsorted & Hcur & _).
    apply attachment_regions in Ha.
    unfold in_address_order; rewrite Ha, Hp.
    repeat split; auto. exact (picked_ascending _ _ Hpick Hcur).
Qed.

Lemma scanMemory_final_value lib rd fuel args w w' :
  final_world (scanMemory lib rd fuel args w) = Some w' ->
  scanner w' = scanner w \/
  exists t comparison a0 a1 more,
    args = a0 :: a1 :: more /\
    final_world (firstScan lib rd fuel t a1 comparison w) = Some w'.
Proof.
  destruct args as [|a0 [|a1 more]];
    try (simpl; intros [= <-]; now left).
  rewrite scanMemory_unfold.
  destruct (negb (isAttached (scanner w)));
    [simpl; intros [= <-]; now left|].
  destruct (parse_type (lowercase a0)) eqn:Et;
    try (destruct (negb (one_of _ _));
         [simpl; intros [= <-]; now left
         |intros H; right; eexists _, _, a0, a1, more; split;
          [reflexivity|exact H]]).
  simpl; intros [= <-]; now left.
Qed.

Lemma command_line_tokens (input cmd : string) (args : list string) :
  command_line input = Some (cmd, args) -> Forall is_token args.
Proof.
  unfold command_line.
  pose proof (extract_tokens_spec (S (String.length input)) input) as [Ht _].
  fold (tokenize input) in Ht.
  destruct (tokenize input) as [|c a]; [discriminate|].
  intros [= <- <-]. now inversion Ht.
Qed.

Lemma new_scanner_in_address_order (w : World) :
  scanner w = new_scanner -> in_address_order w.
Proof.
  unfold in_address_order; intros ->; simpl; repeat split; constructor.
Qed.

Lemma shell_session_in_address_order lib rd w :
  shell_session lib rd w -> in_address_order w.
Proof.
  induction 1 as [w Hnew
                 |w rg fuel pid task pname found w' _ IH Hrg Hloop Hfin
                 |w fuel input c w' _ IH Hcall Hfin
                 |w opens now filename w' _ IH Hfin].
  - now apply new_scanner_in_address_order.
  - simpl in Hfin. unfold attachProcess in Hfin.
    destruct task as [port|]; simpl in Hfin; injection Hfin as <-.
    + destruct (region_loop_ascending rg fuel Hrg 0%nat 0 found
                  ltac:(lia) Hloop) as (Haddr & Hsorted & _).
      unfold in_address_order; simpl. repeat split; auto; constructor.
    + exact IH.
  - unfold shell_call in Hcall.
    destruct (command_line input) as [[cmd args]|] eqn:Eline;
      [|discriminate].
    pose proof (command_line_tokens _ _ _ Eline) as Htok.
    destruct (String.eqb cmd "scan");
      [|destruct (String.eqb cmd "next");
        [|destruct (String.eqb cmd "detach"); [|discriminate]]];
      injection Hcall as <-; simpl in Hfin.
    + apply run_command_final in Hfin as (w1 & Hfin & Hs).
      apply (in_address_order_scanner _ _ Hs).
      apply scanMemory_final_value in Hfin
        as [Hs1 | (t & cmp & a0 & a1 & more & -> & Hfin)].
      * exact (in_address_order_scanner _ _ Hs1 IH).
      * apply (firstScan_keeps_address_order _ _ _ _ _ _ _ _ ) with (3 := Hfin);
          [|exact IH].
        intros _. inversion Htok as [|? ? _ Htl]; subst.
        inversion Htl as [|? ? [Hne _] _]; subst. exact Hne.
    + apply run_command_final in Hfin as (w1 & Hfin & Hs).
      apply (in_address_order_scanner _ _ Hs).
      apply cli_nextScan_final in Hfin as [Hs1 | (t & val & cmp & Hfin)].
      * exact (in_address_order_scanner _ _ Hs1 IH).
      * exact (nextScan_keeps_address_order _ _ _ _ _ _ _ IH Hfin).
    + unfold detachProcess, bind, this in Hfin.
      destruct (isAttached (scanner w)); injection Hfin as <-; [|exact IH].
      now apply new_scanner_in_address_order.
  - simpl in Hfin. apply saveResults_frame in Hfin.
    exact (in_address_order_scanner _ _ Hfin IH).
Qed.

(** X29. In a shell session whose catalogs are built by
    [refreshMemoryRegions] from a kernel that answers with the first region
    at or after the address asked, and whose scans are started from typed
    lines, the result set is always in strictly ascending address order,
    and so is the previous generation: no address is ever listed twice.
    (The shell cannot ask for the empty text, the one search value that
    matches at the end of a region as well.) *)
Theorem shell_session_addresses_ascending lib rd w :
  shell_session lib rd w ->
  StronglySorted Z.lt (map address (scanResults (scanner w))) /\
  NoDup (map address (scanResults (scanner w))) /\
  StronglySorted Z.lt (map address (previousScanResults (scanner w))).
Proof.
  intros Hs.
  destruct (shell_session_in_address_order _ _ _ Hs) as (_ & _ & Hc & Hp).
  split; [exact Hc|]. split; [exact (strictly_ascending_NoDup _ Hc)|exact Hp].
Qed.

Lemma shell_session_addresses_ascending_witness :
  StronglySorted Z.lt (map address (scanResults (scanner two_ints_scanned)))
  /\ NoDup (map address (scanResults (scanner two_ints_scanned)))
  /\ StronglySorted Z.lt
       (map address (previousScanResults (scanner two_ints_scanned))).
Proof.
  apply (shell_session_addresses_ascending no_float_lib
           (block 4096 two_ints)).
  apply (session_line _ _ two_ints_attached 100 "scan int   0 greater"
           (CallScanCommand 100 ["int"; "0"; "greater"])).
  - apply (session_attach _ _ fresh one_region_map 2 42 (Some 1)
             (Some "game") [rw_region 4096 8]).
    + apply session_start; reflexivity.
    + exact one_region_map_promise.
    + reflexivity.
    + vm_compute; reflexivity.
  - vm_compute; reflexivity.
  - vm_compute; reflexivity.
Defined.

(** ** The table of results *)

Lemma display_rows_numbered (limit : Z) (results : list ScanResult) :
  forall i,
    0 <= i <= limit ->
    i + Z.of_nat (List.length results) < 2 ^ 64 ->
    display_rows results i i limit
    = numbered i (firstn (Z.to_nat (limit - i)) results).
Proof.
  induction results as [|r rest IH]; intros i Hi Hlen; simpl.
  - now rewrite firstn_nil.
  - destruct (i <? limit) eqn:E.
    + apply Z.ltb_lt in E.
      assert (Hnext : wrap64 (i + 1) = i + 1).
      { unfold wrap64; apply Z.mod_small.
        simpl List.length in Hlen. lia. }
      rewrite Hnext.
      replace (Z.to_nat (limit - i)) with (S (Z.to_nat (limit - (i + 1))))
        by lia.
      simpl. f_equal. apply IH; [lia|].
      simpl List.length in Hlen; lia.
    + apply Z.ltb_ge in E.
      replace (limit - i) with 0 by lia. reflexivity.
Qed.

Lemma stoi_bounds (s : string) (v : Z) :
  stoi s = inr v -> INT_MIN <= v <= INT_MAX.
Proof.
  unfold stoi, sto_range.
  destruct (parse_decimal s) as [x|]; [|discriminate].
  destruct ((INT_MIN <=? x) && (x <=? INT_MAX)) eqn:E; [|discriminate].
  intros [= <-]. apply andb_true_iff in E as [H1 H2]. lia.
Qed.

(** X30. [results <limit>] on a result set within the ceiling: a limit
    from 0 up to one less than the number of results shows that many rows,
    the first ones, numbered from 0, and then tells how many more there
    are; any other limit shows every result and no such line.  That holds
    for a negative limit too, which becomes a huge [size_t]: [results -1]
    shows everything. *)
Theorem showResults_limit (a0 : string) (more : list string)
    (s : MemoryScanner) (v : Z) :
  stoi a0 = inr v ->
  scanResults s <> [] ->
  vector_size (scanResults s) <= MAX_RESULTS ->
  showResults (a0 :: more) s
  = [ResultsHeading (vector_size (scanResults s)); Rule; ColumnTitles; Rule]
    ++ numbered 0
         (firstn (Z.to_nat (rows_shown v (vector_size (scanResults s))))
            (scanResults s))
    ++ (if (0 <=? v) && (v <? vector_size (scanResults s))
        then [MoreResults (vector_size (scanResults s) - v)]
        else [])
    ++ [Rule].
Proof.
  intros Hv Hne Hle.
  pose proof (stoi_bounds _ _ Hv) as Hrange.
  unfold INT_MIN, INT_MAX in Hrange. unfold MAX_RESULTS in Hle.
  unfold showResults, displayResults, rows_shown; rewrite Hv.
  destruct (scanResults s) as [|r0 rs] eqn:E; [contradiction|].
  rewrite <- E in *. clear Hne.
  set (n := vector_size (scanResults s)) in *.
  assert (Hn : 0 <= n) by (unfold n, vector_size; lia).
  assert (Hfit : Z.of_nat (List.length (scanResults s)) = n) by reflexivity.
  apply (f_equal (app _)).
  assert (H64 : 2 ^ 64 = 18446744073709551616) by reflexivity.
  assert (H31 : 2 ^ 31 = 2147483648) by reflexivity.
  destruct (0 <=? v) eqn:E0; cbn [andb].
  - apply Z.leb_le in E0.
    assert (Hw : wrap64 v = v) by (unfold wrap64; apply Z.mod_small; lia).
    rewrite Hw.
    rewrite display_rows_numbered by lia. rewrite Z.sub_0_r.
    destruct (v <? n) eqn:E1.
    + apply Z.ltb_lt in E1.
      replace (n >? v) with true by (symmetry; apply Z.gtb_lt; lia).
      replace (wrap64 (n - v)) with (n - v)
        by (symmetry; unfold wrap64; apply Z.mod_small; lia).
      reflexivity.
    + apply Z.ltb_ge in E1.
      replace (n >? v) with false
        by (symmetry; rewrite Z.gtb_ltb; apply Z.ltb_ge; lia).
      rewrite !firstn_all2 by lia. reflexivity.
  - apply Z.leb_gt in E0.
    assert (Hw : wrap64 v = v + 2 ^ 64).
    { unfold wrap64. symmetry. apply Z.mod_unique with (q := -1); lia. }
    rewrite Hw.
    rewrite display_rows_numbered by lia. rewrite Z.sub_0_r.
    replace (n >? v + 2 ^ 64) with false
      by (symmetry; rewrite Z.gtb_ltb; apply Z.ltb_ge; lia).
    rewrite !firstn_all2 by lia. reflexivity.
Qed.

Lemma showResults_limit_witness :
  showResults ["-1"] (scanner two_ints_scanned)
  = [ResultsHeading (vector_size (scanResults (scanner two_ints_scanned)));
     Rule; ColumnTitles; Rule]
    ++ numbered 0
         (firstn (Z.to_nat
                    (rows_shown (-1)
                       (vector_size
                          (scanResults (scanner two_ints_scanned)))))
            (scanResults (scanner two_ints_scanned)))
    ++ (if (0 <=? -1)
           && (-1 <? vector_size (scanResults (scanner two_ints_scanned)))
        then [MoreResults
                (vector_size (scanResults (scanner two_ints_scanned))
                 - -1)]
        else [])
    ++ [Rule].
Proof.
  apply (showResults_limit "-1" [] (scanner two_ints_scanned) (-1)).
  - reflexivity.
  - vm_compute; discriminate.
  - vm_compute; discriminate.
Defined.
